(** * mdk-flow: the job queue, the lazy object and the singletons

    Three modules are modelled: [ConcurrentQueue], a bounded-concurrency job
    queue (src/concurrent-queue.ts), [lazyloadObject] (src/lazy.ts) and
    [singletonSync] / [singletonAsync] (src/singleton.ts).  The definitions
    of all three come first, the properties after.

    The queue is a TypeScript class whose bookkeeping runs on a single
    threaded event loop.  Every callback of the source (a method call, a
    timer, an abort signal, a promise reaction) is modelled as one atomic
    transition on an explicit [State]; the callbacks the runtime decides to
    run are the [Action]s of a labelled transition system.

    - The closure that each call of [process] creates ([status], [timeout],
      [jobAbort], the promise) is a cell of the store [jobs]; the queue array
      and the listener lists hold references to these cells, and a reference
      is the number of the submission.
    - The value of [nextId] is an input of [process].  It starts with the
      digits of [Date.now()], so it is no property name of
      [Object.prototype] ([nextId_not_inherited]); nothing else is assumed
      of it: two ids may be equal, and a property that needs them to differ
      says so.
    - The executor, the logger and the observers of [events] are outside the
      queue: a call of the executor is recorded in [executed], an emitted
      event in [emitted], a log line in [logged], and what the executor's
      promise does comes back as a callback.  They are taken to return
      (the executor hands back its promise, as an [async] function does) and
      not to call into the queue from inside these calls.
    - The promise of the executor can reject with any value.  [reject]
      converts a value that is not an [Error] with [String(err)], which
      throws for a value that has no primitive conversion; the rejection
      this leaves at the end of the promise chain of [executeJob] has no
      handler and is recorded in [unhandled].
    - [jobStatus] is a plain object used as a map: [jobStatus] holds its own
      keys, and a read of a name it does not own finds what
      [Object.prototype] has under that name.  [concurrency] is an integer,
      a delay a rational number. *)

From Stdlib Require Import ZArith QArith Lia Ascii String DecimalString DecimalN DecimalPos.
From stdpp Require Import base decidable option list sorting gmap strings.

Set Default Proof Using "Type".
Local Open Scope Z_scope.

(** ** Plain data *)

(** [type ConcurrentJobQueueStatus = 'pending' | 'processed' | 'aborted'] *)
Inductive ConcurrentJobQueueStatus := pending | processed | aborted.

#[global] Instance ConcurrentJobQueueStatus_eq_dec : EqDecision ConcurrentJobQueueStatus.
Proof. solve_decision. Defined.

(** The second argument of ['job-cancelled']: ['abort' | 'timeout']. *)
Inductive Reason := abort_reason | timeout_reason.

#[global] Instance Reason_eq_dec : EqDecision Reason.
Proof. solve_decision. Defined.

Definition reason_message (r : Reason) : string :=
  match r with abort_reason => "abort" | timeout_reason => "timeout" end.

(** A JavaScript [Error] object, identified by its message. *)
Record Error := new_Error { message : string }.

(** A value an executor promise can reject with ([err : unknown]): an
    [Error] instance; a value that [String(err)] converts, kept as that
    string; or a value that [String(err)] throws on, because it has no
    primitive conversion ([Object.create(null)], an object whose [toString]
    throws). *)
Inductive Thrown :=
| ThrownError (e : Error)
| ThrownOther (str : string)
| ThrownUnprintable.

(** [err instanceof Error ? err : new Error(String(err) ?? 'Unknown error')];
    [None]: the expression throws.  [String(_)] is never nullish, so the
    right operand of [??] is dead. *)
Definition to_Error (err : Thrown) : option Error :=
  match err with
  | ThrownError e => Some e
  | ThrownOther str => Some (new_Error str)
  | ThrownUnprintable => None
  end.

(** A promise as seen by its holder; the first settlement wins. *)
Inductive Promise (A : Type) :=
| Unsettled
| Fulfilled (value : A)
| Rejected (reason : Error).
Arguments Unsettled {A}.
Arguments Fulfilled {A} value.
Arguments Rejected {A} reason.

Definition promise_resolve {A} (a : A) (p : Promise A) : Promise A :=
  match p with Unsettled => Fulfilled a | _ => p end.

Definition promise_reject {A} (e : Error) (p : Promise A) : Promise A :=
  match p with Unsettled => Rejected e | _ => p end.

(** References into the stores of closures. *)
Abbreviation JobRef := nat.
Abbreviation WaiterRef := nat.
Abbreviation SignalRef := nat.

(** An [AbortController] together with its signal: the [aborted] flag and
    the ['abort'] listeners registered by the jobs. *)
Record AbortController := {
  ac_aborted : bool;
  ac_listeners : list JobRef
}.

Definition new_AbortController : AbortController :=
  {| ac_aborted := false; ac_listeners := [] |}.

Definition addEventListener (j : JobRef) (c : AbortController) : AbortController :=
  {| ac_aborted := ac_aborted c; ac_listeners := ac_listeners c ++ [j] |}.

Definition remove_listener (j : nat) (l : list nat) : list nat :=
  filter (λ k, k ≠ j) l.

Definition removeEventListener (j : JobRef) (c : AbortController) : AbortController :=
  {| ac_aborted := ac_aborted c; ac_listeners := remove_listener j (ac_listeners c) |}.

Definition set_aborted (c : AbortController) : AbortController :=
  {| ac_aborted := true; ac_listeners := ac_listeners c |}.

(** The promise chain [executeJob] builds around one executor call. *)
Inductive ExecState :=
| NotStarted      (* the executor was not called for this job *)
| Executing       (* [jobExecutor(...)] was called, its promise is unsettled *)
| ExecSettled     (* the promise of [executeJob] resolved, its [then] is due *)
| Released.       (* the [then] callback of [run] has run *)

#[global] Instance ExecState_eq_dec : EqDecision ExecState.
Proof. solve_decision. Defined.

(** Lines passed to [logger]; the elapsed milliseconds of the completion
    line depend on the clock and are left out. *)
Inductive LogMsg :=
| LogShutdown (pendingJobs : nat)
| LogAlreadyProcessed
| LogAbortedOrTimedOut (id : string)
| LogResolvedLate (id : string)
| LogCompleted (id : string)
| LogRejectedLate (id : string)
| LogFailed (id : string)
| LogAdded (id : string)
| LogStarted (id : string).

(** The property names every plain object inherits from [Object.prototype],
    as the language defines them (the accessors of its Annex B included). *)
Definition Object_prototype : list string :=
  ["constructor"; "hasOwnProperty"; "isPrototypeOf"; "propertyIsEnumerable";
   "toLocaleString"; "toString"; "valueOf"; "__proto__";
   "__defineGetter__"; "__defineSetter__"; "__lookupGetter__"; "__lookupSetter__"].

(** A JavaScript number used as a delay.  Only its sign and its product with
    1000 matter here, and both are exact on rationals. *)
Abbreviation number := Q.

Definition positive_number (t : number) : bool := negb (Qle_bool t 0).

(** A pending call of [waitForJob]: the closure variables of its promise. *)
Record Waiter := {
  w_jobId : string;
  w_timeout : option number;     (* [Some ms]: the timer is scheduled *)
  w_promise : Promise unit
}.

(** ** nextId and the duration [resolve] logs

    [Date.now()] is a natural number of milliseconds, small enough to be an
    exact JavaScript number. *)

(** [String(n)] for a natural number. *)
Definition String_of_number (n : N) : string := NilZero.string_of_uint (N.to_uint n).

(** [Number(s)] for a string of decimal digits; [None] stands for the
    strings this model does not read. *)
Definition Number_of_digits (s : string) : option N :=
  N.of_uint <$> NilZero.uint_of_string s.

(** [s.split(sep)[0]]: [s] up to its first [sep]. *)
Fixpoint split_head (sep : Ascii.ascii) (s : string) : string :=
  match s with
  | EmptyString => EmptyString
  | String c s => if Ascii.eqb c sep then EmptyString else String c (split_head sep s)
  end.

(** [get nextId()], with the values of [Date.now()] and of
    [Math.random().toString(36)] that it reads. *)
Definition nextId (now : N) (random36 : string) : string :=
  String_of_number now +:+ "-" +:+ String.substring 2 9 random36.

(** [Date.now() - Number(id.split('-')[0])] in [resolve]. *)
Definition elapsed (now : N) (id : string) : option Z :=
  (λ t, Z.of_N now - Z.of_N t) <$> Number_of_digits (split_head "-"%char id).

(** * lazyloadObject (src/lazy.ts)

    A call into JavaScript code runs in a world, changes it, and returns or
    throws: [World → (Err + A) * World].  The proxy is its closure variable
    [obj]; [init] and the property reads of the object are calls into the
    caller's code, which is taken not to read the proxy it initialises. *)

Section Lazy.

Context {T Key Val World Err : Type}.

(** [init: () => T] *)
Variable init : World → (Err + T) * World.

(** [obj[prop as keyof T]] *)
Variable read : T → Key → World → (Err + Val) * World.

(** [lazyloadObject(init)]: the proxy, made with [let obj: T | null = null]. *)
Definition lazyloadObject : option T := None.

(** The [get] trap of the proxy. *)
Definition lazy_get (prop : Key) (obj : option T) (w : World)
    : (Err + Val) * option T * World :=
  match obj with
  | None =>
      match init w with
      | (inl e, w) => (inl e, None, w)
      | (inr o, w) => let '(r, w) := read o prop w in (r, Some o, w)
      end
  | Some o => let '(r, w) := read o prop w in (r, Some o, w)
  end.

(** Property reads through the proxy, one after the other; the caller
    catches what a read throws. *)
Fixpoint lazy_gets (props : list Key) (obj : option T) (w : World)
    : list (Err + Val) * option T * World :=
  match props with
  | [] => ([], obj, w)
  | prop :: props =>
      let '(r, obj, w) := lazy_get prop obj w in
      let '(rs, obj, w) := lazy_gets props obj w in
      (r :: rs, obj, w)
  end.

(** The same reads on an object itself. *)
Fixpoint reads (o : T) (props : list Key) (w : World) : list (Err + Val) * World :=
  match props with
  | [] => ([], w)
  | prop :: props =>
      let '(r, w) := read o prop w in
      let '(rs, w) := reads o props w in
      (r :: rs, w)
  end.

(** The world after [n] calls of [init]. *)
Definition init_runs (n : nat) (w : World) : World := Nat.iter n (λ w, snd (init w)) w.

End Lazy.

(** * singletonSync and singletonAsync (src/singleton.ts)

    [singletonInstances] is private to the module, and the services run in
    the rest of the world; a service may call back into the module, so it is
    a function of both.  A stored value of type [unknown] is any [U]. *)

Section Singleton.

Context {U World Err : Type}.

Record Globals := {
  singletonInstances : gmap string U;   (* [new Map<string, unknown>()] *)
  world : World
}.

(** [singletonInstances.has(key)] *)
Definition Map_has (key : string) (g : Globals) : bool :=
  bool_decide (is_Some (singletonInstances g !! key)).

(** [singletonInstances.get(key)]; [None] is the [undefined] of a missing key. *)
Definition Map_get (key : string) (g : Globals) : option U :=
  singletonInstances g !! key.

(** [singletonInstances.set(key, value)] *)
Definition Map_set (key : string) (value : U) (g : Globals) : Globals :=
  {| singletonInstances := <[key := value]> (singletonInstances g); world := world g |}.

(** [singletonSync(serviceName, getService)] *)
Definition singletonSync (serviceName : string)
    (getService : Globals → (Err + U) * Globals) (g : Globals)
    : (Err + option U) * Globals :=
  if negb (Map_has serviceName g) then
    match getService g with
    | (inl e, g) => (inl e, g)
    | (inr v, g) =>
        let g := Map_set serviceName v g in
        (inr (Map_get serviceName g), g)
    end
  else (inr (Map_get serviceName g), g).

(** A call of an [async] function: suspended at its [await], or returned
    with its promise settled. *)
Inductive AsyncCall :=
| Awaiting
| Returned (r : Err + option U).

(** [singletonAsync(serviceName, getService)] up to [await getService()].
    [getService()] hands back a promise ([None]) or throws. *)
Definition singletonAsync (serviceName : string)
    (getService : Globals → option Err * Globals) (g : Globals)
    : AsyncCall * Globals :=
  if negb (Map_has serviceName g) then
    match getService g with
    | (Some e, g) => (Returned (inl e), g)
    | (None, g) => (Awaiting, g)
    end
  else (Returned (inr (Map_get serviceName g)), g).

(** The rest of [singletonAsync], run in a later turn of the event loop when
    the promise of the service has settled with [r]. *)
Definition singletonAsync_resume (serviceName : string) (r : Err + U) (g : Globals)
    : (Err + option U) * Globals :=
  match r with
  | inl e => (inl e, g)
  | inr v =>
      let g := Map_set serviceName v g in
      (inr (Map_get serviceName g), g)
  end.

(** A service that leaves the instances alone. *)
Definition keeps_instances {A} (f : Globals → A * Globals) : Prop :=
  ∀ g, singletonInstances (snd (f g)) = singletonInstances g.

End Singleton.

(** * ConcurrentQueue (src/concurrent-queue.ts) *)

Section Queue.

Context {I O : Type}.

(** [{ error: false; output: O } | { error: Error; output: null }] *)
Inductive ProcessedStatus :=
| StatusOutput (output : O)
| StatusError (error : Error).

(** [ConcurrentQueueEvents]: what [events.emit] was called with. *)
Inductive Event :=
| job_added (id : string) (data : I) (totalJobs : nat)
| job_processed (id : string) (data : I) (status : ProcessedStatus) (totalJobs : nat)
| job_cancelled (id : string) (data : I) (reason : Reason) (totalJobs : nat)
| abort_job (jobId : string).

(** The closure created by one call of [process]. *)
Record Job := {
  j_id : string;
  j_data : I;
  j_signal : option SignalRef;           (* the [signal?] argument *)
  j_status : ConcurrentJobQueueStatus;   (* [let status] *)
  j_timeout : option number;             (* [Some ms]: the timer in [timeout] is scheduled *)
  j_jobAbort : bool;                     (* [jobAbort.signal.aborted] *)
  j_promise : Promise O;                 (* the promise returned to the caller *)
  j_exec : ExecState
}.

Definition set_status (st : ConcurrentJobQueueStatus) (b : Job) : Job :=
  {| j_id := j_id b; j_data := j_data b; j_signal := j_signal b; j_status := st;
     j_timeout := j_timeout b; j_jobAbort := j_jobAbort b; j_promise := j_promise b;
     j_exec := j_exec b |}.

Definition set_timeout (t : option number) (b : Job) : Job :=
  {| j_id := j_id b; j_data := j_data b; j_signal := j_signal b; j_status := j_status b;
     j_timeout := t; j_jobAbort := j_jobAbort b; j_promise := j_promise b;
     j_exec := j_exec b |}.

Definition set_jobAbort (a : bool) (b : Job) : Job :=
  {| j_id := j_id b; j_data := j_data b; j_signal := j_signal b; j_status := j_status b;
     j_timeout := j_timeout b; j_jobAbort := a; j_promise := j_promise b;
     j_exec := j_exec b |}.

Definition map_promise (f : Promise O → Promise O) (b : Job) : Job :=
  {| j_id := j_id b; j_data := j_data b; j_signal := j_signal b; j_status := j_status b;
     j_timeout := j_timeout b; j_jobAbort := j_jobAbort b; j_promise := f (j_promise b);
     j_exec := j_exec b |}.

Definition set_exec (e : ExecState) (b : Job) : Job :=
  {| j_id := j_id b; j_data := j_data b; j_signal := j_signal b; j_status := j_status b;
     j_timeout := j_timeout b; j_jobAbort := j_jobAbort b; j_promise := j_promise b;
     j_exec := e |}.

(** The fields of the class, the closures it created, the objects it
    listens on, and the calls it made to its collaborators. *)
Record State := {
  queue : list JobRef;                     (* [private queue] *)
  processingJobs : Z;                      (* [private processingJobs] *)
  queueAbort : AbortController;            (* [private queueAbort] *)
  jobStatus : gmap string bool;            (* [private jobStatus], its own keys *)
  jobs : list Job;                         (* closures of [process], by creation *)
  signals : gmap SignalRef AbortController;(* caller-supplied signals *)
  abortJobListeners : list JobRef;         (* [events] listeners of 'abort-job' *)
  jobProcessedListeners : list WaiterRef;  (* ... of 'job-processed' *)
  jobCancelledListeners : list WaiterRef;  (* ... of 'job-cancelled' *)
  waiters : list Waiter;                   (* closures of [waitForJob] *)
  emitted : list Event;                    (* calls of [events.emit], oldest first *)
  logged : list LogMsg;                    (* calls of [logger], oldest first *)
  executed : list JobRef;                  (* calls of [jobExecutor], oldest first *)
  unhandled : list JobRef                  (* promise chains of [executeJob] that ended
                                              rejected with no handler, oldest first *)
}.

Definition set_queue (x : list JobRef) (s : State) : State :=
  {| queue := x; processingJobs := processingJobs s; queueAbort := queueAbort s;
     jobStatus := jobStatus s; jobs := jobs s; signals := signals s;
     abortJobListeners := abortJobListeners s;
     jobProcessedListeners := jobProcessedListeners s;
     jobCancelledListeners := jobCancelledListeners s; waiters := waiters s;
     emitted := emitted s; logged := logged s; executed := executed s;
     unhandled := unhandled s |}.

Definition set_processingJobs (x : Z) (s : State) : State :=
  {| queue := queue s; processingJobs := x; queueAbort := queueAbort s;
     jobStatus := jobStatus s; jobs := jobs s; signals := signals s;
     abortJobListeners := abortJobListeners s;
     jobProcessedListeners := jobProcessedListeners s;
     jobCancelledListeners := jobCancelledListeners s; waiters := waiters s;
     emitted := emitted s; logged := logged s; executed := executed s;
     unhandled := unhandled s |}.

Definition set_queueAbort (x : AbortController) (s : State) : State :=
  {| queue := queue s; processingJobs := processingJobs s; queueAbort := x;
     jobStatus := jobStatus s; jobs := jobs s; signals := signals s;
     abortJobListeners := abortJobListeners s;
     jobProcessedListeners := jobProcessedListeners s;
     jobCancelledListeners := jobCancelledListeners s; waiters := waiters s;
     emitted := emitted s; logged := logged s; executed := executed s;
     unhandled := unhandled s |}.

Definition set_jobStatus (x : gmap string bool) (s : State) : State :=
  {| queue := queue s; processingJobs := processingJobs s; queueAbort := queueAbort s;
     jobStatus := x; jobs := jobs s; signals := signals s;
     abortJobListeners := abortJobListeners s;
     jobProcessedListeners := jobProcessedListeners s;
     jobCancelledListeners := jobCancelledListeners s; waiters := waiters s;
     emitted := emitted s; logged := logged s; executed := executed s;
     unhandled := unhandled s |}.

Definition set_jobs (x : list Job) (s : State) : State :=
  {| queue := queue s; processingJobs := processingJobs s; queueAbort := queueAbort s;
     jobStatus := jobStatus s; jobs := x; signals := signals s;
     abortJobListeners := abortJobListeners s;
     jobProcessedListeners := jobProcessedListeners s;
     jobCancelledListeners := jobCancelledListeners s; waiters := waiters s;
     emitted := emitted s; logged := logged s; executed := executed s;
     unhandled := unhandled s |}.

Definition set_signals (x : gmap SignalRef AbortController) (s : State) : State :=
  {| queue := queue s; processingJobs := processingJobs s; queueAbort := queueAbort s;
     jobStatus := jobStatus s; jobs := jobs s; signals := x;
     abortJobListeners := abortJobListeners s;
     jobProcessedListeners := jobProcessedListeners s;
     jobCancelledListeners := jobCancelledListeners s; waiters := waiters s;
     emitted := emitted s; logged := logged s; executed := executed s;
     unhandled := unhandled s |}.

Definition set_abortJobListeners (x : list JobRef) (s : State) : State :=
  {| queue := queue s; processingJobs := processingJobs s; queueAbort := queueAbort s;
     jobStatus := jobStatus s; jobs := jobs s; signals := signals s;
     abortJobListeners := x;
     jobProcessedListeners := jobProcessedListeners s;
     jobCancelledListeners := jobCancelledListeners s; waiters := waiters s;
     emitted := emitted s; logged := logged s; executed := executed s;
     unhandled := unhandled s |}.

Definition set_waitListeners (x y : list WaiterRef) (s : State) : State :=
  {| queue := queue s; processingJobs := processingJobs s; queueAbort := queueAbort s;
     jobStatus := jobStatus s; jobs := jobs s; signals := signals s;
     abortJobListeners := abortJobListeners s;
     jobProcessedListeners := x;
     jobCancelledListeners := y; waiters := waiters s;
     emitted := emitted s; logged := logged s; executed := executed s;
     unhandled := unhandled s |}.

Definition set_waiters (x : list Waiter) (s : State) : State :=
  {| queue := queue s; processingJobs := processingJobs s; queueAbort := queueAbort s;
     jobStatus := jobStatus s; jobs := jobs s; signals := signals s;
     abortJobListeners := abortJobListeners s;
     jobProcessedListeners := jobProcessedListeners s;
     jobCancelledListeners := jobCancelledListeners s; waiters := x;
     emitted := emitted s; logged := logged s; executed := executed s;
     unhandled := unhandled s |}.

Definition set_emitted (x : list Event) (s : State) : State :=
  {| queue := queue s; processingJobs := processingJobs s; queueAbort := queueAbort s;
     jobStatus := jobStatus s; jobs := jobs s; signals := signals s;
     abortJobListeners := abortJobListeners s;
     jobProcessedListeners := jobProcessedListeners s;
     jobCancelledListeners := jobCancelledListeners s; waiters := waiters s;
     emitted := x; logged := logged s; executed := executed s;
     unhandled := unhandled s |}.

Definition set_logged (x : list LogMsg) (s : State) : State :=
  {| queue := queue s; processingJobs := processingJobs s; queueAbort := queueAbort s;
     jobStatus := jobStatus s; jobs := jobs s; signals := signals s;
     abortJobListeners := abortJobListeners s;
     jobProcessedListeners := jobProcessedListeners s;
     jobCancelledListeners := jobCancelledListeners s; waiters := waiters s;
     emitted := emitted s; logged := x; executed := executed s;
     unhandled := unhandled s |}.

Definition set_executed (x : list JobRef) (s : State) : State :=
  {| queue := queue s; processingJobs := processingJobs s; queueAbort := queueAbort s;
     jobStatus := jobStatus s; jobs := jobs s; signals := signals s;
     abortJobListeners := abortJobListeners s;
     jobProcessedListeners := jobProcessedListeners s;
     jobCancelledListeners := jobCancelledListeners s; waiters := waiters s;
     emitted := emitted s; logged := logged s; executed := x;
     unhandled := unhandled s |}.

Definition set_unhandled (x : list JobRef) (s : State) : State :=
  {| queue := queue s; processingJobs := processingJobs s; queueAbort := queueAbort s;
     jobStatus := jobStatus s; jobs := jobs s; signals := signals s;
     abortJobListeners := abortJobListeners s;
     jobProcessedListeners := jobProcessedListeners s;
     jobCancelledListeners := jobCancelledListeners s; waiters := waiters s;
     emitted := emitted s; logged := logged s; executed := executed s;
     unhandled := x |}.

(** The state of a freshly constructed queue. *)
Definition init : State :=
  {| queue := []; processingJobs := 0; queueAbort := new_AbortController;
     jobStatus := ∅; jobs := []; signals := ∅; abortJobListeners := [];
     jobProcessedListeners := []; jobCancelledListeners := []; waiters := [];
     emitted := []; logged := []; executed := [];
     unhandled := [] |}.

(** ** Small steps shared by the closures *)

(** [this.log(message)] *)
Definition log (m : LogMsg) (s : State) : State :=
  set_logged (logged s ++ [m]) s.

(** Assignment to a closure variable of job [j]. *)
Definition update_job (f : Job → Job) (j : JobRef) (s : State) : State :=
  set_jobs (alter f j (jobs s)) s.

Definition update_waiter (f : Waiter → Waiter) (w : WaiterRef) (s : State) : State :=
  set_waiters (alter f w (waiters s)) s.

(** Reads of closure variables; a dangling reference never occurs. *)
Definition status_of (j : JobRef) (s : State) : option ConcurrentJobQueueStatus :=
  j_status <$> jobs s !! j.

Definition promise_of (j : JobRef) (s : State) : option (Promise O) :=
  j_promise <$> jobs s !! j.

Definition exec_of (j : JobRef) (s : State) : option ExecState :=
  j_exec <$> jobs s !! j.

(** [jobAbort.signal.aborted] *)
Definition jobAbort_aborted (j : JobRef) (s : State) : bool :=
  from_option j_jobAbort false (jobs s !! j).

(** [aborted: () => status === 'aborted'] *)
Definition item_aborted (j : JobRef) (s : State) : bool :=
  bool_decide (status_of j s = Some aborted).

(** A caller-supplied signal that was never seen before is not aborted and
    has no listener of this queue. *)
Definition signal_of (sg : SignalRef) (s : State) : AbortController :=
  default new_AbortController (signals s !! sg).

(** ** waitForJob: its listener and its cleanup *)

Definition clear_waiter_timeout (w : Waiter) : Waiter :=
  {| w_jobId := w_jobId w; w_timeout := None; w_promise := w_promise w |}.

Definition arm_waiter_timeout (ms : number) (w : Waiter) : Waiter :=
  {| w_jobId := w_jobId w; w_timeout := Some ms; w_promise := w_promise w |}.

Definition map_waiter_promise (f : Promise unit → Promise unit) (w : Waiter) : Waiter :=
  {| w_jobId := w_jobId w; w_timeout := w_timeout w; w_promise := f (w_promise w) |}.

(** [cleanup] of [waitForJob] *)
Definition waiter_cleanup (w : WaiterRef) (s : State) : State :=
  let s := set_waitListeners (remove_listener w (jobProcessedListeners s))
                             (jobCancelledListeners s) s in
  let s := set_waitListeners (jobProcessedListeners s)
                             (remove_listener w (jobCancelledListeners s)) s in
  update_waiter clear_waiter_timeout w s.

(** [listener] of [waitForJob], called with the job of the event *)
Definition waiter_listener (w : WaiterRef) (id : string) (s : State) : State :=
  match waiters s !! w with
  | None => s
  | Some wt =>
      if decide (id = w_jobId wt) then
        let s := waiter_cleanup w s in
        update_waiter (map_waiter_promise (promise_resolve ())) w s
      else s
  end.

(** ** events.emit

    eventemitter3 calls the listeners that were registered when [emit]
    started, in registration order.  Listeners of observers outside the
    queue are represented by the [emitted] trace. *)

(** The calls of the [waitForJob] listeners [l] for an event about job [id]. *)
Definition notify (id : string) (l : list WaiterRef) (s : State) : State :=
  foldl (λ s w, waiter_listener w id s) s l.

Definition emit_job_added (id : string) (data : I) (s : State) : State :=
  set_emitted (emitted s ++ [job_added id data (length (queue s))]) s.

Definition emit_job_processed (id : string) (data : I) (st : ProcessedStatus)
    (s : State) : State :=
  let s := set_emitted (emitted s ++ [job_processed id data st (length (queue s))]) s in
  notify id (jobProcessedListeners s) s.

Definition emit_job_cancelled (id : string) (data : I) (r : Reason) (s : State) : State :=
  let s := set_emitted (emitted s ++ [job_cancelled id data r (length (queue s))]) s in
  notify id (jobCancelledListeners s) s.

(** ** The closures of [process] *)

(** [cleanup] *)
Definition cleanup (j : JobRef) (s : State) : State :=
  match jobs s !! j with
  | None => s
  | Some job =>
      let s := set_jobStatus (delete (j_id job) (jobStatus s)) s in
      let s := set_abortJobListeners (remove_listener j (abortJobListeners s)) s in
      let s := set_queueAbort (removeEventListener j (queueAbort s)) s in
      let s := match j_signal job with
               | Some sg => set_signals (alter (removeEventListener j) sg (signals s)) s
               | None => s
               end in
      update_job (set_timeout None) j s
  end.

(** [AbortController.prototype.abort] on [jobAbort]: nothing when the signal
    is aborted already; otherwise the flag is set and the ['abort'] event is
    dispatched to its one listener of the queue, given as [listener]. *)
Definition AbortController_abort (listener : JobRef → State → option State)
    (j : JobRef) (s : State) : option State :=
  if jobAbort_aborted j s then Some s
  else listener j (update_job (set_jobAbort true) j s).

(** [onTimeoutOrAbort].  Its last line aborts [jobAbort], whose listener is
    [onTimeoutOrAbort] itself; [fuel] bounds that nesting. *)
Fixpoint onTimeoutOrAbort_fuel (fuel : nat) (j : JobRef) (s : State) : option State :=
  match fuel with
  | 0%nat => None
  | S fuel =>
      match jobs s !! j with
      | None => Some s
      | Some job =>
          if decide (j_status job ≠ pending) then Some (log LogAlreadyProcessed s)
          else
            let s := log (LogAbortedOrTimedOut (j_id job)) s in
            let s := update_job (set_status aborted) j s in
            let s := cleanup j s in
            let reason := if jobAbort_aborted j s then abort_reason else timeout_reason in
            let s := update_job (map_promise (promise_reject
                                   (new_Error (reason_message reason)))) j s in
            let s := emit_job_cancelled (j_id job) (j_data job) reason s in
            if negb (jobAbort_aborted j s)
            then AbortController_abort (onTimeoutOrAbort_fuel fuel) j s
            else Some s
      end
  end.

(** Two levels of nesting are all there is, see [onTimeoutOrAbort_fuel_enough]. *)
Definition onTimeoutOrAbort (j : JobRef) (s : State) : State :=
  default s (onTimeoutOrAbort_fuel 2 j s).

(** [const abort = jobAbort.abort.bind(jobAbort)] *)
Definition jobAbort_abort (j : JobRef) (s : State) : State :=
  default s (AbortController_abort (onTimeoutOrAbort_fuel 2) j s).

(** [handleAbortEvent] *)
Definition handleAbortEvent (j : JobRef) (jobId : string) (s : State) : State :=
  match jobs s !! j with
  | None => s
  | Some job => if decide (jobId = j_id job) then jobAbort_abort j s else s
  end.

(** The [resolve] member of the queue item *)
Definition resolve (j : JobRef) (output : O) (s : State) : State :=
  match jobs s !! j with
  | None => s
  | Some job =>
      if decide (j_status job ≠ pending) then log (LogResolvedLate (j_id job)) s
      else
        let s := log (LogCompleted (j_id job)) s in
        let s := update_job (set_status processed) j s in
        let s := cleanup j s in
        let s := update_job (map_promise (promise_resolve output)) j s in
        emit_job_processed (j_id job) (j_data job) (StatusOutput output) s
  end.

(** A call that returns, or throws, in the state it leaves. *)
Inductive Completion :=
| Returns (s : State)
| Throws (s : State).

(** The [reject] member of the queue item.  The conversion of [err] comes
    after the test of [status] and before the first assignment, so a
    conversion that throws leaves the job as it was. *)
Definition reject (j : JobRef) (err : Thrown) (s : State) : Completion :=
  match jobs s !! j with
  | None => Returns s
  | Some job =>
      if decide (j_status job ≠ pending)
      then Returns (log (LogRejectedLate (j_id job)) s)
      else
        match to_Error err with
        | None => Throws s
        | Some error =>
            let s := log (LogFailed (j_id job)) s in
            let s := update_job (set_status processed) j s in
            let s := cleanup j s in
            let s := update_job (map_promise (promise_reject error)) j s in
            Returns (emit_job_processed (j_id job) (j_data job) (StatusError error) s)
        end
  end.

(** ** The methods of the class *)

Variable concurrency : Z.

(** Dispatch of an ['abort'] event of a signal to the job listeners that
    were registered when it started and are still registered at their turn. *)
Definition dispatch_abort (listeners : State → list JobRef) (s : State) : State :=
  foldl (λ s j, if decide (j ∈ listeners s) then jobAbort_abort j s else s)
        s (listeners s).

(** [abort()] *)
Definition abort (s : State) : State :=
  let s := log (LogShutdown (length (queue s))) s in
  let s := if ac_aborted (queueAbort s) then s
           else dispatch_abort (λ s, ac_listeners (queueAbort s))
                               (set_queueAbort (set_aborted (queueAbort s)) s) in
  set_queueAbort new_AbortController s.

(** [abortJob(id)] *)
Definition abortJob (id : string) (s : State) : State :=
  let s := set_emitted (emitted s ++ [abort_job id]) s in
  foldl (λ s j, handleAbortEvent j id s) s (abortJobListeners s).

(** [get length()] *)
Definition get_length (s : State) : nat := length (queue s).

(** [get processing()] *)
Definition get_processing (s : State) : Z := processingJobs s.

(** [executeJob(job)] up to the call of the executor; the reactions to the
    executor's promise are the actions [ExecutorSettles] and [ExecuteJobThen]. *)
Definition executeJob (j : JobRef) (s : State) : State :=
  match jobs s !! j with
  | None => s
  | Some job =>
      let s := log (LogStarted (j_id job)) s in
      let s := set_jobStatus (<[j_id job := true]> (jobStatus s)) s in
      let s := set_executed (executed s ++ [j]) s in
      update_job (set_exec Executing) j s
  end.

(** The loop of [run()]; [q] is [this.queue], shortened by each [shift()]. *)
Fixpoint run_loop (q : list JobRef) (s : State) : State :=
  if decide (processingJobs s < concurrency) then
    match q with
    | [] => s
    | j :: q =>
        let s := set_queue q s in
        if item_aborted j s then run_loop q s
        else run_loop q (executeJob j (set_processingJobs (processingJobs s + 1) s))
    end
  else s.

(** [run()] *)
Definition run (s : State) : State := run_loop (queue s) s.

(** The closure variables of a new job. *)
Definition new_job (id : string) (data : I) (signal : option SignalRef) : Job :=
  {| j_id := id; j_data := data; j_signal := signal; j_status := pending;
     j_timeout := None; j_jobAbort := false; j_promise := Unsettled;
     j_exec := NotStarted |}.

(** [process(data, queueTimeout = 0, signal?)]; [id] is the value [nextId]
    produced.  The returned promise is [j_promise] of the job created, whose
    reference is [length (jobs s)]. *)
Definition process (id : string) (data : I) (queueTimeout : option number)
    (signal : option SignalRef) (s : State) : State :=
  let queueTimeout := default 0%Q queueTimeout in
  let j := length (jobs s) in
  let s := set_jobs (jobs s ++ [new_job id data signal]) s in
  let s := set_abortJobListeners (abortJobListeners s ++ [j]) s in
  let s := set_queueAbort (addEventListener j (queueAbort s)) s in
  let s := match signal with
           | Some sg => set_signals (<[sg := addEventListener j (signal_of sg s)]>
                                       (signals s)) s
           | None => s
           end in
  let s := if positive_number queueTimeout
           then update_job (set_timeout (Some (queueTimeout * 1000)%Q)) j s
           else s in
  let s := set_queue (queue s ++ [j]) s in
  let s := set_jobStatus (<[id := false]> (jobStatus s)) s in
  let s := log (LogAdded id) s in
  let s := emit_job_added id data s in
  run s.

(** [typeof this.jobStatus[jobId] === 'undefined'].  [jobStatus] is a plain
    object ([{}]): a name that is not a key of its own is looked up in
    [Object.prototype], whose properties are functions and, for [__proto__],
    an object. *)
Definition jobStatus_undefined (jobId : string) (s : State) : bool :=
  bool_decide (jobStatus s !! jobId = None ∧ jobId ∉ Object_prototype).

(** [waitForJob(jobId, timeoutMs = 3600_000)].  The second component is
    [None] when the function returned at once (its promise is fulfilled), and
    the waiter whose [w_promise] is returned otherwise. *)
Definition waitForJob (jobId : string) (timeoutMs : option number) (s : State)
    : State * option WaiterRef :=
  let timeoutMs := default 3600000%Q timeoutMs in
  if jobStatus_undefined jobId s then (s, None)
  else
      let w := length (waiters s) in
      let s := set_waiters (waiters s ++ [{| w_jobId := jobId; w_timeout := None;
                                             w_promise := Unsettled |}]) s in
      let s := set_waitListeners (jobProcessedListeners s ++ [w])
                                 (jobCancelledListeners s) s in
      let s := set_waitListeners (jobProcessedListeners s)
                                 (jobCancelledListeners s ++ [w]) s in
      let s := if positive_number timeoutMs
               then update_waiter (arm_waiter_timeout timeoutMs) w s
               else s in
      (s, Some w).

(** The timer callback of [waitForJob] *)
Definition waiter_timeout (w : WaiterRef) (s : State) : State :=
  let s := waiter_cleanup w s in
  update_waiter (map_waiter_promise
                   (promise_reject (new_Error "Timeout waiting for job"))) w s.

(** ** The transition system *)

(** What the executor's promise settles with. *)
Inductive ExecutorResult :=
| ExecutorFulfilled (output : O)
| ExecutorRejected (err : Thrown).

(** The callbacks the event loop can run next. *)
Inductive Action :=
| Process (id : string) (data : I) (queueTimeout : option number)
          (signal : option SignalRef)
| AbortJob (id : string)
| Abort
| SignalAbort (sg : SignalRef)          (* a caller-supplied signal aborts *)
| TimeoutFires (j : JobRef)             (* the timer of [process] *)
| ExecutorSettles (j : JobRef) (r : ExecutorResult)
| ExecuteJobThen (j : JobRef)           (* [then] of [executeJob(job)] in [run] *)
| WaitForJob (jobId : string) (timeoutMs : option number)
| WaitTimeoutFires (w : WaiterRef).     (* the timer of [waitForJob] *)

(** The caller's signal [sg] aborts: its flag is set and its ['abort'] event
    is dispatched. *)
Definition signal_fired (sg : SignalRef) (s : State) : State :=
  dispatch_abort (λ t, ac_listeners (signal_of sg t))
    (set_signals (<[sg := set_aborted (signal_of sg s)]> (signals s)) s).

(** The timer of [process] fires: it is no longer scheduled, and its
    callback is [onTimeoutOrAbort]. *)
Definition timeout_fired (j : JobRef) (s : State) : State :=
  onTimeoutOrAbort j (update_job (set_timeout None) j s).

(** The reactions [.then(job.resolve).catch(job.reject)].  What [job.reject]
    throws rejects the promise of [catch]; [finally] passes the rejection
    on, and nothing handles it. *)
Definition settle (j : JobRef) (r : ExecutorResult) (s : State) : State :=
  match r with
  | ExecutorFulfilled output => resolve j output s
  | ExecutorRejected err =>
      match reject j err s with
      | Returns s => s
      | Throws s => set_unhandled (unhandled s ++ [j]) s
      end
  end.

(** One callback.  [None]: the runtime cannot run this callback in this
    state (a timer that is not scheduled, a promise that is not in the
    state the reaction waits for, a signal that has fired already), or
    [nextId] cannot have made this id: its values start with a digit. *)
Definition step (s : State) (a : Action) : option State :=
  match a with
  | Process id data queueTimeout signal =>
      if decide (id ∈ Object_prototype) then None
      else Some (process id data queueTimeout signal s)
  | AbortJob id => Some (abortJob id s)
  | Abort => Some (abort s)
  | SignalAbort sg =>
      if ac_aborted (signal_of sg s) then None else Some (signal_fired sg s)
  | TimeoutFires j =>
      match jobs s !! j with
      | Some job =>
          match j_timeout job with
          | Some _ => Some (timeout_fired j s)
          | None => None
          end
      | None => None
      end
  | ExecutorSettles j r =>
      if decide (exec_of j s = Some Executing)
      then Some (update_job (set_exec ExecSettled) j (settle j r s))
      else None
  | ExecuteJobThen j =>
      if decide (exec_of j s = Some ExecSettled)
      then
        let s := update_job (set_exec Released) j s in
        let s := set_processingJobs (processingJobs s - 1) s in
        Some (run s)
      else None
  | WaitForJob jobId timeoutMs => Some (fst (waitForJob jobId timeoutMs s))
  | WaitTimeoutFires w =>
      match waiters s !! w with
      | Some wt =>
          match w_timeout wt with
          | Some _ => Some (waiter_timeout w s)
          | None => None
          end
      | None => None
      end
  end.

(** States the queue can be in after finitely many callbacks. *)
Inductive reachable : State → Prop :=
| reachable_init : reachable init
| reachable_step s a s' : reachable s → step s a = Some s' → reachable s'.

(** Running a list of callbacks in order. *)
Fixpoint steps (s : State) (l : list Action) : option State :=
  match l with
  | [] => Some s
  | a :: l => match step s a with Some s' => steps s' l | None => None end
  end.

(** * Vocabulary of the properties *)

(** Replacing what belongs to [waitForJob]. *)
Definition with_waits (W : list Waiter) (L1 L2 : list WaiterRef) (s : State) : State :=
  set_waitListeners L1 L2 (set_waiters W s).

(** What belongs to [waitForJob] in a state. *)
Definition waits (s : State) : list Waiter * list WaiterRef * list WaiterRef :=
  (waiters s, jobProcessedListeners s, jobCancelledListeners s).

(** State [X] with the waiters of [N]. *)
Definition copy_waits (N X : State) : State :=
  with_waits (waiters N) (jobProcessedListeners N) (jobCancelledListeners N) X.

(** The state after job [j], whose closure was [job], settled into [job'],
    emitting [ev] and logging [logs]; the waiters are not shown. *)
Definition finished (j : JobRef) (job job' : Job) (ev : Event) (logs : list LogMsg)
    (s : State) : State :=
  {| queue := queue s;
     processingJobs := processingJobs s;
     queueAbort := removeEventListener j (queueAbort s);
     jobStatus := delete (j_id job) (jobStatus s);
     jobs := <[j := job']> (jobs s);
     signals := match j_signal job with
                | Some sg => alter (removeEventListener j) sg (signals s)
                | None => signals s
                end;
     abortJobListeners := remove_listener j (abortJobListeners s);
     jobProcessedListeners := jobProcessedListeners s;
     jobCancelledListeners := jobCancelledListeners s;
     waiters := waiters s;
     emitted := emitted s ++ [ev];
     logged := logged s ++ logs;
     executed := executed s;
     unhandled := unhandled s |}.

(** The closure of a job after its first settlement: status [st], timer
    cleared, abort flag [a], outcome [p]. *)
Definition job_after (st : ConcurrentJobQueueStatus) (a : bool) (p : Promise O)
    (job : Job) : Job :=
  {| j_id := j_id job; j_data := j_data job; j_signal := j_signal job;
     j_status := st; j_timeout := None; j_jobAbort := a; j_promise := p;
     j_exec := j_exec job |}.

(** [jobAbort.signal.aborted ? 'abort' : 'timeout'] *)
Definition cancel_reason (job : Job) : Reason :=
  if j_jobAbort job then abort_reason else timeout_reason.

(** The state [onTimeoutOrAbort] leaves when it finds the job pending. *)
Definition cancelled (j : JobRef) (job : Job) (s : State) : State :=
  finished j job
    (job_after aborted true
       (promise_reject (new_Error (reason_message (cancel_reason job))) (j_promise job))
       job)
    (job_cancelled (j_id job) (j_data job) (cancel_reason job) (length (queue s)))
    (LogAbortedOrTimedOut (j_id job)
       :: if j_jobAbort job then [] else [LogAlreadyProcessed])
    s.

(** The state after [jobAbort.abort()] cancelled a pending job. *)
Definition aborted_state (j : JobRef) (job : Job) (s : State) : State :=
  finished j job
    (job_after aborted true
       (promise_reject (new_Error "abort") (j_promise job)) job)
    (job_cancelled (j_id job) (j_data job) abort_reason (length (queue s)))
    [LogAbortedOrTimedOut (j_id job)] s.

(** [job_le b b']: closure [b] may have become [b'] by settlements and
    cancellations.  A job that is still pending is untouched, a job that
    left [pending] keeps its status and its outcome, and only a job whose
    executor was called is ever [processed]. *)
Record job_le (b b' : Job) : Prop := {
  le_id : j_id b' = j_id b;
  le_data : j_data b' = j_data b;
  le_signal : j_signal b' = j_signal b;
  le_exec : j_exec b' = j_exec b;
  le_pending : j_status b' = pending → b' = b;
  le_final : j_status b ≠ pending →
             j_status b' = j_status b ∧ j_promise b' = j_promise b;
  le_processed : j_status b' = processed →
                 j_status b = processed ∨ j_exec b ≠ NotStarted;
  le_settled : j_status b = pending → j_status b' ≠ pending →
               j_promise b' ≠ Unsettled
}.

(** [state_le s s']: state [s] may have become [s'] by settlements and
    cancellations.  The scheduling fields are the same, events were only
    added, and a job that is still pending listens where it did. *)
Record state_le (s s' : State) : Prop := {
  le_queue : queue s' = queue s;
  le_processingJobs : processingJobs s' = processingJobs s;
  le_executed : executed s' = executed s;
  le_jobs : Forall2 job_le (jobs s) (jobs s');
  le_emitted : emitted s `prefix_of` emitted s';
  le_queueAbort : ac_aborted (queueAbort s') = ac_aborted (queueAbort s);
  le_abortJobListeners : ∀ j b', jobs s' !! j = Some b' → j_status b' = pending →
      j ∈ abortJobListeners s → j ∈ abortJobListeners s';
  le_queueListeners : ∀ j b', jobs s' !! j = Some b' → j_status b' = pending →
      j ∈ ac_listeners (queueAbort s) → j ∈ ac_listeners (queueAbort s');
  le_signalListeners : ∀ j b' sg, jobs s' !! j = Some b' → j_status b' = pending →
      j ∈ ac_listeners (signal_of sg s) → j ∈ ac_listeners (signal_of sg s')
}.

(** How many entries [run] has shifted off the queue so far. *)
Definition popped (s : State) : nat := (length (jobs s) - length (queue s))%nat.

(** A job holds a slot from the call of the executor to the [then]
    callback of [run]. *)
Definition holds_slot (e : ExecState) : nat :=
  match e with Executing | ExecSettled => 1 | NotStarted | Released => 0 end.

(** The number of jobs that hold a slot. *)
Definition slots_held (l : list Job) : nat :=
  sum_list_with (λ b, holds_slot (j_exec b)) l.

(** What holds in every reachable state. *)
Record Inv (s : State) : Prop := {
  inv_queueAbort : ac_aborted (queueAbort s) = false;
  (* a pending job is not aborted, not settled, and listens everywhere *)
  inv_pending : ∀ j b, jobs s !! j = Some b → j_status b = pending →
      j_jobAbort b = false ∧ j_promise b = Unsettled ∧
      j ∈ ac_listeners (queueAbort s) ∧ j ∈ abortJobListeners s ∧
      (∀ sg, j_signal b = Some sg → j ∈ ac_listeners (signal_of sg s));
  (* the backlog is the most recent jobs, oldest first *)
  inv_queue : queue s = seq (popped s) (length (queue s));
  inv_queue_length : (length (queue s) ≤ length (jobs s))%nat;
  (* the executor was called in submission order, on popped jobs only *)
  inv_executed_sorted : StronglySorted lt (executed s);
  inv_executed_popped : ∀ j, j ∈ executed s → (j < popped s)%nat;
  inv_exec : ∀ j b, jobs s !! j = Some b → j_exec b = NotStarted ↔ j ∉ executed s;
  (* a popped job the executor was not called for had been cancelled *)
  inv_skipped : ∀ j b, jobs s !! j = Some b → (j < popped s)%nat →
      j ∉ executed s → j_status b = aborted;
  inv_processed : ∀ j b, jobs s !! j = Some b → j_status b = processed →
      j_exec b ≠ NotStarted;
  (* a job that left [pending] has its outcome *)
  inv_settled : ∀ j b, jobs s !! j = Some b → j_status b ≠ pending →
      j_promise b ≠ Unsettled;
  inv_slots : processingJobs s = Z.of_nat (slots_held (jobs s))
}.

(** The job [process] creates, with its timer armed for a positive delay. *)
Definition submitted_job (id : string) (data : I) (queueTimeout : option number)
    (signal : option SignalRef) : Job :=
  set_timeout (if positive_number (default 0%Q queueTimeout)
               then Some (default 0%Q queueTimeout * 1000)%Q else None)
              (new_job id data signal).

(** The state [process] has built when it calls [run]. *)
Definition enqueued (id : string) (data : I) (queueTimeout : option number)
    (signal : option SignalRef) (s : State) : State :=
  let j := length (jobs s) in
  {| queue := queue s ++ [j];
     processingJobs := processingJobs s;
     queueAbort := addEventListener j (queueAbort s);
     jobStatus := <[id := false]> (jobStatus s);
     jobs := jobs s ++ [submitted_job id data queueTimeout signal];
     signals := match signal with
                | Some sg => <[sg := addEventListener j (signal_of sg s)]> (signals s)
                | None => signals s
                end;
     abortJobListeners := abortJobListeners s ++ [j];
     jobProcessedListeners := jobProcessedListeners s;
     jobCancelledListeners := jobCancelledListeners s;
     waiters := waiters s;
     emitted := emitted s ++ [job_added id data (S (length (queue s)))];
     logged := logged s ++ [LogAdded id];
     executed := executed s;
     unhandled := unhandled s |}.

(** Job [k], which was [b] in [s0], has been cancelled by an abort on the
    way to [s']. *)
Definition was_aborted (b : Job) (k : JobRef) (s0 s' : State) : Prop :=
  status_of k s' = Some aborted ∧
  promise_of k s' = Some (Rejected (new_Error "abort")) ∧
  ∃ e1 e2, emitted s' = emitted s0 ++ e1 ++
    job_cancelled (j_id b) (j_data b) abort_reason (length (queue s0)) :: e2.

(** The callbacks that only settle or cancel. *)
Definition settles_only (a : Action) : Prop :=
  match a with
  | Process _ _ _ _ | ExecutorSettles _ _ | ExecuteJobThen _ => False
  | _ => True
  end.

(** [run] only marks jobs as handed to the executor. *)
Definition exec_started (b b' : Job) : Prop := b' = b ∨ b' = set_exec Executing b.

(** The state after the callbacks [l], run on a fresh queue. *)
Definition after (l : list Action) : State := default init (steps init l).

(** Everything [cleanup] releases for job [j], whose closure was [b]. *)
Definition released (j : JobRef) (b : Job) (s' : State) : Prop :=
  (j ∉ abortJobListeners s') ∧
  (j ∉ ac_listeners (queueAbort s')) ∧
  (∀ sg, j_signal b = Some sg → j ∉ ac_listeners (signal_of sg s')) ∧
  (j_timeout <$> jobs s' !! j) = Some None ∧
  (jobStatus s' !! j_id b) = None.

(** Job [j] went from pending to [st] with outcome [p], and [ev] was the
    one event emitted; the scheduling fields did not move. *)
Definition first_settlement (j : JobRef) (b : Job) (st : ConcurrentJobQueueStatus)
    (p : Promise O) (ev : Event) (s s' : State) : Prop :=
  status_of j s' = Some st ∧
  promise_of j s' = Some p ∧
  emitted s' = emitted s ++ [ev] ∧
  released j b s' ∧
  queue s' = queue s ∧ processingJobs s' = processingJobs s ∧ executed s' = executed s.

(** The callbacks that cancel: by id, by shutdown, by a caller's signal, by
    the deadline. *)
Definition cancels (a : Action) : Prop :=
  match a with
  | AbortJob _ | Abort | SignalAbort _ | TimeoutFires _ => True
  | _ => False
  end.

(** Callback [a] is a cancellation that reaches job [j], whose closure is [b]. *)
Definition cancels_job (a : Action) (j : JobRef) (b : Job) : Prop :=
  match a with
  | AbortJob id => id = j_id b
  | Abort => True
  | SignalAbort sg => j_signal b = Some sg
  | TimeoutFires k => k = j
  | _ => False
  end.

(** The message of the error the outcome is rejected with. *)
Definition cancel_message (a : Action) : string :=
  match a with TimeoutFires _ => "timeout" | _ => "abort" end.

(** Job [j] was cancelled and the executor was not called for it. *)
Definition skipped (j : JobRef) (s : State) : Prop :=
  status_of j s = Some aborted ∧ j ∉ executed s.

(** Waiter [w], whose closure is [wt], is still waiting in [t]. *)
Definition waiting (w : WaiterRef) (wt : Waiter) (t : State) : Prop :=
  waiters t !! w = Some wt ∧ w_promise wt = Unsettled ∧
  w ∈ jobProcessedListeners t ∧ w ∈ jobCancelledListeners t.

(** The wait of [w] is over with outcome [p]: its listeners are off and its
    timer is cleared. *)
Definition wait_over (w : WaiterRef) (wt : Waiter) (p : Promise unit) (t : State)
    : Prop :=
  waiters t !! w = Some {| w_jobId := w_jobId wt; w_timeout := None; w_promise := p |} ∧
  (w ∉ jobProcessedListeners t) ∧ (w ∉ jobCancelledListeners t).

(** Waiter [w] has no timer and has not been rejected. *)
Definition quiet (w : WaiterRef) (s : State) : Prop :=
  ∃ wt, waiters s !! w = Some wt ∧ w_timeout wt = None ∧ ∀ e, w_promise wt ≠ Rejected e.

(** ** The bookkeeping, one update at a time *)

(** How a pending job [job] leaves [pending] while the backlog has [n]
    entries: its new status, the flag of its signal, its outcome and the
    event that tells the observers. *)
Inductive settlement (job : Job) (n : nat)
  : ConcurrentJobQueueStatus → bool → Promise O → Event → Prop :=
| settled_output output :
    settlement job n processed (j_jobAbort job)
      (promise_resolve output (j_promise job))
      (job_processed (j_id job) (j_data job) (StatusOutput output) n)
| settled_error error :
    settlement job n processed (j_jobAbort job)
      (promise_reject error (j_promise job))
      (job_processed (j_id job) (j_data job) (StatusError error) n)
| settled_cancelled r :
    settlement job n aborted true
      (promise_reject (new_Error (reason_message r)) (j_promise job))
      (job_cancelled (j_id job) (j_data job) r n).

(** The updates the callbacks are made of. *)
Inductive update : State → State → Prop :=
| update_log m s : update s (log m s)
| update_waits W L1 L2 s : update s (with_waits W L1 L2 s)
| update_abort_job id s : update s (set_emitted (emitted s ++ [abort_job id]) s)
| update_settled j job st a p ev logs s :
    jobs s !! j = Some job → j_status job = pending →
    settlement job (length (queue s)) st a p ev →
    update s (finished j job (job_after st a p job) ev logs s)
| update_jobAbort j job s :
    jobs s !! j = Some job → j_status job ≠ pending →
    update s (update_job (set_jobAbort true) j s)
| update_timer j s : update s (update_job (set_timeout None) j s)
| update_queueAbort c s :
    ac_listeners c `sublist_of` ac_listeners (queueAbort s) →
    update s (set_queueAbort c s)
| update_signal sg s :
    update s (set_signals (<[sg := set_aborted (signal_of sg s)]> (signals s)) s)
| update_enqueued id data queueTimeout signal s :
    id ∉ Object_prototype →
    update s (enqueued id data queueTimeout signal s)
| update_skip j q s :
    queue s = j :: q → item_aborted j s = true → update s (set_queue q s)
| update_execute j q job s :
    queue s = j :: q → jobs s !! j = Some job →
    j_status job = pending → j_exec job = NotStarted →
    update s (executeJob j (set_processingJobs (processingJobs s + 1) (set_queue q s)))
| update_exec j job e s :
    jobs s !! j = Some job → j_exec job ≠ NotStarted → e ≠ NotStarted →
    update s (update_job (set_exec e) j s)
| update_processingJobs n s : update s (set_processingJobs n s)
| update_unhandled l s : update s (set_unhandled l s).

(** [touched b b']: closure [b'] is [b] up to its timer, which may have been
    cleared, the flag of its signal, which may have been set once the job
    had left [pending], and the progress of its executor. *)
Record touched (b b' : Job) : Prop := {
  touched_id : j_id b' = j_id b;
  touched_data : j_data b' = j_data b;
  touched_status : j_status b' = j_status b;
  touched_signal : j_signal b' = j_signal b;
  touched_promise : j_promise b' = j_promise b;
  touched_timeout : is_Some (j_timeout b') → is_Some (j_timeout b);
  touched_jobAbort : j_jobAbort b' = j_jobAbort b ∨
                     (j_status b ≠ pending ∧ j_jobAbort b' = true)
}.

(** Whether the executor was called for the job. *)
Definition started (b : Job) : bool := bool_decide (j_exec b ≠ NotStarted).

(** [minor s s']: an update that lets no job leave [pending] and adds none. *)
Record minor (s s' : State) : Prop := {
  minor_jobs : Forall2 touched (jobs s) (jobs s');
  minor_abortJob : abortJobListeners s' = abortJobListeners s;
  minor_queueAbort :
    ac_listeners (queueAbort s') `sublist_of` ac_listeners (queueAbort s);
  minor_signal : ∀ sg, ac_listeners (signal_of sg s') = ac_listeners (signal_of sg s);
  minor_emitted : emitted s' = emitted s ∨ ∃ id, emitted s' = emitted s ++ [abort_job id];
  minor_index :
    (jobStatus s' = jobStatus s ∧
     ∀ k b b', jobs s !! k = Some b → jobs s' !! k = Some b' → started b' = started b) ∨
    (∃ j job, jobs s !! j = Some job ∧ j_status job = pending ∧
       jobStatus s' = <[j_id job := true]> (jobStatus s) ∧
       jobs s' = <[j := set_exec Executing job]> (jobs s))
}.

(** No listener and no timer is left behind: whatever is registered belongs
    to a pending job, once. *)
Record Tidy (s : State) : Prop := {
  tidy_abortJob : ∀ j, j ∈ abortJobListeners s → status_of j s = Some pending;
  tidy_queueAbort : ∀ j, j ∈ ac_listeners (queueAbort s) → status_of j s = Some pending;
  tidy_signal : ∀ sg j, j ∈ ac_listeners (signal_of sg s) →
      ∃ b, jobs s !! j = Some b ∧ j_status b = pending ∧ j_signal b = Some sg;
  tidy_timer : ∀ j b, jobs s !! j = Some b → is_Some (j_timeout b) →
      j_status b = pending;
  tidy_abortJob_once : NoDup (abortJobListeners s);
  tidy_queueAbort_once : NoDup (ac_listeners (queueAbort s));
  tidy_signal_once : ∀ sg, NoDup (ac_listeners (signal_of sg s))
}.

(** Counting the events and the jobs of one id. *)
Definition added_for (id : string) (e : Event) : nat :=
  match e with
  | job_added i _ _ => if decide (i = id) then 1 else 0
  | _ => 0
  end.

Definition terminal_for (id : string) (e : Event) : nat :=
  match e with
  | job_processed i _ _ _ | job_cancelled i _ _ _ => if decide (i = id) then 1 else 0
  | _ => 0
  end.

Definition submitted_as (id : string) (b : Job) : nat :=
  if decide (j_id b = id) then 1 else 0.

Definition left_pending_as (id : string) (b : Job) : nat :=
  if decide (j_id b = id ∧ j_status b ≠ pending) then 1 else 0.

(** The jobs that the ['job-added'] events of a trace announce. *)
Definition added_jobs (l : list Event) : list (string * I) :=
  omap (λ e, match e with job_added id data _ => Some (id, data) | _ => None end) l.

(** The observers hear of a job before they hear of its end: at no point of
    the trace are there more terminal events than ['job-added'] events of
    an id. *)
Definition Ordered (s : State) : Prop :=
  added_jobs (emitted s) = (λ b, (j_id b, j_data b)) <$> jobs s ∧
  ∀ e id, e `prefix_of` emitted s →
    (sum_list_with (terminal_for id) e ≤ sum_list_with (added_for id) e)%nat.

(** The events account for the jobs, id by id. *)
Definition Counted (s : State) : Prop :=
  ∀ id,
    sum_list_with (added_for id) (emitted s) = sum_list_with (submitted_as id) (jobs s) ∧
    sum_list_with (terminal_for id) (emitted s)
      = sum_list_with (left_pending_as id) (jobs s).

(** [jobStatus] against the jobs: an entry stands for a pending job, and
    when no two jobs share an id, every pending job has its entry, [true]
    from the call of the executor on. *)
Record Tracked (s : State) : Prop := {
  tracked_pending : ∀ id v, jobStatus s !! id = Some v →
      ∃ j b, jobs s !! j = Some b ∧ j_id b = id ∧ j_status b = pending;
  tracked_index : NoDup (j_id <$> jobs s) →
      ∀ j b, jobs s !! j = Some b → j_status b = pending →
        jobStatus s !! j_id b = Some (bool_decide (j_exec b ≠ NotStarted))
}.

(** The outcome of a job against its status. *)
Record Outcome (b : Job) : Prop := {
  outcome_pending : j_status b = pending →
      j_promise b = Unsettled ∧ j_jobAbort b = false;
  outcome_aborted : j_status b = aborted →
      j_jobAbort b = true ∧ ∃ r, j_promise b = Rejected (new_Error (reason_message r));
  outcome_processed : j_status b = processed →
      (∃ output, j_promise b = Fulfilled output) ∨ (∃ e, j_promise b = Rejected e)
}.

(** [waitForJob] leaves nothing behind: the listeners of the two terminal
    events are the waiters that are still unsettled, each once, and only an
    unsettled waiter has a timer. *)
Record WTidy (s : State) : Prop := {
  wtidy_processed : ∀ w, w ∈ jobProcessedListeners s ↔
      ∃ wt, waiters s !! w = Some wt ∧ w_promise wt = Unsettled;
  wtidy_cancelled : ∀ w, w ∈ jobCancelledListeners s ↔
      ∃ wt, waiters s !! w = Some wt ∧ w_promise wt = Unsettled;
  wtidy_timer : ∀ w wt, waiters s !! w = Some wt → is_Some (w_timeout wt) →
      w_promise wt = Unsettled;
  wtidy_processed_once : NoDup (jobProcessedListeners s);
  wtidy_cancelled_once : NoDup (jobCancelledListeners s)
}.

(** Reduction of the field reads of a state built by field updates. *)
Ltac fields :=
  cbn [queue processingJobs queueAbort jobStatus jobs signals abortJobListeners
       jobProcessedListeners jobCancelledListeners waiters emitted logged executed
       unhandled set_unhandled
       set_queue set_processingJobs set_queueAbort set_jobStatus set_jobs
       set_signals set_abortJobListeners set_waitListeners set_waiters set_emitted
       set_logged set_executed update_job update_waiter log
       j_id j_data j_signal j_status j_timeout j_jobAbort j_promise j_exec
       set_status set_timeout set_jobAbort map_promise set_exec
       ac_aborted ac_listeners removeEventListener addEventListener set_aborted].

(** * Properties *)

(** ** Comparing states field by field *)

Lemma state_eq (s s' : State) :
  queue s = queue s' → processingJobs s = processingJobs s' →
  queueAbort s = queueAbort s' → jobStatus s = jobStatus s' → jobs s = jobs s' →
  signals s = signals s' → abortJobListeners s = abortJobListeners s' →
  jobProcessedListeners s = jobProcessedListeners s' →
  jobCancelledListeners s = jobCancelledListeners s' → waiters s = waiters s' →
  emitted s = emitted s' → logged s = logged s' → executed s = executed s' →
  unhandled s = unhandled s' →
  s = s'.
Proof. destruct s, s'; simpl; intros; by subst. Qed.

(** ** The waiters are a separate part of the state *)

Lemma with_waits_id s :
  with_waits (waiters s) (jobProcessedListeners s) (jobCancelledListeners s) s = s.
Proof. by destruct s. Qed.

Lemma waiter_listener_copy w id s X :
  waits X = waits s → waiter_listener w id X = copy_waits (waiter_listener w id s) X.
Proof.
  intros [= E1 E2 E3]. unfold waiter_listener. rewrite E1.
  destruct (waiters s !! w) as [wt|]; [case_decide|];
    unfold copy_waits, with_waits, waiter_cleanup; apply state_eq; fields;
    by rewrite ?E1, ?E2, ?E3.
Qed.

Lemma notify_copy id l s X :
  waits X = waits s → notify id l X = copy_waits (notify id l s) X.
Proof.
  unfold notify. revert s X. induction l as [|w l IH]; intros s X HX; cbn [foldl].
  - injection HX as E1 E2 E3. unfold copy_waits, with_waits.
    apply state_eq; fields; by rewrite ?E1, ?E2, ?E3.
  - rewrite (waiter_listener_copy w id s X HX).
    by rewrite (IH (waiter_listener w id s) (copy_waits (waiter_listener w id s) X)).
Qed.

Lemma emit_job_cancelled_eq id data r s :
  emit_job_cancelled id data r s =
    copy_waits (notify id (jobCancelledListeners s) s)
      (set_emitted (emitted s ++ [job_cancelled id data r (length (queue s))]) s).
Proof.
  apply (notify_copy id (jobCancelledListeners s) s
    (set_emitted (emitted s ++ [job_cancelled id data r (length (queue s))]) s)).
  done.
Qed.

Lemma emit_job_processed_eq id data st s :
  emit_job_processed id data st s =
    copy_waits (notify id (jobProcessedListeners s) s)
      (set_emitted (emitted s ++ [job_processed id data st (length (queue s))]) s).
Proof.
  apply (notify_copy id (jobProcessedListeners s) s
    (set_emitted (emitted s ++ [job_processed id data st (length (queue s))]) s)).
  done.
Qed.

(** ** What the first settlement of a job does, in closed form *)

Lemma list_alter_insert {A} (f : A → A) (l : list A) i x :
  l !! i = Some x → alter f i l = <[i := f x]> l.
Proof.
  revert i. induction l as [|y l IH]; intros [|i] Hi; simplify_eq/=; [done|].
  f_equal. by apply IH.
Qed.

Lemma list_alter_insert_same {A} (f : A → A) (l : list A) i x :
  (i < length l)%nat → alter f i (<[i := x]> l) = <[i := f x]> l.
Proof.
  intros Hi. rewrite (list_alter_insert f _ i x) by (by apply list_lookup_insert_eq).
  apply list_insert_insert_eq.
Qed.

Lemma list_insert_alter_same {A} (f : A → A) (l : list A) i x :
  <[i := x]> (alter f i l) = <[i := x]> l.
Proof.
  revert i. induction l as [|y l IH]; intros [|i]; simpl; try done.
  f_equal. apply IH.
Qed.

(** [cleanup] on an existing job, as one update. *)
Lemma cleanup_eq j job s :
  jobs s !! j = Some job →
  cleanup j s =
  {| queue := queue s;
     processingJobs := processingJobs s;
     queueAbort := removeEventListener j (queueAbort s);
     jobStatus := delete (j_id job) (jobStatus s);
     jobs := <[j := set_timeout None job]> (jobs s);
     signals := match j_signal job with
                | Some sg => alter (removeEventListener j) sg (signals s)
                | None => signals s
                end;
     abortJobListeners := remove_listener j (abortJobListeners s);
     jobProcessedListeners := jobProcessedListeners s;
     jobCancelledListeners := jobCancelledListeners s;
     waiters := waiters s;
     emitted := emitted s;
     logged := logged s;
     executed := executed s;
     unhandled := unhandled s |}.
Proof.
  intros Hj. unfold cleanup. rewrite Hj.
  destruct (j_signal job); apply state_eq; fields; try done;
    by rewrite (list_alter_insert _ _ _ _ Hj).
Qed.

Lemma resolve_pending_eq j output s job :
  jobs s !! j = Some job → j_status job = pending →
  resolve j output s =
    copy_waits (notify (j_id job) (jobProcessedListeners s) s)
      (finished j job
         (job_after processed (j_jobAbort job) (promise_resolve output (j_promise job)) job)
         (job_processed (j_id job) (j_data job) (StatusOutput output) (length (queue s)))
         [LogCompleted (j_id job)] s).
Proof.
  intros Hj Hst. unfold resolve. rewrite Hj. rewrite decide_False by (by rewrite Hst; intros []).
  cbn zeta. rewrite emit_job_processed_eq.
  rewrite (cleanup_eq j (set_status processed job))
    by (fields; by rewrite list_lookup_alter_eq, Hj).
  match goal with |- copy_waits (notify ?id ?l ?t) _ = _ =>
    rewrite (notify_copy id l s t) by done end.
  unfold copy_waits, with_waits, finished. apply state_eq; fields; try done.
  rewrite list_insert_alter_same.
  by rewrite list_alter_insert_same by (by eapply lookup_lt_Some).
Qed.

Lemma resolve_pending j output s job :
  jobs s !! j = Some job → j_status job = pending →
  ∃ W L1 L2, resolve j output s =
    with_waits W L1 L2
      (finished j job
         (job_after processed (j_jobAbort job) (promise_resolve output (j_promise job)) job)
         (job_processed (j_id job) (j_data job) (StatusOutput output) (length (queue s)))
         [LogCompleted (j_id job)] s).
Proof. intros Hj Hst. eexists _, _, _. by apply resolve_pending_eq. Qed.

Lemma reject_pending_eq j err error s job :
  jobs s !! j = Some job → j_status job = pending → to_Error err = Some error →
  reject j err s =
    Returns (copy_waits (notify (j_id job) (jobProcessedListeners s) s)
      (finished j job
         (job_after processed (j_jobAbort job)
            (promise_reject error (j_promise job)) job)
         (job_processed (j_id job) (j_data job) (StatusError error)
            (length (queue s)))
         [LogFailed (j_id job)] s)).
Proof.
  intros Hj Hst He. unfold reject. rewrite Hj, He.
  rewrite decide_False by (by rewrite Hst; intros []).
  cbn zeta. f_equal. rewrite emit_job_processed_eq.
  rewrite (cleanup_eq j (set_status processed job))
    by (fields; by rewrite list_lookup_alter_eq, Hj).
  match goal with |- copy_waits (notify ?id ?l ?t) _ = _ =>
    rewrite (notify_copy id l s t) by done end.
  unfold copy_waits, with_waits, finished. apply state_eq; fields; try done.
  rewrite list_insert_alter_same.
  by rewrite list_alter_insert_same by (by eapply lookup_lt_Some).
Qed.

Lemma reject_pending j err error s job :
  jobs s !! j = Some job → j_status job = pending → to_Error err = Some error →
  ∃ W L1 L2, reject j err s =
    Returns (with_waits W L1 L2
      (finished j job
         (job_after processed (j_jobAbort job)
            (promise_reject error (j_promise job)) job)
         (job_processed (j_id job) (j_data job) (StatusError error)
            (length (queue s)))
         [LogFailed (j_id job)] s)).
Proof. intros Hj Hst He. eexists _, _, _. by apply reject_pending_eq. Qed.

(** A value that cannot be converted makes [reject] throw before it has
    changed anything. *)
Lemma reject_throws j err s job :
  jobs s !! j = Some job → j_status job = pending → to_Error err = None →
  reject j err s = Throws s.
Proof.
  intros Hj Hst He. unfold reject. rewrite Hj, He.
  by rewrite decide_False by (by rewrite Hst; intros []).
Qed.

Lemma resolve_late j output s job :
  jobs s !! j = Some job → j_status job ≠ pending →
  resolve j output s = log (LogResolvedLate (j_id job)) s.
Proof. intros Hj Hst. unfold resolve. rewrite Hj. by rewrite decide_True. Qed.

Lemma reject_late j err s job :
  jobs s !! j = Some job → j_status job ≠ pending →
  reject j err s = Returns (log (LogRejectedLate (j_id job)) s).
Proof. intros Hj Hst. unfold reject. rewrite Hj. by rewrite decide_True. Qed.

(** The reaction to a rejected executor promise, case by case. *)
Lemma settle_rejected_pending j err error s job :
  jobs s !! j = Some job → j_status job = pending → to_Error err = Some error →
  settle j (ExecutorRejected err) s =
    copy_waits (notify (j_id job) (jobProcessedListeners s) s)
      (finished j job
         (job_after processed (j_jobAbort job)
            (promise_reject error (j_promise job)) job)
         (job_processed (j_id job) (j_data job) (StatusError error)
            (length (queue s)))
         [LogFailed (j_id job)] s).
Proof.
  intros Hj Hst He. cbn [settle]. by rewrite (reject_pending_eq _ _ _ _ _ Hj Hst He).
Qed.

Lemma settle_rejected_throws j err s job :
  jobs s !! j = Some job → j_status job = pending → to_Error err = None →
  settle j (ExecutorRejected err) s = set_unhandled (unhandled s ++ [j]) s.
Proof. intros Hj Hst He. cbn [settle]. by rewrite (reject_throws _ _ _ _ Hj Hst He). Qed.

Lemma settle_rejected_late j err s job :
  jobs s !! j = Some job → j_status job ≠ pending →
  settle j (ExecutorRejected err) s = log (LogRejectedLate (j_id job)) s.
Proof. intros Hj Hst. cbn [settle]. by rewrite (reject_late _ _ _ _ Hj Hst). Qed.

Lemma settle_dangling j r s : jobs s !! j = None → settle j r s = s.
Proof. intros Hj. destruct r; cbn [settle]; unfold resolve, reject; by rewrite Hj. Qed.

Lemma onTimeoutOrAbort_fuel_late n j s job :
  jobs s !! j = Some job → j_status job ≠ pending →
  onTimeoutOrAbort_fuel (S n) j s = Some (log LogAlreadyProcessed s).
Proof. intros Hj Hst. simpl. rewrite Hj. by rewrite decide_True. Qed.

(** One level of [onTimeoutOrAbort] on a pending job, up to its last line. *)
Lemma onTimeoutOrAbort_fuel_unfold j s job n :
  jobs s !! j = Some job → j_status job = pending →
  onTimeoutOrAbort_fuel (S n) j s =
    let s5 := copy_waits (notify (j_id job) (jobCancelledListeners s) s)
      (finished j job
         (job_after aborted (j_jobAbort job)
            (promise_reject (new_Error (reason_message (cancel_reason job)))
               (j_promise job)) job)
         (job_cancelled (j_id job) (j_data job) (cancel_reason job) (length (queue s)))
         [LogAbortedOrTimedOut (j_id job)] s) in
    if negb (j_jobAbort job)
    then AbortController_abort (onTimeoutOrAbort_fuel n) j s5
    else Some s5.
Proof.
  intros Hj Hst.
  set (s1 := update_job (set_status aborted) j (log (LogAbortedOrTimedOut (j_id job)) s)).
  assert (jobs s1 !! j = Some (set_status aborted job)) as Hj1.
  { subst s1. fields. by rewrite list_lookup_alter_eq, Hj. }
  pose proof (cleanup_eq j _ s1 Hj1) as Hclean.
  assert (jobAbort_aborted j (cleanup j s1) = j_jobAbort job) as Hab.
  { rewrite Hclean. unfold jobAbort_aborted. fields.
    rewrite list_lookup_insert_eq; [done|].
    subst s1. fields. rewrite length_alter. by eapply lookup_lt_Some. }
  cbn [onTimeoutOrAbort_fuel]. rewrite Hj.
  rewrite decide_False by (by rewrite Hst; intros []).
  cbn zeta. fold s1. rewrite Hab. fold (cancel_reason job).
  rewrite emit_job_cancelled_eq.
  assert (∀ N t, jobAbort_aborted j (copy_waits N t) = jobAbort_aborted j t) as ->
    by done.
  assert (∀ e t, jobAbort_aborted j (set_emitted e t) = jobAbort_aborted j t) as ->
    by done.
  assert (∀ f t, jobAbort_aborted j (update_job (map_promise f) j t)
                 = jobAbort_aborted j t) as ->.
  { intros f t. unfold jobAbort_aborted. fields.
    rewrite list_lookup_alter_eq. by destruct (jobs t !! j). }
  rewrite Hab.
  assert (∀ X Y : State, X = Y →
    (if negb (j_jobAbort job)
     then AbortController_abort (onTimeoutOrAbort_fuel n) j X else Some X) =
    (if negb (j_jobAbort job)
     then AbortController_abort (onTimeoutOrAbort_fuel n) j Y else Some Y)) as Hc
    by (by intros ?? ->).
  apply Hc. rewrite Hclean. subst s1.
  match goal with |- copy_waits (notify ?id ?l ?t) _ = _ =>
    rewrite (notify_copy id l s t) by done end.
  unfold copy_waits, with_waits, finished. apply state_eq; fields; try done.
  rewrite list_insert_alter_same.
  by rewrite list_alter_insert_same by (by eapply lookup_lt_Some).
Qed.

Lemma onTimeoutOrAbort_fuel_pending_eq j s job n :
  jobs s !! j = Some job → j_status job = pending →
  onTimeoutOrAbort_fuel (S (S n)) j s =
    Some (copy_waits (notify (j_id job) (jobCancelledListeners s) s)
            (cancelled j job s)).
Proof.
  intros Hj Hst.
  rewrite (onTimeoutOrAbort_fuel_unfold j s job (S n) Hj Hst). cbn zeta.
  assert (j < length (jobs s))%nat as Hlt by (by eapply lookup_lt_Some).
  unfold cancelled. destruct (j_jobAbort job) eqn:Hab; cbn [negb]; [done|].
  unfold AbortController_abort, jobAbort_aborted.
  unfold copy_waits at 1 3, with_waits, finished at 1.
  fields. rewrite list_lookup_insert_eq by done. cbn [from_option j_jobAbort job_after].
  rewrite (onTimeoutOrAbort_fuel_late _ _ _
    (set_jobAbort true (job_after aborted false
       (promise_reject (new_Error (reason_message (cancel_reason job)))
          (j_promise job)) job))); [| |done].
  - f_equal. unfold copy_waits, with_waits, finished. apply state_eq; fields; try done.
    + by rewrite list_alter_insert_same.
    + by rewrite <- (assoc_L (++)).
  - unfold finished. fields.
    by rewrite list_lookup_alter_eq, list_lookup_insert_eq by done.
Qed.

Lemma onTimeoutOrAbort_fuel_pending j s job :
  jobs s !! j = Some job → j_status job = pending →
  ∃ W L1 L2, ∀ n,
    onTimeoutOrAbort_fuel (S (S n)) j s = Some (with_waits W L1 L2 (cancelled j job s)).
Proof.
  intros Hj Hst. eexists _, _, _. intros n.
  by apply onTimeoutOrAbort_fuel_pending_eq.
Qed.

Lemma onTimeoutOrAbort_pending_eq j s job :
  jobs s !! j = Some job → j_status job = pending →
  onTimeoutOrAbort j s =
    copy_waits (notify (j_id job) (jobCancelledListeners s) s) (cancelled j job s).
Proof.
  intros Hj Hst. unfold onTimeoutOrAbort.
  by rewrite (onTimeoutOrAbort_fuel_pending_eq j s job 0 Hj Hst).
Qed.

Lemma onTimeoutOrAbort_pending j s job :
  jobs s !! j = Some job → j_status job = pending →
  ∃ W L1 L2, onTimeoutOrAbort j s = with_waits W L1 L2 (cancelled j job s).
Proof. intros Hj Hst. eexists _, _, _. by apply onTimeoutOrAbort_pending_eq. Qed.

Lemma onTimeoutOrAbort_late j s job :
  jobs s !! j = Some job → j_status job ≠ pending →
  onTimeoutOrAbort j s = log LogAlreadyProcessed s.
Proof.
  intros Hj Hst. unfold onTimeoutOrAbort.
  by rewrite (onTimeoutOrAbort_fuel_late _ _ _ _ Hj Hst).
Qed.

Lemma onTimeoutOrAbort_dangling j s :
  jobs s !! j = None → onTimeoutOrAbort j s = s.
Proof.
  intros Hj. unfold onTimeoutOrAbort. cbn [onTimeoutOrAbort_fuel]. by rewrite Hj.
Qed.

(** The nesting of [onTimeoutOrAbort] is two deep at most: any larger
    [fuel] gives the same state, and never runs out. *)
Lemma onTimeoutOrAbort_fuel_enough n j s :
  (2 ≤ n)%nat → onTimeoutOrAbort_fuel n j s = Some (onTimeoutOrAbort j s).
Proof.
  intros Hn. destruct n as [|[|n]]; [lia..|].
  destruct (jobs s !! j) as [job|] eqn:Hj.
  - destruct (decide (j_status job = pending)) as [Hst|Hst].
    + destruct (onTimeoutOrAbort_fuel_pending j s job Hj Hst) as (W & L1 & L2 & Heq).
      unfold onTimeoutOrAbort. by rewrite (Heq n), (Heq 0%nat).
    + rewrite (onTimeoutOrAbort_fuel_late _ _ _ _ Hj Hst).
      by rewrite (onTimeoutOrAbort_late _ _ _ Hj Hst).
  - rewrite (onTimeoutOrAbort_dangling _ _ Hj). cbn [onTimeoutOrAbort_fuel].
    by rewrite Hj.
Qed.

(** [jobAbort.abort()], case by case. *)
Lemma jobAbort_abort_aborted j s job :
  jobs s !! j = Some job → j_jobAbort job = true → jobAbort_abort j s = s.
Proof.
  intros Hj Hab. unfold jobAbort_abort, AbortController_abort, jobAbort_aborted.
  rewrite Hj. cbn [from_option]. by rewrite Hab.
Qed.

Lemma jobAbort_abort_late j s job :
  jobs s !! j = Some job → j_jobAbort job = false → j_status job ≠ pending →
  jobAbort_abort j s = log LogAlreadyProcessed (update_job (set_jobAbort true) j s).
Proof.
  intros Hj Hab Hst. unfold jobAbort_abort, AbortController_abort, jobAbort_aborted.
  rewrite Hj. cbn [from_option]. rewrite Hab.
  rewrite (onTimeoutOrAbort_fuel_late _ _ _ (set_jobAbort true job)); [done| |done].
  fields. by rewrite list_lookup_alter_eq, Hj.
Qed.

Lemma list_alter_dangling {A} (f : A → A) (l : list A) i :
  l !! i = None → alter f i l = l.
Proof.
  intros Hi. apply list_eq. intros k. destruct (decide (i = k)) as [->|].
  - by rewrite list_lookup_alter_eq, Hi.
  - by rewrite list_lookup_alter_ne.
Qed.

Lemma jobAbort_abort_dangling j s :
  jobs s !! j = None → jobAbort_abort j s = s.
Proof.
  intros Hj. unfold jobAbort_abort, AbortController_abort, jobAbort_aborted.
  rewrite Hj. cbn [from_option onTimeoutOrAbort_fuel]. fields.
  rewrite list_lookup_alter_eq, Hj. cbn [fmap option_fmap option_map default].
  apply state_eq; fields; try done. by apply list_alter_dangling.
Qed.

Lemma jobAbort_abort_pending_eq j s job :
  jobs s !! j = Some job → j_jobAbort job = false → j_status job = pending →
  jobAbort_abort j s =
    copy_waits (notify (j_id job) (jobCancelledListeners s) s) (aborted_state j job s).
Proof.
  intros Hj Hab Hst. unfold jobAbort_abort, AbortController_abort, jobAbort_aborted.
  rewrite Hj. cbn [from_option]. rewrite Hab.
  rewrite (onTimeoutOrAbort_fuel_pending_eq j (update_job (set_jobAbort true) j s)
             (set_jobAbort true job) 0); [|fields; by rewrite list_lookup_alter_eq, Hj|done].
  cbn [default from_option id].
  match goal with |- copy_waits (notify ?id ?l ?t) _ = _ =>
    rewrite (notify_copy id l s t) by done end.
  unfold copy_waits, with_waits, cancelled, aborted_state, finished, cancel_reason.
  apply state_eq; fields; try done.
  by rewrite list_insert_alter_same.
Qed.

Lemma jobAbort_abort_pending j s job :
  jobs s !! j = Some job → j_jobAbort job = false → j_status job = pending →
  ∃ W L1 L2, jobAbort_abort j s = with_waits W L1 L2 (aborted_state j job s).
Proof. intros Hj Hab Hst. eexists _, _, _. by apply jobAbort_abort_pending_eq. Qed.

(** ** What settling and cancelling can change *)

Lemma job_le_refl b : job_le b b.
Proof. split; auto. Qed.

Lemma job_le_trans b1 b2 b3 : job_le b1 b2 → job_le b2 b3 → job_le b1 b3.
Proof.
  intros [] []. split; try congruence.
  - intros H3. assert (b3 = b2) as -> by auto. auto.
  - intros H1. destruct (le_final0 H1) as [E1 E2].
    destruct le_final1 as [E3 E4]; [congruence|]. split; congruence.
  - intros H3. destruct (le_processed1 H3) as [H2|H2].
    + auto.
    + right. congruence.
  - intros H1 H3. destruct (decide (j_status b2 = pending)) as [H2|H2].
    + auto.
    + destruct (le_final1 H2) as [_ ->]. auto.
Qed.

Lemma state_le_refl s : state_le s s.
Proof.
  split; auto.
  apply Forall2_same_length_lookup_2; [done|].
  intros i x y ??. simplify_eq. apply job_le_refl.
Qed.

Lemma state_le_pending s s' j b' :
  state_le s s' → jobs s' !! j = Some b' → j_status b' = pending → jobs s !! j = Some b'.
Proof.
  intros Hle Hj Hst.
  destruct (Forall2_lookup_r _ _ _ _ _ (le_jobs _ _ Hle) Hj) as (b & Hb & Hbb').
  rewrite Hb. f_equal. symmetry. by apply (le_pending _ _ Hbb').
Qed.

Lemma state_le_trans s1 s2 s3 : state_le s1 s2 → state_le s2 s3 → state_le s1 s3.
Proof.
  intros H12 H23. split.
  - rewrite (le_queue _ _ H23). apply (le_queue _ _ H12).
  - rewrite (le_processingJobs _ _ H23). apply (le_processingJobs _ _ H12).
  - rewrite (le_executed _ _ H23). apply (le_executed _ _ H12).
  - eapply Forall2_trans; [|apply (le_jobs _ _ H12)|apply (le_jobs _ _ H23)].
    intros ???. apply job_le_trans.
  - etrans; [apply (le_emitted _ _ H12)|apply (le_emitted _ _ H23)].
  - rewrite (le_queueAbort _ _ H23). apply (le_queueAbort _ _ H12).
  - intros j b' Hj Hst Hin. eapply (le_abortJobListeners _ _ H23); eauto.
    eapply (le_abortJobListeners _ _ H12); eauto using state_le_pending.
  - intros j b' Hj Hst Hin. eapply (le_queueListeners _ _ H23); eauto.
    eapply (le_queueListeners _ _ H12); eauto using state_le_pending.
  - intros j b' sg Hj Hst Hin. eapply (le_signalListeners _ _ H23); eauto.
    eapply (le_signalListeners _ _ H12); eauto using state_le_pending.
Qed.

Lemma state_le_with_waits W L1 L2 s : state_le s (with_waits W L1 L2 s).
Proof. destruct (state_le_refl s). by split. Qed.

Lemma state_le_log m s : state_le s (log m s).
Proof. destruct (state_le_refl s). by split. Qed.

Lemma state_le_unhandled x s : state_le s (set_unhandled x s).
Proof. destruct (state_le_refl s). by split. Qed.

Lemma elem_of_remove_listener j k l : k ∈ remove_listener j l ↔ k ≠ j ∧ k ∈ l.
Proof. unfold remove_listener. by rewrite list_elem_of_filter. Qed.

Lemma signal_of_alter_remove j sg sg' s :
  ac_listeners (default new_AbortController
     (alter (removeEventListener j) sg' (signals s) !! sg))
  = if decide (sg' = sg) then remove_listener j (ac_listeners (signal_of sg s))
    else ac_listeners (signal_of sg s).
Proof.
  unfold signal_of. case_decide as Hsg.
  - subst. rewrite lookup_alter_eq. by destruct (signals s !! sg).
  - by rewrite lookup_alter_ne.
Qed.

(** A first settlement is an allowed change. *)
Lemma state_le_finished j job job' ev logs s :
  jobs s !! j = Some job → job_le job job' → j_status job' ≠ pending →
  state_le s (finished j job job' ev logs s).
Proof.
  intros Hj Hle Hst.
  assert (∀ k b', <[j:=job']> (jobs s) !! k = Some b' → j_status b' = pending → k ≠ j)
    as Hne.
  { intros k b' Hk Hp ->. rewrite list_lookup_insert_eq in Hk
      by (by eapply lookup_lt_Some). by simplify_eq. }
  split; simpl; auto.
  - apply Forall2_same_length_lookup_2; [by rewrite length_insert|].
    intros i x y Hx Hy. destruct (decide (i = j)) as [->|].
    + rewrite list_lookup_insert_eq in Hy by (by eapply lookup_lt_Some).
      by simplify_eq.
    + rewrite list_lookup_insert_ne in Hy by done. simplify_eq. apply job_le_refl.
  - by apply prefix_app_r.
  - intros k b' Hk Hp Hin. apply elem_of_remove_listener. eauto.
  - intros k b' Hk Hp Hin. apply elem_of_remove_listener. eauto.
  - intros k b' sg Hk Hp Hin. unfold signal_of at 1; simpl.
    destruct (j_signal job) as [sg'|]; [|done].
    rewrite signal_of_alter_remove. case_decide; [|done].
    apply elem_of_remove_listener. eauto.
Qed.

Lemma promise_resolve_settled {A} (a : A) p : promise_resolve a p ≠ Unsettled.
Proof. by destruct p. Qed.

Lemma promise_reject_settled {A} e (p : Promise A) : promise_reject e p ≠ Unsettled.
Proof. by destruct p. Qed.

Lemma job_le_after job st a p :
  j_status job = pending → st ≠ pending →
  (st = processed → j_exec job ≠ NotStarted) → p ≠ Unsettled →
  job_le job (job_after st a p job).
Proof. intros Hp Hst Hex Hset. split; simpl; auto; congruence. Qed.

Lemma state_le_update_final f j s :
  (∀ b, j_status b ≠ pending → job_le b (f b)) →
  (∀ b, jobs s !! j = Some b → j_status b ≠ pending) →
  state_le s (update_job f j s).
Proof.
  intros Hf Hj. destruct (state_le_refl s). split; simpl; auto.
  - apply Forall2_same_length_lookup_2; [by rewrite length_alter|].
    intros i x y Hx Hy. destruct (decide (i = j)) as [->|].
    + rewrite list_lookup_alter_eq, Hx in Hy. simplify_eq/=. eauto.
    + rewrite list_lookup_alter_ne in Hy by done. simplify_eq. apply job_le_refl.
Qed.

Lemma job_le_set_jobAbort a b : j_status b ≠ pending → job_le b (set_jobAbort a b).
Proof. intros Hst. split; simpl; auto; done. Qed.

Lemma job_le_set_timeout t b : j_status b ≠ pending → job_le b (set_timeout t b).
Proof. intros Hst. split; simpl; auto; done. Qed.

Lemma jobAbort_abort_spec j s :
  state_le s (jobAbort_abort j s) ∧
  ∀ k, k ≠ j → jobs (jobAbort_abort j s) !! k = jobs s !! k.
Proof.
  destruct (jobs s !! j) as [job|] eqn:Hj.
  - destruct (j_jobAbort job) eqn:Hab.
    { rewrite (jobAbort_abort_aborted _ _ _ Hj Hab). split; [apply state_le_refl|done]. }
    destruct (decide (j_status job = pending)) as [Hst|Hst].
    + destruct (jobAbort_abort_pending j s job Hj Hab Hst) as (W & L1 & L2 & ->). split.
      * eapply state_le_trans; [|apply state_le_with_waits].
        apply state_le_finished; [done| |done].
        by apply job_le_after; [..|apply promise_reject_settled].
      * intros k Hk. simpl. by rewrite list_lookup_insert_ne.
    + rewrite (jobAbort_abort_late _ _ _ Hj Hab Hst). split.
      * eapply state_le_trans; [|apply state_le_log].
        apply state_le_update_final; [apply job_le_set_jobAbort|].
        intros b ?. by simplify_eq.
      * intros k Hk. simpl. by rewrite list_lookup_alter_ne.
  - rewrite (jobAbort_abort_dangling _ _ Hj). split; [apply state_le_refl|done].
Qed.

Lemma settle_spec j r s :
  (∀ job, jobs s !! j = Some job → j_exec job ≠ NotStarted) →
  state_le s (settle j r s) ∧
  ∀ k, k ≠ j → jobs (settle j r s) !! k = jobs s !! k.
Proof.
  intros Hex. destruct (jobs s !! j) as [job|] eqn:Hj.
  - destruct (decide (j_status job = pending)) as [Hst|Hst].
    + destruct r as [output|err].
      * simpl. destruct (resolve_pending j output s job Hj Hst) as (W & L1 & L2 & ->). split.
        -- eapply state_le_trans; [|apply state_le_with_waits].
           apply state_le_finished; [done| |done].
           by apply job_le_after; auto using promise_resolve_settled.
        -- intros k Hk. simpl. by rewrite list_lookup_insert_ne.
      * destruct (to_Error err) as [error|] eqn:He.
        -- rewrite (settle_rejected_pending _ _ _ _ _ Hj Hst He). split.
           ++ eapply state_le_trans; [|apply state_le_with_waits].
              apply state_le_finished; [done| |done].
              by apply job_le_after; auto using promise_reject_settled.
           ++ intros k Hk. simpl. by rewrite list_lookup_insert_ne.
        -- rewrite (settle_rejected_throws _ _ _ _ Hj Hst He).
           split; [apply state_le_unhandled|done].
    + destruct r as [output|err].
      * simpl. rewrite (resolve_late _ _ _ _ Hj Hst). split; [apply state_le_log|done].
      * rewrite (settle_rejected_late _ _ _ _ Hj Hst). split; [apply state_le_log|done].
  - rewrite (settle_dangling _ _ _ Hj). split; [apply state_le_refl|done].
Qed.

Lemma handleAbortEvent_spec j id s :
  state_le s (handleAbortEvent j id s) ∧
  ∀ k, k ≠ j → jobs (handleAbortEvent j id s) !! k = jobs s !! k.
Proof.
  unfold handleAbortEvent. destruct (jobs s !! j) as [job|] eqn:Hj.
  - case_decide; [apply jobAbort_abort_spec|]. split; [apply state_le_refl|done].
  - split; [apply state_le_refl|done].
Qed.

(** Sweeps over listener lists. *)
Lemma state_le_foldl (f : State → nat → State) l s :
  (∀ s j, state_le s (f s j)) → state_le s (foldl f s l).
Proof.
  intros Hf. revert s. induction l as [|j l IH]; intros s; simpl.
  - apply state_le_refl.
  - eapply state_le_trans; [apply Hf|apply IH].
Qed.

Lemma foldl_frame (f : State → nat → State) l s k :
  (∀ s j, j ≠ k → jobs (f s j) !! k = jobs s !! k) →
  k ∉ l → jobs (foldl f s l) !! k = jobs s !! k.
Proof.
  intros Hf. revert s. induction l as [|j l IH]; intros s Hk; simpl; [done|].
  apply not_elem_of_cons in Hk as [Hkj Hk]. rewrite IH by done. by apply Hf.
Qed.

Lemma dispatch_step_spec (listeners : State → list nat) j s :
  let s' := if decide (j ∈ listeners s) then jobAbort_abort j s else s in
  state_le s s' ∧ ∀ k, k ≠ j → jobs s' !! k = jobs s !! k.
Proof.
  simpl. case_decide; [apply jobAbort_abort_spec|]. split; [apply state_le_refl|done].
Qed.

Lemma state_le_abortJob id s : state_le s (abortJob id s).
Proof.
  unfold abortJob. cbn zeta.
  eapply state_le_trans; [|apply state_le_foldl; intros; apply handleAbortEvent_spec].
  destruct (state_le_refl s). split; simpl; auto. by apply prefix_app_r.
Qed.

Lemma state_le_dispatch_abort listeners s : state_le s (dispatch_abort listeners s).
Proof.
  unfold dispatch_abort. apply state_le_foldl. intros t j.
  apply (dispatch_step_spec listeners j t).
Qed.

(** ** The invariant of the reachable states *)

Lemma slots_held_le l l' : Forall2 job_le l l' → slots_held l' = slots_held l.
Proof.
  unfold slots_held. induction 1 as [|b b' l l' Hb _ IH]; [done|].
  cbn [sum_list_with]. by rewrite (le_exec _ _ Hb), IH.
Qed.

Lemma Inv_init : Inv init.
Proof.
  split; simpl; try done.
  - constructor.
  - intros j Hj. by apply elem_of_nil in Hj.
Qed.

Lemma Inv_le s s' : Inv s → state_le s s' → Inv s'.
Proof.
  intros HI Hle.
  pose proof (Forall2_length _ _ _ (le_jobs _ _ Hle)) as Hlen.
  assert (popped s' = popped s) as Hpop
    by (unfold popped; by rewrite (le_queue _ _ Hle), Hlen).
  split.
  - rewrite (le_queueAbort _ _ Hle). apply HI.
  - intros j b Hj Hst.
    pose proof (state_le_pending _ _ _ _ Hle Hj Hst) as Hj0.
    destruct (inv_pending _ HI j b Hj0 Hst) as (? & ? & ? & ? & Hsg).
    repeat split; auto.
    + eapply (le_queueListeners _ _ Hle); eauto.
    + eapply (le_abortJobListeners _ _ Hle); eauto.
    + intros sg E. eapply (le_signalListeners _ _ Hle); eauto.
  - rewrite Hpop, (le_queue _ _ Hle). apply HI.
  - rewrite <- Hlen, (le_queue _ _ Hle). apply HI.
  - rewrite (le_executed _ _ Hle). apply HI.
  - rewrite Hpop, (le_executed _ _ Hle). apply HI.
  - intros j b' Hj.
    destruct (Forall2_lookup_r _ _ _ _ _ (le_jobs _ _ Hle) Hj) as (b & Hb & Hbb').
    rewrite (le_executed _ _ Hle), (le_exec _ _ Hbb'). by apply HI.
  - intros j b' Hj. rewrite Hpop, (le_executed _ _ Hle). intros Hlt Hex.
    destruct (Forall2_lookup_r _ _ _ _ _ (le_jobs _ _ Hle) Hj) as (b & Hb & Hbb').
    pose proof (inv_skipped _ HI j b Hb Hlt Hex) as Hab.
    destruct (le_final _ _ Hbb') as [-> _]; [by rewrite Hab|done].
  - intros j b' Hj Hst.
    destruct (Forall2_lookup_r _ _ _ _ _ (le_jobs _ _ Hle) Hj) as (b & Hb & Hbb').
    rewrite (le_exec _ _ Hbb').
    destruct (le_processed _ _ Hbb' Hst) as [Hp|Hp]; [|done].
    by apply (inv_processed _ HI j b).
  - intros j b' Hj Hst.
    destruct (Forall2_lookup_r _ _ _ _ _ (le_jobs _ _ Hle) Hj) as (b & Hb & Hbb').
    destruct (decide (j_status b = pending)) as [Hp|Hp].
    + by apply (le_settled _ _ Hbb').
    + destruct (le_final _ _ Hbb' Hp) as [_ ->]. by apply (inv_settled _ HI j b).
  - rewrite (le_processingJobs _ _ Hle), (slots_held_le _ _ (le_jobs _ _ Hle)).
    apply HI.
Qed.

(** ** process: the part before [run] *)

Lemma process_enqueued id data queueTimeout signal s :
  process id data queueTimeout signal s = run (enqueued id data queueTimeout signal s).
Proof.
  unfold process, enqueued, submitted_job, emit_job_added. cbn zeta. f_equal.
  assert (∀ f, alter f (length (jobs s)) (jobs s ++ [new_job id data signal])
               = jobs s ++ [f (new_job id data signal)]) as Halter.
  { intros f. rewrite alter_app_r_alt by done. by rewrite Nat.sub_diag. }
  assert (length (queue s ++ [length (jobs s)]) = S (length (queue s))) as Hlen
    by (rewrite length_app; simpl; lia).
  destruct (positive_number (default 0%Q queueTimeout)); destruct signal;
    apply state_eq; fields; rewrite ?Halter, ?Hlen; done.
Qed.

Lemma signal_of_enqueued id data queueTimeout signal s sg :
  ac_listeners (signal_of sg (enqueued id data queueTimeout signal s)) =
  if decide (signal = Some sg)
  then ac_listeners (signal_of sg s) ++ [length (jobs s)]
  else ac_listeners (signal_of sg s).
Proof.
  unfold signal_of at 1, enqueued; simpl. destruct signal as [sg'|].
  - destruct (decide (sg' = sg)) as [->|Hne].
    + rewrite lookup_insert_eq. by rewrite decide_True.
    + rewrite lookup_insert_ne by done. rewrite decide_False by congruence. done.
  - by rewrite decide_False.
Qed.

Lemma popped_enqueued id data queueTimeout signal s :
  (length (queue s) ≤ length (jobs s))%nat →
  popped (enqueued id data queueTimeout signal s) = popped s.
Proof. intros Hle. unfold popped, enqueued; simpl. rewrite !length_app; simpl. lia. Qed.

Lemma Inv_enqueued id data queueTimeout signal s :
  Inv s → Inv (enqueued id data queueTimeout signal s).
Proof.
  intros HI. pose proof (inv_queue_length _ HI) as Hql.
  pose proof (popped_enqueued id data queueTimeout signal s Hql) as Hpop.
  assert (∀ j b, jobs (enqueued id data queueTimeout signal s) !! j = Some b →
            jobs s !! j = Some b ∨
            (j = length (jobs s) ∧ b = submitted_job id data queueTimeout signal))
    as Hcases.
  { intros j b Hj. simpl in Hj. apply lookup_app_Some in Hj as [Hj|[Hge Hj]]; [by left|].
    right. apply list_lookup_singleton_Some in Hj as [Hz <-]. split; [lia|done]. }
  assert (∀ j, j ∈ executed s → j ≠ length (jobs s)) as Hexe.
  { intros j Hj. apply (inv_executed_popped _ HI) in Hj. unfold popped in Hj. lia. }
  split.
  - simpl. apply HI.
  - intros j b Hj Hst. destruct (Hcases j b Hj) as [Hold|[-> ->]].
    + destruct (inv_pending _ HI j b Hold Hst) as (? & ? & ? & ? & Hsg).
      repeat split; auto; simpl.
      * apply elem_of_app; by left.
      * apply elem_of_app; by left.
      * intros sg E. rewrite signal_of_enqueued. case_decide; [|by auto].
        apply elem_of_app; left; auto.
    + repeat split; simpl.
      * apply elem_of_app; right; by apply list_elem_of_singleton.
      * apply elem_of_app; right; by apply list_elem_of_singleton.
      * intros sg E. rewrite signal_of_enqueued. rewrite decide_True by done.
        apply elem_of_app; right; by apply list_elem_of_singleton.
  - rewrite Hpop. simpl. rewrite length_app; simpl.
    rewrite seq_app. f_equal; [apply HI|]. simpl. f_equal.
    unfold popped. lia.
  - simpl. rewrite !length_app; simpl. lia.
  - simpl. apply HI.
  - rewrite Hpop. simpl. apply HI.
  - intros j b Hj. destruct (Hcases j b Hj) as [Hold|[-> ->]]; simpl.
    + by apply HI.
    + split; [|done]. intros _ Hin. by apply Hexe in Hin.
  - intros j b Hj. rewrite Hpop. simpl. intros Hlt Hex.
    destruct (Hcases j b Hj) as [Hold|[-> ->]].
    + by apply (inv_skipped _ HI j b).
    + unfold popped in Hlt. lia.
  - intros j b Hj Hst. destruct (Hcases j b Hj) as [Hold|[-> ->]].
    + by apply (inv_processed _ HI j b).
    + done.
  - intros j b Hj Hst. destruct (Hcases j b Hj) as [Hold|[-> ->]].
    + by apply (inv_settled _ HI j b).
    + by exfalso; apply Hst.
  - simpl. unfold slots_held. rewrite sum_list_with_app; simpl.
    rewrite (inv_slots _ HI). unfold slots_held. lia.
Qed.

(** ** run *)

Lemma queue_head s j q :
  Inv s → queue s = j :: q →
  j = popped s ∧ q = seq (S (popped s)) (length q) ∧
  (S (length q) ≤ length (jobs s))%nat ∧ popped (set_queue q s) = S (popped s).
Proof.
  intros HI Hq. pose proof (inv_queue _ HI) as Hseq.
  pose proof (inv_queue_length _ HI) as Hlen. rewrite Hq in Hseq, Hlen.
  simpl in Hseq, Hlen. injection Hseq as Hj Hq'.
  repeat split; try done. unfold popped in *; simpl. rewrite Hq; simpl. lia.
Qed.

Lemma item_aborted_true j s :
  item_aborted j s = true ↔ ∃ b, jobs s !! j = Some b ∧ j_status b = aborted.
Proof.
  unfold item_aborted, status_of. rewrite bool_decide_eq_true.
  destruct (jobs s !! j) as [b|]; simpl; split.
  - intros [= E]. eauto.
  - intros (b' & [= <-] & E). by rewrite E.
  - done.
  - by intros (? & ? & ?).
Qed.

Lemma Inv_skip s j q :
  Inv s → queue s = j :: q → item_aborted j s = true → Inv (set_queue q s).
Proof.
  intros HI Hq Hab. destruct (queue_head s j q HI Hq) as (Hj & Hq' & Hlen & Hpop).
  apply item_aborted_true in Hab as (bj & Hbj & Hstj).
  split; try (simpl; apply HI).
  - by rewrite Hpop.
  - simpl. lia.
  - rewrite Hpop. simpl. intros k Hk. apply (inv_executed_popped _ HI) in Hk. lia.
  - intros k b Hk. rewrite Hpop. simpl in *. intros Hlt Hex.
    destruct (decide (k = j)) as [->|Hne]; [by simplify_eq|].
    apply (inv_skipped _ HI k b Hk); [lia|done].
Qed.

(** [executeJob] on an existing job, in closed form. *)
Lemma executeJob_eq j b s :
  jobs s !! j = Some b →
  executeJob j s =
  {| queue := queue s;
     processingJobs := processingJobs s;
     queueAbort := queueAbort s;
     jobStatus := <[j_id b := true]> (jobStatus s);
     jobs := <[j := set_exec Executing b]> (jobs s);
     signals := signals s;
     abortJobListeners := abortJobListeners s;
     jobProcessedListeners := jobProcessedListeners s;
     jobCancelledListeners := jobCancelledListeners s;
     waiters := waiters s;
     emitted := emitted s;
     logged := logged s ++ [LogStarted (j_id b)];
     executed := executed s ++ [j];
     unhandled := unhandled s |}.
Proof.
  intros Hj. unfold executeJob. rewrite Hj. apply state_eq; fields; try done.
  by rewrite (list_alter_insert _ _ _ _ Hj).
Qed.

Lemma slots_held_insert l j b b' :
  l !! j = Some b →
  (slots_held (<[j := b']> l) + holds_slot (j_exec b)
   = slots_held l + holds_slot (j_exec b'))%nat.
Proof.
  unfold slots_held. revert j. induction l as [|x l IH]; intros [|j] Hj; simplify_eq/=.
  - lia.
  - specialize (IH j Hj). lia.
Qed.

Lemma StronglySorted_snoc (l : list nat) x :
  StronglySorted lt l → (∀ y, y ∈ l → (y < x)%nat) → StronglySorted lt (l ++ [x]).
Proof.
  induction 1 as [|y l Hs IH Hall]; intros Hlt; simpl.
  - repeat constructor.
  - constructor.
    + apply IH. intros z Hz. apply Hlt. by right.
    + apply Forall_app. split; [done|]. constructor; [|done]. apply Hlt. by left.
Qed.

Lemma Inv_execute s j q :
  Inv s → queue s = j :: q → item_aborted j s = false →
  Inv (executeJob j (set_processingJobs (processingJobs s + 1) (set_queue q s))).
Proof.
  intros HI Hq Hab. destruct (queue_head s j q HI Hq) as (Hj & Hq' & Hlen & Hpop).
  assert (is_Some (jobs s !! j)) as [bj Hbj].
  { apply lookup_lt_is_Some. unfold popped in Hj. rewrite Hq in Hj. simpl in Hj. lia. }
  assert (j ∉ executed s) as Hnex.
  { intros Hin. apply (inv_executed_popped _ HI) in Hin. lia. }
  assert (j_exec bj = NotStarted) as Hns by (by apply (inv_exec _ HI j bj)).
  rewrite (executeJob_eq j bj) by done.
  assert (popped (set_queue q s) = S j) as Hpop' by lia.
  assert (∀ k b, <[j:=set_exec Executing bj]> (jobs s) !! k = Some b →
            (k = j ∧ b = set_exec Executing bj) ∨ (k ≠ j ∧ jobs s !! k = Some b))
    as Hcases.
  { intros k b Hk. destruct (decide (k = j)) as [->|Hne].
    - rewrite list_lookup_insert_eq in Hk by (by eapply lookup_lt_Some).
      left. by simplify_eq.
    - rewrite list_lookup_insert_ne in Hk by done. by right. }
  split; simpl.
  - apply HI.
  - intros k b Hk Hst. destruct (Hcases k b Hk) as [[-> ->]|[Hne Hold]].
    + simpl in Hst. unfold signal_of; simpl.
      by apply (inv_pending _ HI j bj).
    + by apply (inv_pending _ HI k b).
  - unfold popped; simpl. rewrite length_insert.
    unfold popped in Hpop; simpl in Hpop. by rewrite Hpop.
  - rewrite length_insert. lia.
  - apply StronglySorted_snoc; [apply HI|].
    intros y Hy. apply (inv_executed_popped _ HI) in Hy. lia.
  - unfold popped; simpl. rewrite length_insert.
    unfold popped in Hpop'; simpl in Hpop'. rewrite Hpop'.
    intros k Hk. apply elem_of_app in Hk as [Hk|Hk].
    + apply (inv_executed_popped _ HI) in Hk. lia.
    + apply list_elem_of_singleton in Hk. lia.
  - intros k b Hk. destruct (Hcases k b Hk) as [[-> ->]|[Hne Hold]]; simpl.
    + split; [done|]. intros Hn. exfalso. apply Hn.
      apply elem_of_app; right. by apply list_elem_of_singleton.
    + rewrite (inv_exec _ HI k b Hold). rewrite elem_of_app, list_elem_of_singleton.
      tauto.
  - unfold popped; simpl. rewrite length_insert.
    unfold popped in Hpop'; simpl in Hpop'. rewrite Hpop'.
    intros k b Hk Hlt Hex. destruct (Hcases k b Hk) as [[-> ->]|[Hne Hold]].
    + exfalso. apply Hex. apply elem_of_app; right. by apply list_elem_of_singleton.
    + apply (inv_skipped _ HI k b Hold); [lia|].
      intros Hin. apply Hex. apply elem_of_app; by left.
  - intros k b Hk Hst. destruct (Hcases k b Hk) as [[-> ->]|[Hne Hold]]; simpl.
    + done.
    + by apply (inv_processed _ HI k b).
  - intros k b Hk Hst. destruct (Hcases k b Hk) as [[-> ->]|[Hne Hold]].
    + by apply (inv_settled _ HI j bj).
    + by apply (inv_settled _ HI k b).
  - pose proof (slots_held_insert (jobs s) j bj (set_exec Executing bj) Hbj) as Hs.
    rewrite Hns in Hs. simpl in Hs. rewrite (inv_slots _ HI). lia.
Qed.

Lemma Inv_run_loop q s : queue s = q → Inv s → Inv (run_loop q s).
Proof.
  revert s. induction q as [|j q IH]; intros s Hq HI; simpl.
  - by case_decide.
  - case_decide; [|done].
    destruct (item_aborted j (set_queue q s)) eqn:Hab.
    + apply IH; [done|]. by apply (Inv_skip s j q).
    + apply IH.
      * assert (is_Some (jobs s !! j)) as [bj Hbj].
        { destruct (queue_head s j q HI Hq) as (Hj & _ & Hlen & _).
          apply lookup_lt_is_Some. unfold popped in Hj. rewrite Hq in Hj.
          simpl in Hj. lia. }
        by rewrite (executeJob_eq j bj).
      * by apply (Inv_execute s j q).
Qed.

Lemma Inv_run s : Inv s → Inv (run s).
Proof. intros HI. by apply Inv_run_loop. Qed.

(** ** The promise chain of executeJob *)

Lemma Inv_exec_change s s' j b e :
  Inv s → jobs s !! j = Some b → j_exec b ≠ NotStarted → e ≠ NotStarted →
  jobs s' = <[j := set_exec e b]> (jobs s) →
  queue s' = queue s → executed s' = executed s → queueAbort s' = queueAbort s →
  abortJobListeners s' = abortJobListeners s → signals s' = signals s →
  processingJobs s' + Z.of_nat (holds_slot (j_exec b))
    = processingJobs s + Z.of_nat (holds_slot e) →
  Inv s'.
Proof.
  intros HI Hj Hb He Hjobs Hqueue Hexe Hqa Habl Hsig Hslots.
  assert (popped s' = popped s) as Hpop.
  { unfold popped. by rewrite Hjobs, Hqueue, length_insert. }
  assert (∀ k x, jobs s' !! k = Some x →
            (k = j ∧ x = set_exec e b) ∨ (k ≠ j ∧ jobs s !! k = Some x)) as Hcases.
  { intros k x Hk. rewrite Hjobs in Hk. destruct (decide (k = j)) as [->|Hne].
    - rewrite list_lookup_insert_eq in Hk by (by eapply lookup_lt_Some).
      left. by simplify_eq.
    - rewrite list_lookup_insert_ne in Hk by done. by right. }
  assert (∀ sg, signal_of sg s' = signal_of sg s) as Hsg
    by (intros sg; unfold signal_of; by rewrite Hsig).
  split.
  - rewrite Hqa. apply HI.
  - intros k x Hk Hst. rewrite Hqa, Habl. setoid_rewrite Hsg.
    destruct (Hcases k x Hk) as [[-> ->]|[Hne Hold]].
    + by apply (inv_pending _ HI j b).
    + by apply (inv_pending _ HI k x).
  - rewrite Hpop, Hqueue. apply HI.
  - rewrite Hqueue, Hjobs, length_insert. apply HI.
  - rewrite Hexe. apply HI.
  - rewrite Hpop, Hexe. apply HI.
  - intros k x Hk. rewrite Hexe. destruct (Hcases k x Hk) as [[-> ->]|[Hne Hold]].
    + cbn [j_exec set_exec]. pose proof (inv_exec _ HI j b Hj). tauto.
    + by apply HI.
  - intros k x Hk. rewrite Hpop, Hexe. intros Hlt Hex.
    destruct (Hcases k x Hk) as [[-> ->]|[Hne Hold]].
    + by apply (inv_skipped _ HI j b).
    + by apply (inv_skipped _ HI k x).
  - intros k x Hk Hst. destruct (Hcases k x Hk) as [[-> ->]|[Hne Hold]].
    + done.
    + by apply (inv_processed _ HI k x).
  - intros k x Hk Hst. destruct (Hcases k x Hk) as [[-> ->]|[Hne Hold]].
    + by apply (inv_settled _ HI j b).
    + by apply (inv_settled _ HI k x).
  - pose proof (slots_held_insert (jobs s) j b (set_exec e b) Hj) as Hs.
    cbn [j_exec set_exec] in Hs. rewrite Hjobs.
    pose proof (inv_slots _ HI). lia.
Qed.

(** ** Sweeps that abort a pending job *)

Lemma sweep_hits (f : State → nat → State) l k b s :
  (∀ t j, state_le t (f t j) ∧ ∀ i, i ≠ j → jobs (f t j) !! i = jobs t !! i) →
  (∀ t, state_le s t → jobs t !! k = Some b → f t k = jobAbort_abort k t) →
  k ∈ l → jobs s !! k = Some b →
  j_status b = pending → j_jobAbort b = false → j_promise b = Unsettled →
  was_aborted b k s (foldl f s l).
Proof.
  intros Hf Hhit Hin Hk Hst Hab Hpr.
  apply list_elem_of_split_l in Hin as (l1 & l2 & -> & Hnin).
  rewrite foldl_app. cbn [foldl].
  set (t1 := foldl f s l1).
  assert (state_le s t1) as H1 by (apply state_le_foldl; intros; apply Hf).
  assert (jobs t1 !! k = Some b) as Hk1.
  { unfold t1. rewrite foldl_frame; [done| |done]. intros t j Hne. by apply Hf. }
  rewrite (Hhit t1 H1 Hk1).
  destruct (jobAbort_abort_pending k t1 b Hk1 Hab Hst) as (W & L1 & L2 & ->).
  set (t2 := with_waits W L1 L2 (aborted_state k b t1)).
  assert (state_le t2 (foldl f t2 l2)) as H2 by (apply state_le_foldl; intros; apply Hf).
  assert (jobs t2 !! k = Some (job_after aborted true
            (Rejected (new_Error "abort")) b)) as Hk2.
  { unfold t2, with_waits, aborted_state, finished. fields. rewrite Hpr.
    apply list_lookup_insert_eq. by eapply lookup_lt_Some. }
  destruct (Forall2_lookup_l _ _ _ _ _ (le_jobs _ _ H2) Hk2) as (b3 & Hk3 & Hle).
  destruct (le_final _ _ Hle) as [E1 E2]; [done|].
  unfold was_aborted, status_of, promise_of. rewrite Hk3. cbn [fmap option_fmap option_map].
  repeat split; [by rewrite E1|by rewrite E2|].
  destruct (le_emitted _ _ H1) as [e1 He1]. destruct (le_emitted _ _ H2) as [e2 He2].
  exists e1, e2. rewrite He2. unfold t2, with_waits, aborted_state, finished. fields.
  rewrite He1, (le_queue _ _ H1). by rewrite <- !(assoc_L (++)).
Qed.

Lemma was_aborted_from b k s s1 s' :
  queue s1 = queue s → emitted s `prefix_of` emitted s1 →
  was_aborted b k s1 s' → was_aborted b k s s'.
Proof.
  intros Hq [e0 He0] (Hst & Hpr & e1 & e2 & Hem). repeat split; [done..|].
  exists (e0 ++ e1), e2. rewrite Hem, He0, Hq. by rewrite <- !(assoc_L (++)).
Qed.

(** ** abort(): every pending job is cancelled *)

Lemma abort_spec s :
  Inv s →
  state_le s (abort s) ∧
  (∀ k b, jobs s !! k = Some b → j_status b = pending → was_aborted b k s (abort s)) ∧
  (∀ k x, jobs (abort s) !! k = Some x → j_status x ≠ pending) ∧
  queueAbort (abort s) = new_AbortController.
Proof.
  intros HI. unfold abort. cbn zeta. fields. rewrite (inv_queueAbort _ HI).
  set (s2 := set_queueAbort (set_aborted (queueAbort s))
               (set_logged (logged s ++ [LogShutdown (length (queue s))]) s)).
  set (L := λ t : State, ac_listeners (queueAbort t)).
  set (s3 := dispatch_abort L s2).
  assert (state_le s2 s3) as H23 by apply state_le_dispatch_abort.
  assert (∀ k b, jobs s !! k = Some b → j_status b = pending → was_aborted b k s2 s3)
    as Hhit.
  { intros k b Hk Hst.
    destruct (inv_pending _ HI k b Hk Hst) as (Hab & Hpr & Hin & _).
    unfold s3, dispatch_abort.
    apply sweep_hits; try done.
    - intros t j. apply (dispatch_step_spec L j t).
    - intros t Ht Hkt. rewrite decide_True; [done|].
      by apply (le_queueListeners _ _ Ht k b). }
  assert (∀ k x, jobs s3 !! k = Some x → j_status x ≠ pending) as Hnone.
  { intros k x Hk Hst.
    pose proof (state_le_pending _ _ _ _ H23 Hk Hst) as Hk2.
    destruct (Hhit k x Hk2 Hst) as (Hs & _). unfold status_of in Hs.
    rewrite Hk in Hs. simplify_eq/=. congruence. }
  split; [|split; [|split]]; [|exact Hhit|exact Hnone|done].
  split.
  - apply (le_queue _ _ H23).
  - apply (le_processingJobs _ _ H23).
  - apply (le_executed _ _ H23).
  - apply (le_jobs _ _ H23).
  - apply (le_emitted _ _ H23).
  - fields. by rewrite (inv_queueAbort _ HI).
  - intros j b' Hj Hst. by destruct (Hnone j b' Hj).
  - intros j b' Hj Hst. by destruct (Hnone j b' Hj).
  - intros j b' sg Hj Hst. by destruct (Hnone j b' Hj).
Qed.

(** ** abortJob(id): the pending jobs with this id are cancelled *)

Lemma abortJob_hits id s k b :
  Inv s → jobs s !! k = Some b → j_status b = pending → j_id b = id →
  was_aborted b k s (abortJob id s).
Proof.
  intros HI Hk Hst Hid.
  destruct (inv_pending _ HI k b Hk Hst) as (Hab & Hpr & _ & Hin & _).
  unfold abortJob. cbn zeta. fields.
  eapply (was_aborted_from _ _ _ (set_emitted (emitted s ++ [abort_job id]) s));
    [done|by apply prefix_app_r|].
  apply sweep_hits; try done.
  - intros t j. apply handleAbortEvent_spec.
  - intros t Ht Hkt. unfold handleAbortEvent. rewrite Hkt. by rewrite decide_True.
Qed.

(** ** A caller-supplied signal aborts *)

Lemma signal_of_set_aborted sg sg' s :
  ac_listeners (signal_of sg'
    (set_signals (<[sg := set_aborted (signal_of sg s)]> (signals s)) s))
  = ac_listeners (signal_of sg' s).
Proof.
  unfold signal_of at 1. fields. destruct (decide (sg = sg')) as [->|Hne].
  - by rewrite lookup_insert_eq.
  - by rewrite lookup_insert_ne.
Qed.

Lemma state_le_set_signal_aborted sg s :
  state_le s (set_signals (<[sg := set_aborted (signal_of sg s)]> (signals s)) s).
Proof.
  destruct (state_le_refl s). split; try done.
  intros j b' sg' Hj Hst Hin. by rewrite signal_of_set_aborted.
Qed.

Lemma state_le_signal_fired sg s : state_le s (signal_fired sg s).
Proof.
  eapply state_le_trans; [apply state_le_set_signal_aborted|].
  apply state_le_dispatch_abort.
Qed.

Lemma signal_fired_hits sg s k b :
  Inv s → jobs s !! k = Some b → j_status b = pending → j_signal b = Some sg →
  was_aborted b k s (signal_fired sg s).
Proof.
  intros HI Hk Hst Hsg.
  destruct (inv_pending _ HI k b Hk Hst) as (Hab & Hpr & _ & _ & Hin).
  unfold signal_fired.
  eapply (was_aborted_from _ _ _
    (set_signals (<[sg := set_aborted (signal_of sg s)]> (signals s)) s)); [done..|].
  unfold dispatch_abort. apply sweep_hits; try done.
  - intros t j. apply (dispatch_step_spec (λ t, ac_listeners (signal_of sg t)) j t).
  - intros t Ht Hkt. rewrite decide_True; [done|].
    apply (le_signalListeners _ _ Ht k b sg Hkt Hst).
    rewrite signal_of_set_aborted. by apply Hin.
  - rewrite signal_of_set_aborted. by apply Hin.
Qed.

(** ** The timer of process fires *)

Lemma timeout_fired_pending j b s :
  jobs s !! j = Some b → j_status b = pending →
  ∃ W L1 L2, timeout_fired j s = with_waits W L1 L2 (cancelled j b s).
Proof.
  intros Hj Hst. unfold timeout_fired.
  destruct (onTimeoutOrAbort_pending j (update_job (set_timeout None) j s)
              (set_timeout None b)) as (W & L1 & L2 & ->); [|done|].
  { fields. by rewrite list_lookup_alter_eq, Hj. }
  exists W, L1, L2. f_equal. unfold cancelled, finished, cancel_reason.
  apply state_eq; fields; try done. by rewrite list_insert_alter_same.
Qed.

Lemma timeout_fired_late j b s :
  jobs s !! j = Some b → j_status b ≠ pending →
  timeout_fired j s = log LogAlreadyProcessed (update_job (set_timeout None) j s).
Proof.
  intros Hj Hst. unfold timeout_fired.
  apply (onTimeoutOrAbort_late _ _ (set_timeout None b)); [|done].
  fields. by rewrite list_lookup_alter_eq, Hj.
Qed.

Lemma state_le_timeout_fired j s : state_le s (timeout_fired j s).
Proof.
  destruct (jobs s !! j) as [b|] eqn:Hj.
  - destruct (decide (j_status b = pending)) as [Hst|Hst].
    + destruct (timeout_fired_pending j b s Hj Hst) as (W & L1 & L2 & ->).
      eapply state_le_trans; [|apply state_le_with_waits].
      apply state_le_finished; [done| |done].
      by apply job_le_after; [..|apply promise_reject_settled].
    + rewrite (timeout_fired_late j b s Hj Hst).
      eapply state_le_trans; [|apply state_le_log].
      apply state_le_update_final; [apply job_le_set_timeout|].
      intros x ?. by simplify_eq.
  - unfold timeout_fired. rewrite onTimeoutOrAbort_dangling.
    + assert (update_job (set_timeout None) j s = s) as ->; [|apply state_le_refl].
      apply state_eq; fields; try done. by apply list_alter_dangling.
    + fields. by rewrite list_lookup_alter_eq, Hj.
Qed.

(** ** waitForJob only touches the waiters *)

Lemma waitForJob_shape jobId timeoutMs s :
  ∃ W L1 L2, fst (waitForJob jobId timeoutMs s) = with_waits W L1 L2 s.
Proof.
  unfold waitForJob. cbn zeta. destruct (jobStatus_undefined jobId s).
  - eexists _, _, _. symmetry. apply with_waits_id.
  - destruct (positive_number (default 3600000%Q timeoutMs));
      eexists _, _, _; cbn [fst]; unfold with_waits; apply state_eq; fields; done.
Qed.

(** A name of [Object.prototype] is never [undefined] in the index: the wait
    is registered although no job has that id. *)
Lemma waitForJob_inherited jobId timeoutMs s :
  jobId ∈ Object_prototype →
  snd (waitForJob jobId timeoutMs s) = Some (length (waiters s)).
Proof.
  intros Hin. unfold waitForJob, jobStatus_undefined. cbn zeta.
  by rewrite bool_decide_eq_false_2 by (by intros [_ ?]).
Qed.

Lemma waiter_timeout_shape w s :
  ∃ W L1 L2, waiter_timeout w s = with_waits W L1 L2 s.
Proof.
  unfold waiter_timeout, waiter_cleanup. cbn zeta.
  eexists _, _, _. unfold with_waits. apply state_eq; fields; done.
Qed.

(** ** Every callback keeps the invariant *)

Lemma step_state_le s a s' :
  Inv s → step s a = Some s' → settles_only a → state_le s s'.
Proof.
  intros HI Hstep Ha. destruct a as [| | |sg|j| | |jobId timeoutMs|w]; try done;
    cbn [step] in Hstep.
  - simplify_eq. apply state_le_abortJob.
  - simplify_eq. by apply abort_spec.
  - destruct (ac_aborted (signal_of sg s)); [done|]. simplify_eq.
    apply (state_le_signal_fired sg s).
  - destruct (jobs s !! j) as [b|]; [|done]. destruct (j_timeout b); [|done].
    simplify_eq. apply (state_le_timeout_fired j s).
  - simplify_eq. destruct (waitForJob_shape jobId timeoutMs s) as (W & L1 & L2 & ->).
    apply state_le_with_waits.
  - destruct (waiters s !! w) as [wt|]; [|done]. destruct (w_timeout wt); [|done].
    simplify_eq. destruct (waiter_timeout_shape w s) as (W & L1 & L2 & ->).
    apply state_le_with_waits.
Qed.

Lemma exec_of_Some j s e :
  exec_of j s = Some e ↔ ∃ b, jobs s !! j = Some b ∧ j_exec b = e.
Proof.
  unfold exec_of. destruct (jobs s !! j) as [b|]; cbn; split.
  - intros [= <-]. eauto.
  - by intros (? & [= <-] & <-).
  - done.
  - by intros (? & ? & ?).
Qed.

(** The state after the reactions to the executor's promise. *)
Lemma settles_spec j r s b :
  jobs s !! j = Some b → j_exec b = Executing →
  state_le s (settle j r s) ∧
  ∃ b1, jobs (settle j r s) !! j = Some b1 ∧ job_le b b1.
Proof.
  intros Hj Hex.
  destruct (settle_spec j r s) as [Hle _].
  { intros x ?. simplify_eq. by rewrite Hex. }
  split; [done|]. by apply (Forall2_lookup_l _ _ _ _ _ (le_jobs _ _ Hle) Hj).
Qed.

Lemma Inv_step s a s' : Inv s → step s a = Some s' → Inv s'.
Proof.
  intros HI Hstep.
  destruct a as [id data qt sig| | | | |j r|j| |]; 
    try (by eapply Inv_le; [done|eapply step_state_le]);
    cbn [step] in Hstep.
  - case_decide; [done|]. simplify_eq. rewrite process_enqueued.
    by apply Inv_run, Inv_enqueued.
  - case_decide as Hex; [|done]. simplify_eq.
    apply exec_of_Some in Hex as (b & Hj & Hex).
    destruct (settles_spec j r s b Hj Hex) as (Hle & b1 & Hj1 & Hb1).
    pose proof (Inv_le _ _ HI Hle) as HI1.
    apply (Inv_exec_change (settle j r s) _ j b1 ExecSettled HI1 Hj1);
      fields; try done.
    + by rewrite (le_exec _ _ Hb1), Hex.
    + by apply list_alter_insert.
    + by rewrite (le_exec _ _ Hb1), Hex.
  - case_decide as Hex; [|done]. simplify_eq.
    apply exec_of_Some in Hex as (b & Hj & Hex).
    apply Inv_run.
    apply (Inv_exec_change s _ j b Released HI Hj); fields; try done.
    + by rewrite Hex.
    + by apply list_alter_insert.
    + rewrite Hex. cbn [holds_slot]. lia.
Qed.

Lemma reachable_Inv s : reachable s → Inv s.
Proof. induction 1; [apply Inv_init|by eapply Inv_step]. Qed.

Lemma steps_reachable l s s' : reachable s → steps s l = Some s' → reachable s'.
Proof.
  revert s. induction l as [|a l IH]; intros s Hs Hl; cbn [steps] in Hl.
  - by simplify_eq.
  - destruct (step s a) as [s1|] eqn:Hstep; [|done].
    eapply IH; [|done]. by eapply reachable_step.
Qed.

(** ** The concurrency limit *)

Lemma run_loop_limit q s :
  processingJobs s ≤ concurrency → processingJobs (run_loop q s) ≤ concurrency.
Proof.
  revert s. induction q as [|j q IH]; intros s Hs; cbn [run_loop].
  - by case_decide.
  - case_decide as Hlt; [|done].
    destruct (item_aborted j (set_queue q s)); apply IH; [done|].
    unfold executeJob. destruct (jobs _ !! j); fields; lia.
Qed.

Lemma step_limit s a s' :
  Inv s → step s a = Some s' →
  processingJobs s ≤ concurrency → processingJobs s' ≤ concurrency.
Proof.
  intros HI Hstep Hs.
  destruct a as [id data qt sig| | | | |j r|j| |];
    try (by rewrite (le_processingJobs _ _ (step_state_le _ _ _ HI Hstep Logic.I)));
    cbn [step] in Hstep.
  - case_decide; [done|]. simplify_eq. rewrite process_enqueued. by apply run_loop_limit.
  - case_decide as Hex; [|done]. simplify_eq.
    apply exec_of_Some in Hex as (b & Hj & Hex).
    destruct (settles_spec j r s b Hj Hex) as (Hle & _).
    fields. by rewrite (le_processingJobs _ _ Hle).
  - case_decide as Hex; [|done]. simplify_eq. apply run_loop_limit. fields. lia.
Qed.

Lemma reachable_limit s :
  0 ≤ concurrency → reachable s → processingJobs s ≤ concurrency.
Proof.
  intros HK. induction 1 as [|s a s' Hs IH Hstep]; [done|].
  eapply step_limit; eauto using reachable_Inv.
Qed.

(** ** What run changes *)

Lemma executeJob_jobs j s :
  jobs (executeJob j s) = alter (set_exec Executing) j (jobs s).
Proof.
  unfold executeJob. destruct (jobs s !! j) eqn:Hj; fields; [done|].
  by rewrite list_alter_dangling.
Qed.

Lemma item_aborted_jobs j s s' :
  j_status <$> jobs s' = j_status <$> jobs s → item_aborted j s' = item_aborted j s.
Proof.
  intros Heq. unfold item_aborted, status_of.
  by rewrite <- !list_lookup_fmap, Heq.
Qed.

Lemma status_alter_exec e j (l : list Job) :
  j_status <$> alter (set_exec e) j l = j_status <$> l.
Proof.
  rewrite (list_fmap_alter j_status (set_exec e) id); [by rewrite list_alter_id|].
  by apply Forall_forall.
Qed.

Lemma exec_started_refl (l : list Job) : Forall2 exec_started l l.
Proof.
  apply Forall2_same_length_lookup_2; [done|]. intros ?????; simplify_eq; by left.
Qed.

Lemma run_loop_jobs q s : Forall2 exec_started (jobs s) (jobs (run_loop q s)).
Proof.
  revert s. induction q as [|j q IH]; intros s; cbn [run_loop].
  - case_decide; apply exec_started_refl.
  - case_decide; [|apply exec_started_refl].
    destruct (item_aborted j (set_queue q s)).
    + apply (IH (set_queue q s)).
    + set (t := executeJob j (set_processingJobs (processingJobs (set_queue q s) + 1)
                                (set_queue q s))).
      apply (Forall2_trans exec_started exec_started exec_started _ (jobs t));
        [|  |apply IH].
      * unfold exec_started. intros x y z [->| ->] [->| ->];
          [by left|by right|by right|by right].
      * unfold t. rewrite executeJob_jobs. fields.
        apply Forall2_same_length_lookup_2; [by rewrite length_alter|].
        intros i x y Hx Hy. destruct (decide (i = j)) as [->|Hne].
        -- rewrite list_lookup_alter_eq, Hx in Hy. simplify_eq/=. by right.
        -- rewrite list_lookup_alter_ne in Hy by done. simplify_eq. by left.
Qed.

Lemma run_loop_lookup q s j b :
  jobs s !! j = Some b →
  ∃ b', jobs (run_loop q s) !! j = Some b' ∧ exec_started b b'.
Proof. intros Hj. apply (Forall2_lookup_l _ _ _ _ _ (run_loop_jobs q s) Hj). Qed.

(** The fields [run] leaves alone. *)
Lemma run_loop_frame q s :
  queueAbort (run_loop q s) = queueAbort s ∧
  signals (run_loop q s) = signals s ∧
  abortJobListeners (run_loop q s) = abortJobListeners s ∧
  emitted (run_loop q s) = emitted s ∧
  waiters (run_loop q s) = waiters s ∧
  jobProcessedListeners (run_loop q s) = jobProcessedListeners s ∧
  jobCancelledListeners (run_loop q s) = jobCancelledListeners s.
Proof.
  revert s. induction q as [|j q IH]; intros s; cbn [run_loop].
  - by case_decide.
  - case_decide; [|done].
    destruct (item_aborted j (set_queue q s)).
    + apply (IH (set_queue q s)).
    + match goal with |- context [run_loop q ?t] =>
        destruct (IH t) as (E1 & E2 & E3 & E4 & E5 & E6 & E7) end.
      rewrite E1, E2, E3, E4, E5, E6, E7.
      unfold executeJob. by destruct (jobs _ !! j).
Qed.

Lemma run_loop_executed q s k :
  k ∈ executed (run_loop q s) → k ∈ executed s ∨ (k ∈ q ∧ item_aborted k s = false).
Proof.
  revert s. induction q as [|j q IH]; intros s; cbn [run_loop].
  - case_decide; by left.
  - case_decide; [|by left].
    destruct (item_aborted j (set_queue q s)) eqn:Hab.
    + intros [Hk|[Hk Hn]]%IH; [by left|right]. split; [by right|done].
    + intros [Hk|[Hk Hn]]%IH.
      * assert (k ∈ executed s ∨ k = j) as [?| ->].
        { revert Hk. unfold executeJob. destruct (jobs _ !! j); fields; [|by left].
          rewrite elem_of_app, list_elem_of_singleton. tauto. }
        -- by left.
        -- right. split; [by left|done].
      * right. split; [by right|]. rewrite <- Hn. symmetry.
        apply item_aborted_jobs. rewrite executeJob_jobs. fields.
        apply status_alter_exec.
Qed.

(** A cancelled entry at the head is dropped and the loop goes on. *)
Lemma run_skip s j q :
  queue s = j :: q → item_aborted j s = true →
  (processingJobs s < concurrency → run s = run (set_queue q s)) ∧
  (¬ processingJobs s < concurrency → run s = s).
Proof.
  intros Hq Hab. unfold run. rewrite Hq. cbn [run_loop queue set_queue]. split; intros HK.
  - rewrite decide_True by done.
    assert (item_aborted j (set_queue q s) = true) as -> by done. done.
  - by rewrite decide_False.
Qed.

(** With a free slot, [run] drops the cancelled entries in front of a
    pending job and hands that job to the executor. *)
Lemma run_loop_reaches q j s :
  (∀ k, k ∈ q → item_aborted k s = true) → item_aborted j s = false →
  is_Some (jobs s !! j) → processingJobs s < concurrency →
  j ∈ executed (run_loop (q ++ [j]) s).
Proof.
  revert s. induction q as [|k q IH]; intros s Hq Hj Hsome HK; cbn [app run_loop].
  - rewrite decide_True by done.
    assert (item_aborted j (set_queue [] s) = false) as -> by done.
    destruct Hsome as [b Hb].
    match goal with |- _ ∈ executed (if decide ?P then _ else _) => destruct (decide P) end;
      rewrite (executeJob_eq j b) by done; cbn [executed];
      apply elem_of_app; right; by apply list_elem_of_singleton.
  - rewrite decide_True by done.
    assert (item_aborted k (set_queue (q ++ [j]) s) = true) as ->.
    { apply (Hq k). by left. }
    apply IH; try done. intros i Hi. apply (Hq i). by right.
Qed.

(** ** Concrete runs *)

Lemma reachable_after l : reachable (after l).
Proof.
  unfold after. destruct (steps init l) as [s|] eqn:Hl; cbn [default].
  - eapply steps_reachable; [apply reachable_init|done].
  - apply reachable_init.
Qed.

(** ** First settlements, as the caller and the observers see them *)

Lemma not_elem_of_remove_listener j l : j ∉ remove_listener j l.
Proof. rewrite elem_of_remove_listener. tauto. Qed.

Lemma finished_first_settlement j b st a p ev logs W L1 L2 s :
  jobs s !! j = Some b →
  first_settlement j b st p ev s
    (with_waits W L1 L2 (finished j b (job_after st a p b) ev logs s)).
Proof.
  intros Hj. assert (j < length (jobs s))%nat by (by eapply lookup_lt_Some).
  unfold first_settlement, released, status_of, promise_of, with_waits, finished.
  fields. rewrite list_lookup_insert_eq by done.
  repeat split; try done.
  - apply not_elem_of_remove_listener.
  - apply not_elem_of_remove_listener.
  - intros sg ->. unfold signal_of. fields. rewrite lookup_alter_eq.
    destruct (signals s !! sg); cbn; [apply not_elem_of_remove_listener|].
    apply not_elem_of_nil.
  - apply lookup_delete_eq.
Qed.

Lemma timeout_fired_first j b s :
  Inv s → jobs s !! j = Some b → j_status b = pending →
  first_settlement j b aborted (Rejected (new_Error "timeout"))
    (job_cancelled (j_id b) (j_data b) timeout_reason (length (queue s)))
    s (timeout_fired j s).
Proof.
  intros HI Hj Hst. destruct (inv_pending _ HI j b Hj Hst) as (Hab & Hpr & _).
  destruct (timeout_fired_pending j b s Hj Hst) as (W & L1 & L2 & ->).
  unfold cancelled, cancel_reason. rewrite Hab, Hpr.
  by apply finished_first_settlement.
Qed.

Lemma onTimeoutOrAbort_first j b s :
  Inv s → jobs s !! j = Some b → j_status b = pending →
  first_settlement j b aborted (Rejected (new_Error "timeout"))
    (job_cancelled (j_id b) (j_data b) timeout_reason (length (queue s)))
    s (onTimeoutOrAbort j s).
Proof.
  intros HI Hj Hst. destruct (inv_pending _ HI j b Hj Hst) as (Hab & Hpr & _).
  destruct (onTimeoutOrAbort_pending j s b Hj Hst) as (W & L1 & L2 & ->).
  unfold cancelled, cancel_reason. rewrite Hab, Hpr.
  by apply finished_first_settlement.
Qed.

Lemma jobAbort_abort_first j b s :
  Inv s → jobs s !! j = Some b → j_status b = pending →
  first_settlement j b aborted (Rejected (new_Error "abort"))
    (job_cancelled (j_id b) (j_data b) abort_reason (length (queue s)))
    s (jobAbort_abort j s).
Proof.
  intros HI Hj Hst. destruct (inv_pending _ HI j b Hj Hst) as (Hab & Hpr & _).
  destruct (jobAbort_abort_pending j s b Hj Hab Hst) as (W & L1 & L2 & ->).
  unfold aborted_state. rewrite Hpr.
  by apply finished_first_settlement.
Qed.

Lemma resolve_first j b output s :
  Inv s → jobs s !! j = Some b → j_status b = pending →
  first_settlement j b processed (Fulfilled output)
    (job_processed (j_id b) (j_data b) (StatusOutput output) (length (queue s)))
    s (resolve j output s).
Proof.
  intros HI Hj Hst. destruct (inv_pending _ HI j b Hj Hst) as (Hab & Hpr & _).
  destruct (resolve_pending j output s b Hj Hst) as (W & L1 & L2 & ->).
  rewrite Hpr. by apply finished_first_settlement.
Qed.

Lemma reject_first j b err error s :
  Inv s → jobs s !! j = Some b → j_status b = pending → to_Error err = Some error →
  ∃ s', reject j err s = Returns s' ∧
    first_settlement j b processed (Rejected error)
      (job_processed (j_id b) (j_data b) (StatusError error) (length (queue s)))
      s s'.
Proof.
  intros HI Hj Hst He. destruct (inv_pending _ HI j b Hj Hst) as (Hab & Hpr & _).
  destruct (reject_pending j err error s b Hj Hst He) as (W & L1 & L2 & ->).
  eexists. split; [done|]. rewrite Hpr. by apply finished_first_settlement.
Qed.

Lemma cancels_settles_only a : cancels a → settles_only a.
Proof. by destruct a. Qed.

(** ** A job that left [pending] stays as it is *)

Lemma final_stable s a s' j b :
  Inv s → step s a = Some s' → jobs s !! j = Some b → j_status b ≠ pending →
  ∃ b', jobs s' !! j = Some b' ∧ j_status b' = j_status b ∧ j_promise b' = j_promise b.
Proof.
  intros HI Hstep Hj Hst.
  assert (∀ t, state_le s t →
    ∃ b', jobs t !! j = Some b' ∧ j_status b' = j_status b ∧ j_promise b' = j_promise b)
    as Hle.
  { intros t Ht. destruct (Forall2_lookup_l _ _ _ _ _ (le_jobs _ _ Ht) Hj)
      as (b' & Hb' & Hbb'). exists b'. split; [done|]. by apply (le_final _ _ Hbb'). }
  assert (∀ t q x, jobs t !! j = Some x → j_status x = j_status b →
    j_promise x = j_promise b →
    ∃ b', jobs (run_loop q t) !! j = Some b' ∧ j_status b' = j_status b ∧
          j_promise b' = j_promise b) as Hrun.
  { intros t q x Hx E1 E2. destruct (run_loop_lookup q t j x Hx) as (b' & Hb' & Hs).
    exists b'. split; [done|]. by destruct Hs as [-> | ->]. }
  destruct a as [id data qt sig| | | | |k r|k| |];
    try (by apply Hle; eapply step_state_le); cbn [step] in Hstep.
  - case_decide; [done|]. simplify_eq. rewrite process_enqueued. unfold run. apply (Hrun _ _ b); try done.
    cbn [jobs enqueued]. by apply lookup_app_l_Some.
  - case_decide as Hex; [|done]. simplify_eq.
    apply exec_of_Some in Hex as (bk & Hk & Hex).
    destruct (settles_spec k r s bk Hk Hex) as (Hle1 & _).
    destruct (Hle _ Hle1) as (b' & Hb' & E1 & E2). fields.
    destruct (decide (k = j)) as [->|Hne].
    + rewrite list_lookup_alter_eq, Hb'. by eexists.
    + rewrite list_lookup_alter_ne by done. by eexists.
  - case_decide as Hex; [|done]. simplify_eq. unfold run.
    destruct (decide (k = j)) as [->|Hne].
    + apply (Hrun _ _ (set_exec Released b)); try done.
      fields. by rewrite list_lookup_alter_eq, Hj.
    + apply (Hrun _ _ b); try done. fields. by rewrite list_lookup_alter_ne.
Qed.

(** A cancelled job the executor was not called for is never handed to it. *)
Lemma skipped_stable s a s' j b :
  Inv s → step s a = Some s' → jobs s !! j = Some b → j_status b = aborted →
  j ∉ executed s → j ∉ executed s'.
Proof.
  intros HI Hstep Hj Hst Hex.
  assert (∀ t q, executed t = executed s → jobs t !! j = Some b ∨
            (∃ e, jobs t !! j = Some (set_exec e b)) →
            j ∉ executed (run_loop q t)) as Hrun.
  { intros t q Ht Hjt [Hin|[_ Hab]]%run_loop_executed; [by rewrite Ht in Hin|].
    revert Hab. unfold item_aborted, status_of.
    destruct Hjt as [-> |[e ->]]; cbn; rewrite Hst; by rewrite bool_decide_eq_false. }
  destruct a as [id data qt sig| | | | |k r|k| |];
    try (by rewrite (le_executed _ _ (step_state_le _ _ _ HI Hstep Logic.I)));
    cbn [step] in Hstep.
  - case_decide; [done|]. simplify_eq. rewrite process_enqueued. unfold run. apply Hrun; [done|].
    left. cbn [jobs enqueued]. by apply lookup_app_l_Some.
  - case_decide as Hk; [|done]. simplify_eq.
    apply exec_of_Some in Hk as (bk & Hk & Hexk).
    destruct (settles_spec k r s bk Hk Hexk) as (Hle1 & _).
    fields. by rewrite (le_executed _ _ Hle1).
  - case_decide as Hk; [|done]. simplify_eq. unfold run. apply Hrun; [done|].
    fields. destruct (decide (k = j)) as [->|Hne].
    + right. exists Released. by rewrite list_lookup_alter_eq, Hj.
    + left. by rewrite list_lookup_alter_ne.
Qed.

Lemma skipped_forever l s s'' j b :
  Inv s → steps s l = Some s'' → jobs s !! j = Some b → j_status b = aborted →
  j ∉ executed s →
  ∃ b'', jobs s'' !! j = Some b'' ∧ j_status b'' = aborted ∧
         j_promise b'' = j_promise b ∧ j_exec b'' = NotStarted ∧ j ∉ executed s''.
Proof.
  revert s b. induction l as [|a l IH]; intros s b HI Hl Hj Hst Hex; cbn [steps] in Hl.
  - simplify_eq. exists b. repeat split; try done. by apply (inv_exec _ HI j b).
  - destruct (step s a) as [s1|] eqn:Hstep; [|done].
    destruct (final_stable s a s1 j b HI Hstep Hj) as (b1 & Hb1 & E1 & E2);
      [by rewrite Hst|].
    destruct (IH s1 b1) as (b'' & ? & ? & ? & ? & ?); try done.
    + by eapply Inv_step.
    + congruence.
    + by eapply skipped_stable.
    + exists b''. repeat split; try done. congruence.
Qed.

Lemma queue_not_executed s j : Inv s → j ∈ queue s → j ∉ executed s.
Proof.
  intros HI Hin Hex. apply (inv_executed_popped _ HI) in Hex.
  rewrite (inv_queue _ HI) in Hin. apply elem_of_seq in Hin. lia.
Qed.

Lemma cancels_job_hits s a s' j b :
  Inv s → jobs s !! j = Some b → j_status b = pending →
  cancels_job a j b → step s a = Some s' →
  status_of j s' = Some aborted ∧
  promise_of j s' = Some (Rejected (new_Error (cancel_message a))) ∧
  state_le s s'.
Proof.
  intros HI Hj Hst Ha Hstep.
  assert (state_le s s') as Hle.
  { apply (step_state_le s a s' HI Hstep). by destruct a. }
  split; [|split; [|done]];
    destruct a as [|id| |sg|k| | | |]; try done; cbn [step cancels_job] in *.
  - simplify_eq. by destruct (abortJob_hits (j_id b) s j b HI Hj Hst eq_refl).
  - simplify_eq. destruct (abort_spec s HI) as (_ & Hhit & _).
    by destruct (Hhit j b Hj Hst).
  - destruct (ac_aborted (signal_of sg s)); [done|]. simplify_eq.
    by destruct (signal_fired_hits sg s j b HI Hj Hst Ha).
  - subst k. rewrite Hj in Hstep. destruct (j_timeout b); [|done]. simplify_eq.
    by destruct (timeout_fired_first j b s HI Hj Hst).
  - simplify_eq. by destruct (abortJob_hits (j_id b) s j b HI Hj Hst eq_refl) as (_ & ? & _).
  - simplify_eq. destruct (abort_spec s HI) as (_ & Hhit & _).
    by destruct (Hhit j b Hj Hst) as (_ & ? & _).
  - destruct (ac_aborted (signal_of sg s)); [done|]. simplify_eq.
    by destruct (signal_fired_hits sg s j b HI Hj Hst Ha) as (_ & ? & _).
  - subst k. rewrite Hj in Hstep. destruct (j_timeout b); [|done]. simplify_eq.
    by destruct (timeout_fired_first j b s HI Hj Hst) as (_ & ? & _).
Qed.

Lemma positive_number_spec (t : Q) : positive_number t = true ↔ (0 < t)%Q.
Proof.
  unfold positive_number. rewrite negb_true_iff, <- not_true_iff_false, Qle_bool_iff.
  split; [apply Qnot_le_lt|apply Qlt_not_le].
Qed.

Lemma process_new_job id data queueTimeout signal s :
  ∃ b', jobs (process id data queueTimeout signal s) !! length (jobs s) = Some b' ∧
        exec_started (submitted_job id data queueTimeout signal) b'.
Proof.
  rewrite process_enqueued. unfold run. apply run_loop_lookup.
  cbn [jobs enqueued]. rewrite lookup_app_r by done. by rewrite Nat.sub_diag.
Qed.

(** ** waitForJob *)

Lemma wait_over_waits w wt p t t' :
  waits t' = waits t → wait_over w wt p t → wait_over w wt p t'.
Proof. intros [= E1 E2 E3]. unfold wait_over. by rewrite E1, E2, E3. Qed.

Lemma waiter_listener_hit w id t wt :
  waiters t !! w = Some wt → w_jobId wt = id → w_promise wt = Unsettled →
  wait_over w wt (Fulfilled ()) (waiter_listener w id t).
Proof.
  intros Hw Hid Hp. unfold waiter_listener. rewrite Hw, decide_True by done.
  unfold wait_over, waiter_cleanup. fields.
  rewrite !list_lookup_alter_eq, Hw. cbn [fmap option_fmap option_map].
  unfold map_waiter_promise, clear_waiter_timeout.
  cbn [w_promise w_jobId w_timeout]. rewrite Hp.
  split; [done|]. split; apply not_elem_of_remove_listener.
Qed.

Lemma waiter_listener_over w' w wt id p t :
  p ≠ Unsettled → wait_over w wt p t → wait_over w wt p (waiter_listener w' id t).
Proof.
  intros Hp (Hw & H1 & H2). unfold waiter_listener.
  destruct (waiters t !! w') as [wt'|] eqn:Hw'; [|done]. case_decide; [|done].
  unfold wait_over, waiter_cleanup. fields.
  rewrite !elem_of_remove_listener. split; [|tauto].
  destruct (decide (w' = w)) as [->|Hne].
  - rewrite !list_lookup_alter_eq, Hw. cbn [fmap option_fmap option_map].
    unfold map_waiter_promise, clear_waiter_timeout.
    cbn [w_promise w_jobId w_timeout]. by destruct p.
  - by rewrite !list_lookup_alter_ne.
Qed.

Lemma waiter_listener_frame w' w id t :
  w' ≠ w → waiters (waiter_listener w' id t) !! w = waiters t !! w.
Proof.
  intros Hne. unfold waiter_listener.
  destruct (waiters t !! w') as [wt'|]; [|done]. case_decide; [|done].
  unfold waiter_cleanup. fields. by rewrite !list_lookup_alter_ne.
Qed.

Lemma notify_resolves id l t w wt :
  w ∈ l → waiters t !! w = Some wt → w_jobId wt = id → w_promise wt = Unsettled →
  wait_over w wt (Fulfilled ()) (notify id l t).
Proof.
  intros Hin Hw Hid Hp. apply list_elem_of_split_l in Hin as (l1 & l2 & -> & Hnin).
  unfold notify. rewrite foldl_app. cbn [foldl].
  assert (waiters (foldl (λ s w0, waiter_listener w0 id s) t l1) !! w = Some wt) as Hw1.
  { clear Hp Hid. revert t Hw. induction l1 as [|w' l1 IH]; intros t Hw; [done|].
    apply not_elem_of_cons in Hnin as [Hne Hnin]. cbn [foldl]. apply IH; [done|].
    by rewrite waiter_listener_frame. }
  pose proof (waiter_listener_hit w id _ wt Hw1 Hid Hp) as Hover.
  revert Hover. generalize (waiter_listener w id (foldl (λ s w0, waiter_listener w0 id s) t l1)).
  induction l2 as [|w' l2 IH]; intros t2 Hover; [done|].
  cbn [foldl]. apply IH. by apply waiter_listener_over.
Qed.

Lemma waiter_timeout_over w wt t :
  waiters t !! w = Some wt → w_promise wt = Unsettled →
  wait_over w wt (Rejected (new_Error "Timeout waiting for job")) (waiter_timeout w t).
Proof.
  intros Hw Hp. unfold wait_over, waiter_timeout, waiter_cleanup. fields.
  rewrite !list_lookup_alter_eq, Hw. cbn [fmap option_fmap option_map].
  unfold map_waiter_promise, clear_waiter_timeout.
  cbn [w_promise w_jobId w_timeout]. rewrite Hp.
  split; [done|]. split; apply not_elem_of_remove_listener.
Qed.

(** An event about a job with another id leaves a wait as it is. *)
Lemma waiting_waits w wt t t' : waits t' = waits t → waiting w wt t → waiting w wt t'.
Proof. intros [= E1 E2 E3]. unfold waiting. by rewrite E1, E2, E3. Qed.

Lemma waiter_listener_miss w' w wt id t :
  w_jobId wt ≠ id → waiting w wt t → waiting w wt (waiter_listener w' id t).
Proof.
  intros Hid (Hw & Hp & H1 & H2). unfold waiter_listener.
  destruct (waiters t !! w') as [wt'|] eqn:Hw'; [|done]. case_decide as E; [|done].
  assert (w' ≠ w) as Hne by (intros ->; by simplify_eq).
  unfold waiting, waiter_cleanup. fields.
  rewrite !list_lookup_alter_ne by done. by rewrite !elem_of_remove_listener.
Qed.

Lemma notify_miss id l t w wt :
  w_jobId wt ≠ id → waiting w wt t → waiting w wt (notify id l t).
Proof.
  intros Hid. unfold notify. revert t.
  induction l as [|w' l IH]; intros t Ht; cbn [foldl]; [done|].
  apply IH. by apply waiter_listener_miss.
Qed.

Lemma waiting_other_job w wt j b t :
  waiting w wt t → jobs t !! j = Some b → j_id b ≠ w_jobId wt →
  (∀ r, waiting w wt (settle j r t)) ∧
  waiting w wt (onTimeoutOrAbort j t) ∧
  waiting w wt (jobAbort_abort j t).
Proof.
  intros Hwait Hj Hid.
  assert (∀ l X, waiting w wt (copy_waits (notify (j_id b) l t) X)) as Hn.
  { intros l X. apply (waiting_waits w wt (notify (j_id b) l t)); [done|].
    apply notify_miss; [congruence|done]. }
  assert (∀ X, waits X = waits t → waiting w wt X) as Hsame
    by (intros X HX; by eapply waiting_waits).
  split; [|split].
  - intros r. destruct (decide (j_status b = pending)) as [Hst|Hst];
      destruct r as [output|err].
    + cbn [settle]. rewrite (resolve_pending_eq j output t b Hj Hst). apply Hn.
    + destruct (to_Error err) as [error|] eqn:He.
      * rewrite (settle_rejected_pending j err error t b Hj Hst He). apply Hn.
      * rewrite (settle_rejected_throws j err t b Hj Hst He). by apply Hsame.
    + cbn [settle]. rewrite (resolve_late j output t b Hj Hst). by apply Hsame.
    + rewrite (settle_rejected_late j err t b Hj Hst). by apply Hsame.
  - destruct (decide (j_status b = pending)) as [Hst|Hst].
    + rewrite (onTimeoutOrAbort_pending_eq j t b Hj Hst). apply Hn.
    + rewrite (onTimeoutOrAbort_late j t b Hj Hst). by apply Hsame.
  - destruct (j_jobAbort b) eqn:Hab; [by rewrite (jobAbort_abort_aborted j t b Hj Hab)|].
    destruct (decide (j_status b = pending)) as [Hst|Hst].
    + rewrite (jobAbort_abort_pending_eq j t b Hj Hab Hst). apply Hn.
    + rewrite (jobAbort_abort_late j t b Hj Hab Hst). by apply Hsame.
Qed.

(** ** A waiter without a timer is never rejected *)

Lemma quiet_waiters w s s' : waiters s' = waiters s → quiet w s → quiet w s'.
Proof. intros E. unfold quiet. by rewrite E. Qed.

Lemma quiet_waiter_listener w w' id s :
  quiet w s → quiet w (waiter_listener w' id s).
Proof.
  intros (wt & Hw & Ht & Hp). unfold waiter_listener.
  destruct (waiters s !! w') as [wt'|] eqn:Hw'; [|by exists wt].
  case_decide; [|by exists wt]. unfold quiet, waiter_cleanup. fields.
  destruct (decide (w' = w)) as [->|Hne].
  - rewrite !list_lookup_alter_eq, Hw. cbn [fmap option_fmap option_map].
    eexists. split; [done|]. unfold map_waiter_promise, clear_waiter_timeout.
    cbn [w_promise w_timeout]. split; [done|].
    intros e. specialize (Hp e). by destruct (w_promise wt).
  - rewrite !list_lookup_alter_ne by done. by exists wt.
Qed.

Lemma quiet_foldl {A} (f : State → A → State) w l s :
  (∀ t x, quiet w t → quiet w (f t x)) → quiet w s → quiet w (foldl f s l).
Proof.
  intros Hf. revert s. induction l as [|x l IH]; intros s Hs; cbn [foldl]; auto.
Qed.

Lemma quiet_copy_notify w id l s X :
  quiet w s → quiet w (copy_waits (notify id l s) X).
Proof.
  intros Hs. apply (quiet_waiters w (notify id l s)); [done|].
  unfold notify. apply quiet_foldl; [|done]. intros t x. apply quiet_waiter_listener.
Qed.

Lemma quiet_onTimeoutOrAbort w j s : quiet w s → quiet w (onTimeoutOrAbort j s).
Proof.
  intros Hs. destruct (jobs s !! j) as [b|] eqn:Hj.
  - destruct (decide (j_status b = pending)) as [Hst|Hst].
    + rewrite (onTimeoutOrAbort_pending_eq j s b Hj Hst). by apply quiet_copy_notify.
    + by rewrite (onTimeoutOrAbort_late j s b Hj Hst).
  - by rewrite (onTimeoutOrAbort_dangling j s Hj).
Qed.

Lemma quiet_jobAbort_abort w j s : quiet w s → quiet w (jobAbort_abort j s).
Proof.
  intros Hs. destruct (jobs s !! j) as [b|] eqn:Hj.
  - destruct (j_jobAbort b) eqn:Hab; [by rewrite (jobAbort_abort_aborted j s b Hj Hab)|].
    destruct (decide (j_status b = pending)) as [Hst|Hst].
    + rewrite (jobAbort_abort_pending_eq j s b Hj Hab Hst). by apply quiet_copy_notify.
    + by rewrite (jobAbort_abort_late j s b Hj Hab Hst).
  - by rewrite (jobAbort_abort_dangling j s Hj).
Qed.

Lemma quiet_settle w j r s : quiet w s → quiet w (settle j r s).
Proof.
  intros Hs. destruct (jobs s !! j) as [b|] eqn:Hj.
  - destruct (decide (j_status b = pending)) as [Hst|Hst]; destruct r as [output|err].
    + cbn [settle]. rewrite (resolve_pending_eq j output s b Hj Hst).
      by apply quiet_copy_notify.
    + destruct (to_Error err) as [error|] eqn:He.
      * rewrite (settle_rejected_pending j err error s b Hj Hst He).
        by apply quiet_copy_notify.
      * by rewrite (settle_rejected_throws j err s b Hj Hst He).
    + cbn [settle]. by rewrite (resolve_late j output s b Hj Hst).
    + by rewrite (settle_rejected_late j err s b Hj Hst).
  - by rewrite (settle_dangling j r s Hj).
Qed.

Lemma quiet_dispatch_abort w listeners s :
  quiet w s → quiet w (dispatch_abort listeners s).
Proof.
  unfold dispatch_abort. apply quiet_foldl. intros t j Ht.
  case_decide; [by apply quiet_jobAbort_abort|done].
Qed.

Lemma quiet_run_loop w q s : quiet w s → quiet w (run_loop q s).
Proof.
  apply quiet_waiters. by destruct (run_loop_frame q s) as (_ & _ & _ & _ & -> & _).
Qed.

Lemma quiet_step w s a s' : step s a = Some s' → quiet w s → quiet w s'.
Proof.
  intros Hstep Hs.
  destruct a as [id data qt sig|id| |sg|j|j r|j|jobId timeoutMs|w']; cbn [step] in Hstep.
  - case_decide; [done|]. simplify_eq. rewrite process_enqueued. by apply quiet_run_loop.
  - simplify_eq. unfold abortJob. cbn zeta. apply quiet_foldl; [|done].
    intros t j Ht. unfold handleAbortEvent. destruct (jobs t !! j); [|done].
    case_decide; [by apply quiet_jobAbort_abort|done].
  - simplify_eq. unfold abort. cbn zeta.
    match goal with |- quiet w (set_queueAbort _ ?t) =>
      apply (quiet_waiters w t); [done|] end.
    destruct (ac_aborted _); [done|]. by apply quiet_dispatch_abort.
  - destruct (ac_aborted (signal_of sg s)); [done|]. simplify_eq.
    by apply quiet_dispatch_abort.
  - destruct (jobs s !! j) as [b|]; [|done]. destruct (j_timeout b); [|done].
    simplify_eq. by apply quiet_onTimeoutOrAbort.
  - case_decide; [|done]. simplify_eq.
    apply (quiet_waiters w (settle j r s)); [done|]. by apply quiet_settle.
  - case_decide; [|done]. simplify_eq. by apply quiet_run_loop.
  - simplify_eq. destruct Hs as (wt & Hw & Ht & Hp).
    unfold waitForJob. cbn zeta. destruct (jobStatus_undefined jobId s); [by exists wt|].
    assert (w < length (waiters s))%nat as Hlt by (by eapply lookup_lt_Some).
    exists wt. split; [|done].
    destruct (positive_number _); cbn [fst]; fields;
      rewrite ?list_lookup_alter_ne by lia; by rewrite lookup_app_l.
  - destruct (waiters s !! w') as [wt'|] eqn:Hw'; [|done].
    destruct (w_timeout wt') eqn:Ht'; [|done]. simplify_eq.
    destruct Hs as (wt & Hw & Ht & Hp).
    assert (w' ≠ w) as Hne by (intros ->; congruence).
    exists wt. split; [|done]. unfold waiter_timeout, waiter_cleanup. fields.
    by rewrite !list_lookup_alter_ne.
Qed.

Lemma quiet_steps w l s s' : steps s l = Some s' → quiet w s → quiet w s'.
Proof.
  revert s. induction l as [|a l IH]; intros s Hl Hs; cbn [steps] in Hl.
  - by simplify_eq.
  - destruct (step s a) as [s1|] eqn:Hstep; [|done].
    eapply IH; [done|]. by eapply quiet_step.
Qed.

(** * The bookkeeping in detail *)

(** ** Every callback is a sequence of updates *)

Lemma updates_two s1 s2 s3 : update s1 s2 → update s2 s3 → rtc update s1 s3.
Proof. intros H1 H2. eapply rtc_l; [exact H1|]. by apply rtc_once. Qed.

Lemma updates_jobAbort_abort j s : rtc update s (jobAbort_abort j s).
Proof.
  destruct (jobs s !! j) as [job|] eqn:Hj.
  - destruct (j_jobAbort job) eqn:Hab.
    { by rewrite (jobAbort_abort_aborted _ _ _ Hj Hab). }
    destruct (decide (j_status job = pending)) as [Hst|Hst].
    + destruct (jobAbort_abort_pending j s job Hj Hab Hst) as (W & L1 & L2 & ->).
      eapply updates_two; [|apply update_waits].
      apply update_settled; [done..|]. apply (settled_cancelled _ _ abort_reason).
    + rewrite (jobAbort_abort_late _ _ _ Hj Hab Hst).
      eapply updates_two; [|apply update_log]. by eapply update_jobAbort.
  - by rewrite (jobAbort_abort_dangling _ _ Hj).
Qed.

Lemma updates_settle j r s : rtc update s (settle j r s).
Proof.
  destruct (jobs s !! j) as [job|] eqn:Hj.
  - destruct (decide (j_status job = pending)) as [Hst|Hst].
    + destruct r as [output|err]; cbn [settle].
      * destruct (resolve_pending j output s job Hj Hst) as (W & L1 & L2 & ->).
        eapply updates_two; [|apply update_waits].
        apply update_settled; [done..|]. apply settled_output.
      * destruct (to_Error err) as [error|] eqn:He.
        -- destruct (reject_pending j err error s job Hj Hst He) as (W & L1 & L2 & ->).
           eapply updates_two; [|apply update_waits].
           apply update_settled; [done..|]. apply settled_error.
        -- rewrite (reject_throws j err s job Hj Hst He). apply rtc_once, update_unhandled.
    + destruct r as [output|err]; cbn [settle].
      * rewrite (resolve_late _ _ _ _ Hj Hst). apply rtc_once, update_log.
      * rewrite (reject_late _ _ _ _ Hj Hst). apply rtc_once, update_log.
  - by rewrite (settle_dangling j r s Hj).
Qed.

Lemma updates_timeout_fired j s : rtc update s (timeout_fired j s).
Proof.
  destruct (jobs s !! j) as [b|] eqn:Hj.
  - destruct (decide (j_status b = pending)) as [Hst|Hst].
    + destruct (timeout_fired_pending j b s Hj Hst) as (W & L1 & L2 & ->).
      eapply updates_two; [|apply update_waits].
      apply update_settled; [done..|]. apply settled_cancelled.
    + rewrite (timeout_fired_late j b s Hj Hst).
      eapply updates_two; [apply update_timer|apply update_log].
  - unfold timeout_fired. rewrite onTimeoutOrAbort_dangling.
    + apply rtc_once, update_timer.
    + fields. by rewrite list_lookup_alter_eq, Hj.
Qed.

Lemma updates_foldl (f : State → nat → State) l s :
  (∀ t j, rtc update t (f t j)) → rtc update s (foldl f s l).
Proof.
  intros Hf. revert s. induction l as [|j l IH]; intros s; cbn [foldl]; [done|].
  etrans; [apply Hf|apply IH].
Qed.

Lemma updates_dispatch_abort listeners s : rtc update s (dispatch_abort listeners s).
Proof.
  unfold dispatch_abort. apply updates_foldl. intros t j.
  case_decide; [apply updates_jobAbort_abort|done].
Qed.

Lemma updates_abortJob id s : rtc update s (abortJob id s).
Proof.
  unfold abortJob. cbn zeta. eapply rtc_l; [apply update_abort_job|].
  apply updates_foldl. intros t j. unfold handleAbortEvent.
  destruct (jobs t !! j); [|done]. case_decide; [apply updates_jobAbort_abort|done].
Qed.

Lemma updates_abort s : rtc update s (abort s).
Proof.
  unfold abort. cbn zeta.
  eapply rtc_l; [apply update_log|]. eapply rtc_r; [|by apply update_queueAbort, sublist_nil_l].
  destruct (ac_aborted (queueAbort (log (LogShutdown (length (queue s))) s))); [done|].
  eapply rtc_l; [|apply updates_dispatch_abort]. by apply update_queueAbort.
Qed.

Lemma updates_signal_fired sg s : rtc update s (signal_fired sg s).
Proof.
  unfold signal_fired. eapply rtc_l; [apply update_signal|]. apply updates_dispatch_abort.
Qed.

Lemma updates_run_loop q s : queue s = q → Inv s → rtc update s (run_loop q s).
Proof.
  revert s. induction q as [|j q IH]; intros s Hq HI; cbn [run_loop].
  - by case_decide.
  - case_decide; [|done].
    destruct (item_aborted j (set_queue q s)) eqn:Hab.
    + eapply rtc_l; [by apply (update_skip j q s)|].
      apply IH; [done|]. by apply (Inv_skip s j q).
    + destruct (queue_head s j q HI Hq) as (Hj & _ & Hlen & _).
      assert (is_Some (jobs s !! j)) as [bj Hbj].
      { apply lookup_lt_is_Some. unfold popped in Hj. rewrite Hq in Hj.
        simpl in Hj. lia. }
      assert (j_exec bj = NotStarted) as Hns.
      { apply (inv_exec _ HI j bj Hbj). intros Hin.
        apply (inv_executed_popped _ HI) in Hin. lia. }
      assert (j_status bj = pending) as Hst.
      { pose proof (inv_processed _ HI j bj Hbj) as Hproc.
        assert (j_status bj ≠ aborted) as Hna.
        { intros E. assert (item_aborted j s = true) as Ht.
          - apply item_aborted_true. eauto.
          - change (item_aborted j s = false) in Hab. by rewrite Ht in Hab. }
        destruct (j_status bj); [done|by destruct Hproc|done]. }
      eapply rtc_l; [by apply (update_execute j q bj s)|].
      apply IH.
      * by rewrite (executeJob_eq j bj).
      * by apply (Inv_execute s j q).
Qed.

Lemma step_updates s a s' : Inv s → step s a = Some s' → rtc update s s'.
Proof.
  intros HI Hstep.
  destruct a as [id data qt sig|id| |sg|j|j r|j|jobId timeoutMs|w]; cbn [step] in Hstep.
  - case_decide; [done|]. simplify_eq. rewrite process_enqueued.
    eapply rtc_l; [by apply update_enqueued|]. apply updates_run_loop; [done|].
    by apply Inv_enqueued.
  - simplify_eq. apply updates_abortJob.
  - simplify_eq. apply updates_abort.
  - destruct (ac_aborted (signal_of sg s)); [done|]. simplify_eq.
    apply updates_signal_fired.
  - destruct (jobs s !! j) as [b|]; [|done]. destruct (j_timeout b); [|done].
    simplify_eq. apply updates_timeout_fired.
  - case_decide as Hex; [|done]. simplify_eq.
    apply exec_of_Some in Hex as (b & Hj & Hex).
    destruct (settles_spec j r s b Hj Hex) as (Hle & b1 & Hj1 & Hb1).
    eapply rtc_r; [apply updates_settle|].
    apply (update_exec j b1); [done| |done]. by rewrite (le_exec _ _ Hb1), Hex.
  - case_decide as Hex; [|done]. simplify_eq.
    apply exec_of_Some in Hex as (b & Hj & Hex).
    eapply rtc_l; [apply (update_exec j b Released); [done|by rewrite Hex|done]|].
    eapply rtc_l; [apply (update_processingJobs (processingJobs s - 1))|].
    apply updates_run_loop; [done|].
    apply (Inv_exec_change s _ j b Released HI Hj); fields; try done.
    + by rewrite Hex.
    + by apply list_alter_insert.
    + rewrite Hex. cbn [holds_slot]. lia.
  - simplify_eq. destruct (waitForJob_shape jobId timeoutMs s) as (W & L1 & L2 & ->).
    apply rtc_once, update_waits.
  - destruct (waiters s !! w) as [wt|]; [|done]. destruct (w_timeout wt); [|done].
    simplify_eq. destruct (waiter_timeout_shape w s) as (W & L1 & L2 & ->).
    apply rtc_once, update_waits.
Qed.

(** A property of the fresh queue that every update keeps holds in every
    reachable state. *)
Lemma reachable_updates (P : State → Prop) :
  P init → (∀ s s', P s → update s s' → P s') → ∀ s, reachable s → P s.
Proof.
  intros Hinit Hupd s Hs. induction Hs as [|s a s' Hs IH Hstep]; [done|].
  pose proof (step_updates s a s' (reachable_Inv s Hs) Hstep) as Hrtc.
  clear Hs Hstep. induction Hrtc as [|s1 s2 s3 H12 _ IH3]; [done|].
  apply IH3. by eapply Hupd.
Qed.

(** ** The three kinds of update *)

Lemma touched_refl b : touched b b.
Proof. split; auto. Qed.

Lemma touched_alter (f : Job → Job) j (l : list Job) :
  (∀ b, l !! j = Some b → touched b (f b)) → Forall2 touched l (alter f j l).
Proof.
  intros Hf. apply Forall2_same_length_lookup_2; [by rewrite length_alter|].
  intros i x y Hx Hy. destruct (decide (i = j)) as [->|Hne].
  - rewrite list_lookup_alter_eq, Hx in Hy. simplify_eq/=. by apply Hf.
  - rewrite list_lookup_alter_ne in Hy by done. simplify_eq. apply touched_refl.
Qed.

Lemma started_alter (f : Job → Job) j (l : list Job) k b b' :
  (∀ x, l !! j = Some x → started (f x) = started x) →
  l !! k = Some b → alter f j l !! k = Some b' → started b' = started b.
Proof.
  intros Hf Hk Hk'. destruct (decide (k = j)) as [->|Hne].
  - rewrite list_lookup_alter_eq, Hk in Hk'. simplify_eq/=. by apply Hf.
  - rewrite list_lookup_alter_ne in Hk' by done. by simplify_eq.
Qed.

(** An update of one closure that keeps what [touched] keeps. *)
Lemma minor_alter (f : Job → Job) j s s' :
  jobs s' = alter f j (jobs s) →
  (∀ b, jobs s !! j = Some b → touched b (f b) ∧ started (f b) = started b) →
  abortJobListeners s' = abortJobListeners s → queueAbort s' = queueAbort s →
  signals s' = signals s → emitted s' = emitted s → jobStatus s' = jobStatus s →
  minor s s'.
Proof.
  intros Hjobs Hf E1 E2 E3 E4 E5. split.
  - rewrite Hjobs. apply touched_alter. intros b Hb. by apply Hf.
  - done.
  - by rewrite E2.
  - intros sg. unfold signal_of. by rewrite E3.
  - by left.
  - left. split; [done|]. intros k b b' Hk Hk'. rewrite Hjobs in Hk'.
    eapply started_alter; [|done..]. intros x Hx. by apply Hf.
Qed.

(** An update that leaves the closures alone. *)
Lemma minor_same s s' :
  jobs s' = jobs s → abortJobListeners s' = abortJobListeners s →
  ac_listeners (queueAbort s') `sublist_of` ac_listeners (queueAbort s) →
  (∀ sg, ac_listeners (signal_of sg s') = ac_listeners (signal_of sg s)) →
  (emitted s' = emitted s ∨ ∃ id, emitted s' = emitted s ++ [abort_job id]) →
  jobStatus s' = jobStatus s →
  minor s s'.
Proof.
  intros Hjobs E1 E2 E3 E4 E5. split; try done.
  - rewrite Hjobs. apply Forall2_same_length_lookup_2; [done|].
    intros i x y Hx Hy. simplify_eq. apply touched_refl.
  - left. split; [done|]. intros k b b' Hk Hk'. rewrite Hjobs in Hk'. by simplify_eq.
Qed.

Lemma minor_emitted_sum s s' (f : Event → nat) :
  minor s s' → (∀ id, f (abort_job id) = 0%nat) →
  sum_list_with f (emitted s') = sum_list_with f (emitted s).
Proof.
  intros Hm Hf. destruct (minor_emitted _ _ Hm) as [-> |[id ->]]; [done|].
  rewrite sum_list_with_app. cbn [sum_list_with]. rewrite Hf. lia.
Qed.

Lemma update_cases s s' :
  update s s' →
  minor s s' ∨
  (∃ j job st a p ev logs,
     jobs s !! j = Some job ∧ j_status job = pending ∧
     settlement job (length (queue s)) st a p ev ∧
     s' = finished j job (job_after st a p job) ev logs s) ∨
  (∃ id data queueTimeout signal,
     (id ∉ Object_prototype) ∧ s' = enqueued id data queueTimeout signal s).
Proof.
  destruct 1 as [m s|W L1 L2 s|id s|j job st a p ev logs s Hj Hst Hset
                |j job s Hj Hst|j s|c s Hc|sg s|id data qt sig s|j q s Hq Hab
                |j q job s Hq Hj Hst Hns|j job e s Hj Hex He|n s|l s].
  - left. by apply minor_same; auto.
  - left. by apply minor_same; auto.
  - left. apply minor_same; eauto.
  - right; left. by eexists _, _, _, _, _, _, _.
  - left. apply (minor_alter (set_jobAbort true) j); try done.
    intros b Hb. simplify_eq. split; [|done]. split; auto.
  - left. apply (minor_alter (set_timeout None) j); try done.
    intros b Hb. split; [|done]. split; auto. cbn. by intros [? ?].
  - left. by apply minor_same; auto.
  - left. apply minor_same; auto. intros sg'. apply signal_of_set_aborted.
  - right; right. by eexists _, _, _, _.
  - left. by apply minor_same; auto.
  - left. rewrite (executeJob_eq j job) by done. split; try done.
    + cbn [jobs set_processingJobs set_queue].
      rewrite <- (list_alter_insert (set_exec Executing) _ _ _ Hj).
      apply touched_alter. intros b Hb. split; auto.
    + by left.
    + right. by exists j, job.
  - left. apply (minor_alter (set_exec e) j); try done.
    intros b Hb. simplify_eq. split; [split; auto|].
    unfold started. cbn [j_exec set_exec].
    by rewrite !bool_decide_eq_true_2.
  - left. by apply minor_same; auto.
  - left. by apply minor_same; auto.
Qed.

(** ** The outcome of a job and its status *)

Lemma Outcome_touched b b' : touched b b' → Outcome b → Outcome b'.
Proof.
  intros [Hid Hdata Hst Hsg Hpr Hto Hab] [Hp Ha Hd]. split; rewrite Hst, Hpr.
  - intros E. destruct (Hp E) as [E1 E2]. split; [done|].
    destruct Hab as [-> |[Hn _]]; [done|by destruct Hn].
  - intros E. destruct (Ha E) as [E1 E2]. split; [|done].
    destruct Hab as [-> |[_ ?]]; done.
  - done.
Qed.

Lemma Outcome_settled job n st a p ev :
  Outcome job → j_status job = pending → settlement job n st a p ev →
  Outcome (job_after st a p job).
Proof.
  intros [Hp _ _] Hst Hset. destruct (Hp Hst) as [E1 E2].
  destruct Hset as [output|error|r]; rewrite E1; split;
    cbn [j_status j_promise j_jobAbort job_after promise_resolve promise_reject];
    try done.
  - intros _. left. by exists output.
  - intros _. right. by exists error.
  - intros _. split; [done|]. by exists r.
Qed.

Lemma Outcome_new_job id data queueTimeout signal :
  Outcome (submitted_job id data queueTimeout signal).
Proof. split; cbn; done. Qed.

Lemma reachable_Outcome s j b : reachable s → jobs s !! j = Some b → Outcome b.
Proof.
  intros Hs. revert j b. pattern s. revert s Hs. apply reachable_updates.
  - intros j b Hj. by destruct j.
  - intros s s' IH Hupd j b' Hj.
    destruct (update_cases s s' Hupd)
      as [Hm|[(k & job & st & a & p & ev & logs & Hk & Hst & Hset & ->)
             |(id & data & qt & sig & _ & ->)]].
    + destruct (Forall2_lookup_r _ _ _ _ _ (minor_jobs _ _ Hm) Hj) as (b & Hb & Hbb').
      eapply Outcome_touched; eauto.
    + cbn [jobs finished] in Hj. destruct (decide (j = k)) as [->|Hne].
      * rewrite list_lookup_insert_eq in Hj by (by eapply lookup_lt_Some).
        simplify_eq. eapply Outcome_settled; eauto.
      * rewrite list_lookup_insert_ne in Hj by done. eauto.
    + cbn [jobs enqueued] in Hj. apply lookup_app_Some in Hj as [Hj|[_ Hj]]; [eauto|].
      apply list_lookup_singleton_Some in Hj as [_ <-]. apply Outcome_new_job.
Qed.

(** ** The events account for the jobs *)

Lemma sum_list_with_insert {A} (f : A → nat) (l : list A) j b b' :
  l !! j = Some b →
  (sum_list_with f (<[j := b']> l) + f b = sum_list_with f l + f b')%nat.
Proof.
  revert j. induction l as [|x l IH]; intros [|j] Hj; simplify_eq/=.
  - lia.
  - specialize (IH j Hj). lia.
Qed.

Lemma sum_list_with_touched (f : Job → nat) (l l' : list Job) :
  (∀ b b', touched b b' → f b' = f b) → Forall2 touched l l' →
  sum_list_with f l' = sum_list_with f l.
Proof.
  intros Hf. induction 1 as [|b b' l l' Hb _ IH]; [done|].
  cbn [sum_list_with]. by rewrite (Hf _ _ Hb), IH.
Qed.

Lemma Counted_update s s' : Counted s → update s s' → Counted s'.
Proof.
  intros IH Hupd id. destruct (IH id) as [IH1 IH2].
  destruct (update_cases s s' Hupd)
    as [Hm|[(k & job & st & a & p & ev & logs & Hk & Hst & Hset & ->)
           |(id' & data & qt & sig & _ & ->)]].
  - rewrite !(minor_emitted_sum _ _ _ Hm) by done.
    rewrite (sum_list_with_touched (submitted_as id) _ _) with (2 := minor_jobs _ _ Hm).
    2:{ intros b b' Hbb'. unfold submitted_as. by rewrite (touched_id _ _ Hbb'). }
    rewrite (sum_list_with_touched (left_pending_as id) _ _) with (2 := minor_jobs _ _ Hm).
    2:{ intros b b' Hbb'. unfold left_pending_as.
        by rewrite (touched_id _ _ Hbb'), (touched_status _ _ Hbb'). }
    done.
  - cbn [emitted jobs finished]. rewrite !sum_list_with_app. cbn [sum_list_with].
    pose proof (sum_list_with_insert (submitted_as id) _ k job (job_after st a p job) Hk)
      as H1.
    pose proof (sum_list_with_insert (left_pending_as id) _ k job (job_after st a p job) Hk)
      as H2.
    assert (st ≠ pending) as Hne by (by destruct Hset).
    assert (submitted_as id (job_after st a p job) = submitted_as id job) as E3 by done.
    assert (left_pending_as id job = 0%nat) as E4.
    { unfold left_pending_as. rewrite Hst. case_decide; [tauto|done]. }
    assert (left_pending_as id (job_after st a p job)
            = if decide (j_id job = id) then 1%nat else 0%nat) as E5.
    { unfold left_pending_as. cbn [j_id j_status job_after].
      repeat case_decide; try done; tauto. }
    assert (added_for id ev = 0%nat ∧
            terminal_for id ev = if decide (j_id job = id) then 1%nat else 0%nat)
      as [E1 E2] by (by destruct Hset).
    rewrite E1, E2. rewrite E3 in H1. rewrite E4, E5 in H2. lia.
  - cbn [emitted jobs enqueued]. rewrite !sum_list_with_app. cbn [sum_list_with].
    assert (submitted_as id (submitted_job id' data qt sig)
            = added_for id (job_added id' data (S (length (queue s))))) as E1 by done.
    assert (left_pending_as id (submitted_job id' data qt sig) = 0%nat) as E2.
    { unfold left_pending_as. case_decide as H; [by destruct H as [_ []]|done]. }
    assert (terminal_for id (job_added id' data (S (length (queue s)))) = 0%nat)
      as E3 by done.
    rewrite E1, E2, E3. lia.
Qed.

Lemma reachable_Counted s : reachable s → Counted s.
Proof. revert s. apply reachable_updates; [done|apply Counted_update]. Qed.

(** ** The order of the events *)

Lemma prefix_snoc_inv {A} (e l : list A) x :
  e `prefix_of` l ++ [x] → e `prefix_of` l ∨ e = l ++ [x].
Proof.
  intros [k Hk]. destruct k as [|y k _] using rev_ind.
  - right. by rewrite app_nil_r in Hk.
  - left. rewrite (assoc_L (++)) in Hk. apply app_inj_tail in Hk as [-> _].
    by apply prefix_app_r.
Qed.

Lemma left_pending_le_submitted id (l : list Job) :
  (sum_list_with (left_pending_as id) l ≤ sum_list_with (submitted_as id) l)%nat.
Proof.
  induction l as [|b l IH]; cbn [sum_list_with]; [done|].
  assert (left_pending_as id b ≤ submitted_as id b)%nat; [|lia].
  unfold left_pending_as, submitted_as. repeat case_decide; try lia. tauto.
Qed.

Lemma Ordered_snoc s s' ev :
  Counted s' → emitted s' = emitted s ++ [ev] →
  (∀ e id, e `prefix_of` emitted s →
     (sum_list_with (terminal_for id) e ≤ sum_list_with (added_for id) e)%nat) →
  ∀ e id, e `prefix_of` emitted s' →
    (sum_list_with (terminal_for id) e ≤ sum_list_with (added_for id) e)%nat.
Proof.
  intros HC Hem IH e id He. rewrite Hem in He.
  apply prefix_snoc_inv in He as [He| ->]; [by apply IH|].
  rewrite <- Hem. destruct (HC id) as [-> ->]. apply left_pending_le_submitted.
Qed.

Lemma touched_announced (l l' : list Job) :
  Forall2 touched l l' →
  (λ b, (j_id b, j_data b)) <$> l' = (λ b, (j_id b, j_data b)) <$> l.
Proof.
  induction 1 as [|b b' l l' Hb _ IH]; [done|].
  cbn. by rewrite (touched_id _ _ Hb), (touched_data _ _ Hb), IH.
Qed.

Lemma reachable_Ordered s : reachable s → Ordered s.
Proof.
  intros Hs. cut (Counted s ∧ Ordered s); [tauto|]. revert s Hs.
  apply reachable_updates.
  - split; [done|]. split; [done|]. intros e id He. apply prefix_nil_inv in He as ->.
    done.
  - intros s s' [HC [Hadd Hord]] Hupd.
    pose proof (Counted_update s s' HC Hupd) as HC'. split; [done|].
    unfold Ordered.
    destruct (update_cases s s' Hupd)
      as [Hm|[(k & job & st & a & p & ev & logs & Hk & Hst & Hset & ->)
             |(id' & data & qt & sig & _ & ->)]].
    + rewrite (touched_announced _ _ (minor_jobs _ _ Hm)).
      destruct (minor_emitted _ _ Hm) as [E|[id E]].
      * by rewrite E.
      * split; [|by eapply Ordered_snoc].
        rewrite E. unfold added_jobs. rewrite omap_app. cbn. by rewrite app_nil_r.
    + split; [|by eapply Ordered_snoc].
      cbn [emitted jobs finished]. unfold added_jobs. rewrite omap_app.
      assert (omap (λ e, match e with
                         | job_added id data _ => Some (id, data)
                         | _ => None
                         end) [ev] = []) as -> by (by destruct Hset).
      rewrite app_nil_r. fold (added_jobs (emitted s)). rewrite Hadd.
      rewrite list_fmap_insert. symmetry. apply list_insert_id.
      by rewrite list_lookup_fmap, Hk.
    + split; [|by eapply Ordered_snoc].
      cbn [emitted jobs enqueued]. unfold added_jobs. rewrite omap_app, fmap_app.
      fold (added_jobs (emitted s)). by rewrite Hadd.
Qed.

(** ** No listener and no timer is left behind *)

Lemma minor_status s s' j : minor s s' → status_of j s' = status_of j s.
Proof.
  intros Hm. unfold status_of. destruct (jobs s !! j) as [b|] eqn:Hj.
  - destruct (Forall2_lookup_l _ _ _ _ _ (minor_jobs _ _ Hm) Hj) as (b' & -> & Hbb').
    cbn. by rewrite (touched_status _ _ Hbb').
  - apply lookup_ge_None in Hj. rewrite (Forall2_length _ _ _ (minor_jobs _ _ Hm)) in Hj.
    apply lookup_ge_None in Hj. by rewrite Hj.
Qed.

Lemma status_of_pending j s :
  status_of j s = Some pending ↔ ∃ b, jobs s !! j = Some b ∧ j_status b = pending.
Proof.
  unfold status_of. destruct (jobs s !! j) as [b|]; cbn; split.
  - intros [= E]. eauto.
  - by intros (? & [= <-] & ->).
  - done.
  - by intros (? & ? & ?).
Qed.

Lemma Tidy_init : Tidy init.
Proof.
  split; cbn; try (intros; by apply NoDup_nil).
  - intros j Hj. by apply elem_of_nil in Hj.
  - intros j Hj. by apply elem_of_nil in Hj.
  - intros sg j Hj. by apply elem_of_nil in Hj.
  - intros j b Hj. by destruct j.
Qed.

Lemma Tidy_minor s s' : Tidy s → minor s s' → Tidy s'.
Proof.
  intros HT Hm. split.
  - intros j Hj. rewrite (minor_status _ _ _ Hm). apply (tidy_abortJob _ HT).
    by rewrite <- (minor_abortJob _ _ Hm).
  - intros j Hj. rewrite (minor_status _ _ _ Hm). apply (tidy_queueAbort _ HT).
    eapply elem_of_sublist; [done|apply (minor_queueAbort _ _ Hm)].
  - intros sg j Hj. rewrite (minor_signal _ _ Hm) in Hj.
    destruct (tidy_signal _ HT sg j Hj) as (b & Hb & Hst & Hsg).
    destruct (Forall2_lookup_l _ _ _ _ _ (minor_jobs _ _ Hm) Hb) as (b' & Hb' & Hbb').
    exists b'. split; [done|].
    by rewrite (touched_status _ _ Hbb'), (touched_signal _ _ Hbb').
  - intros j b' Hj Hto.
    destruct (Forall2_lookup_r _ _ _ _ _ (minor_jobs _ _ Hm) Hj) as (b & Hb & Hbb').
    rewrite (touched_status _ _ Hbb'). apply (tidy_timer _ HT j b Hb).
    by apply (touched_timeout _ _ Hbb').
  - rewrite (minor_abortJob _ _ Hm). apply HT.
  - eapply sublist_NoDup; [apply (tidy_queueAbort_once _ HT)|apply (minor_queueAbort _ _ Hm)].
  - intros sg. rewrite (minor_signal _ _ Hm). apply HT.
Qed.

Lemma finished_signal_listeners j job job' ev logs s sg :
  ac_listeners (signal_of sg (finished j job job' ev logs s)) =
  if decide (j_signal job = Some sg)
  then remove_listener j (ac_listeners (signal_of sg s))
  else ac_listeners (signal_of sg s).
Proof.
  unfold signal_of at 1. cbn [signals finished].
  destruct (j_signal job) as [sg'|]; [|by rewrite decide_False].
  rewrite signal_of_alter_remove. by repeat case_decide; simplify_eq.
Qed.

Lemma Tidy_finished j job job' ev logs s :
  Tidy s → jobs s !! j = Some job → j_status job' ≠ pending → j_timeout job' = None →
  Tidy (finished j job job' ev logs s).
Proof.
  intros HT Hj Hst Hto.
  assert (∀ k, k ≠ j → status_of k s = Some pending →
            status_of k (finished j job job' ev logs s) = Some pending) as Hkeep.
  { intros k Hk Hp. unfold status_of. cbn [jobs finished].
    by rewrite list_lookup_insert_ne. }
  split.
  - intros k [Hk Hin]%elem_of_remove_listener. apply Hkeep; [done|].
    by apply (tidy_abortJob _ HT).
  - intros k [Hk Hin]%elem_of_remove_listener. apply Hkeep; [done|].
    by apply (tidy_queueAbort _ HT).
  - intros sg k Hin. rewrite finished_signal_listeners in Hin.
    assert (k ≠ j ∧ k ∈ ac_listeners (signal_of sg s)) as [Hk Hin'].
    { case_decide as Hsg; [by apply elem_of_remove_listener|]. split; [|done].
      intros ->. destruct (tidy_signal _ HT sg j Hin) as (b & Hb & _ & Hsg').
      by simplify_eq. }
    destruct (tidy_signal _ HT sg k Hin') as (b & Hb & Hp & Hsg).
    exists b. cbn [jobs finished]. by rewrite list_lookup_insert_ne.
  - intros k b Hk Hsome. cbn [jobs finished] in Hk.
    destruct (decide (k = j)) as [->|Hne].
    + rewrite list_lookup_insert_eq in Hk by (by eapply lookup_lt_Some).
      simplify_eq. rewrite Hto in Hsome. by destruct Hsome.
    + rewrite list_lookup_insert_ne in Hk by done. by apply (tidy_timer _ HT k b).
  - apply NoDup_filter, HT.
  - apply NoDup_filter, HT.
  - intros sg. rewrite finished_signal_listeners.
    case_decide; [apply NoDup_filter|]; apply HT.
Qed.

Lemma Tidy_enqueued id data queueTimeout signal s :
  Tidy s → Tidy (enqueued id data queueTimeout signal s).
Proof.
  intros HT. set (j := length (jobs s)).
  assert (∀ k, status_of k s = Some pending →
            k ≠ j ∧ status_of k (enqueued id data queueTimeout signal s) = Some pending)
    as Hold.
  { intros k Hk. pose proof Hk as (b & Hb & Hst)%status_of_pending.
    pose proof (lookup_lt_Some _ _ _ Hb). split; [subst j; lia|].
    apply status_of_pending. exists b. cbn [jobs enqueued].
    by rewrite lookup_app_l. }
  assert (jobs (enqueued id data queueTimeout signal s) !! j
          = Some (submitted_job id data queueTimeout signal)) as Hnew.
  { cbn [jobs enqueued]. unfold j. rewrite lookup_app_r by done.
    by rewrite Nat.sub_diag. }
  assert (status_of j (enqueued id data queueTimeout signal s) = Some pending) as Hnewst.
  { apply status_of_pending. eexists. split; [apply Hnew|done]. }
  assert (∀ l : list nat, (∀ k, k ∈ l → status_of k s = Some pending) → NoDup l →
            NoDup (l ++ [j])) as Hnodup.
  { intros l Hl Hnd. apply NoDup_app. split; [done|]. split; [|apply NoDup_singleton].
    intros k Hk ->%list_elem_of_singleton. by destruct (Hold j (Hl j Hk)). }
  split.
  - intros k [Hk| ->%list_elem_of_singleton]%elem_of_app; [|done].
    by apply Hold, (tidy_abortJob _ HT).
  - intros k [Hk| ->%list_elem_of_singleton]%elem_of_app; [|done].
    by apply Hold, (tidy_queueAbort _ HT).
  - intros sg k Hk. rewrite signal_of_enqueued in Hk.
    assert (k ∈ ac_listeners (signal_of sg s) ∨ (k = j ∧ signal = Some sg)) as [Hin|[-> ->]].
    { case_decide; [|by left].
      apply elem_of_app in Hk as [?| ->%list_elem_of_singleton]; [by left|by right]. }
    + destruct (tidy_signal _ HT sg k Hin) as (b & Hb & Hst & Hsg).
      exists b. cbn [jobs enqueued]. by rewrite (lookup_app_l_Some _ _ _ _ Hb).
    + eexists. split; [apply Hnew|done].
  - intros k b Hk Hto. cbn [jobs enqueued] in Hk.
    apply lookup_app_Some in Hk as [Hk|[_ Hk]]; [by apply (tidy_timer _ HT k b)|].
    by apply list_lookup_singleton_Some in Hk as [_ <-].
  - apply Hnodup; apply HT.
  - apply Hnodup; apply HT.
  - intros sg. rewrite signal_of_enqueued. case_decide; [|apply HT].
    apply Hnodup; [|apply HT]. intros k Hk.
    destruct (tidy_signal _ HT sg k Hk) as (b & Hb & Hst & _).
    apply status_of_pending. eauto.
Qed.

Lemma reachable_Tidy s : reachable s → Tidy s.
Proof.
  revert s. apply reachable_updates; [apply Tidy_init|].
  intros s s' IH Hupd.
  destruct (update_cases s s' Hupd)
    as [Hm|[(k & job & st & a & p & ev & logs & Hk & Hst & Hset & ->)
           |(id & data & qt & sig & _ & ->)]].
  - by eapply Tidy_minor.
  - apply Tidy_finished; [done..| |done]. by destruct Hset.
  - by apply Tidy_enqueued.
Qed.

(** ** The job index *)

(** The ids are values of [nextId]: none is a name of [Object.prototype]. *)
Lemma reachable_ids s :
  reachable s → ∀ j b, jobs s !! j = Some b → j_id b ∉ Object_prototype.
Proof.
  revert s.
  apply (reachable_updates
           (λ s, ∀ j b, jobs s !! j = Some b → j_id b ∉ Object_prototype));
    [by intros [|?]|].
  intros s s' IH Hupd.
  destruct (update_cases s s' Hupd)
    as [Hm|[(k & job & st & a & p & ev & logs & Hk & Hst & Hset & ->)
           |(id & data & qt & sig & Hid & ->)]]; intros j b' Hj.
  - destruct (Forall2_lookup_r _ _ _ _ _ (minor_jobs _ _ Hm) Hj) as (b & Hb & Ht).
    rewrite (touched_id _ _ Ht). by eapply IH.
  - cbn [jobs finished] in Hj. destruct (decide (j = k)) as [->|Hne].
    + rewrite list_lookup_insert_eq in Hj by (by eapply lookup_lt_Some).
      simplify_eq. cbn [j_id job_after]. by eapply IH.
    + rewrite list_lookup_insert_ne in Hj by done. by eapply IH.
  - cbn [jobs enqueued] in Hj. apply lookup_app_Some in Hj as [Hj|[_ Hj]]; [by eapply IH|].
    apply list_lookup_singleton_Some in Hj as [_ <-]. done.
Qed.

Lemma ids_touched (l l' : list Job) : Forall2 touched l l' → j_id <$> l' = j_id <$> l.
Proof.
  induction 1 as [|b b' l l' Hb _ IH]; [done|].
  cbn. by rewrite (touched_id _ _ Hb), IH.
Qed.

Lemma ids_insert (l : list Job) k b b' :
  l !! k = Some b → j_id b' = j_id b → j_id <$> <[k := b']> l = j_id <$> l.
Proof.
  intros Hk Hid. rewrite list_fmap_insert, Hid. apply list_insert_id.
  by rewrite list_lookup_fmap, Hk.
Qed.

(** Two jobs of a queue without a repeated id are the same job when they
    have the same id. *)
Lemma ids_distinct (l : list Job) i k b c :
  NoDup (j_id <$> l) → l !! i = Some b → l !! k = Some c → j_id b = j_id c → i = k.
Proof.
  intros Hnd Hi Hk Hid. apply (NoDup_lookup _ i k (j_id b) Hnd).
  - by rewrite list_lookup_fmap, Hi.
  - by rewrite list_lookup_fmap, Hk, Hid.
Qed.

Lemma Tracked_minor s s' : Tracked s → minor s s' → Tracked s'.
Proof.
  intros HT Hm. pose proof (minor_jobs _ _ Hm) as Hjobs.
  assert (∀ id, (∃ j b, jobs s !! j = Some b ∧ j_id b = id ∧ j_status b = pending) →
            ∃ j b, jobs s' !! j = Some b ∧ j_id b = id ∧ j_status b = pending) as Hkeep.
  { intros id (j & b & Hj & Hid & Hst).
    destruct (Forall2_lookup_l _ _ _ _ _ Hjobs Hj) as (b' & Hb' & Hbb').
    exists j, b'. by rewrite (touched_id _ _ Hbb'), (touched_status _ _ Hbb'). }
  destruct (minor_index _ _ Hm) as [[Hidx Hst]|(j & job & Hj & Hp & Hidx & Hjobs')].
  - split.
    + intros id v Hv. rewrite Hidx in Hv. apply Hkeep. by eapply (tracked_pending _ HT).
    + rewrite (ids_touched _ _ Hjobs). intros Hnd k b' Hk Hpk.
      destruct (Forall2_lookup_r _ _ _ _ _ Hjobs Hk) as (b & Hb & Hbb').
      rewrite Hidx, (touched_id _ _ Hbb'). fold (started b').
      rewrite (Hst k b b' Hb Hk).
      apply (tracked_index _ HT Hnd k b Hb). by rewrite <- (touched_status _ _ Hbb').
  - split.
    + intros id v Hv. rewrite Hidx in Hv.
      destruct (decide (j_id job = id)) as [<-|Hne].
      * apply Hkeep. eauto.
      * rewrite lookup_insert_ne in Hv by done. apply Hkeep.
        by eapply (tracked_pending _ HT).
    + rewrite (ids_touched _ _ Hjobs). intros Hnd k b' Hk Hpk. rewrite Hidx.
      rewrite Hjobs' in Hk. destruct (decide (k = j)) as [->|Hne].
      * rewrite list_lookup_insert_eq in Hk by (by eapply lookup_lt_Some).
        simplify_eq. cbn [j_id set_exec]. by rewrite lookup_insert_eq.
      * rewrite list_lookup_insert_ne in Hk by done.
        rewrite lookup_insert_ne; [by apply (tracked_index _ HT Hnd k b')|].
        intros Hid. apply Hne. symmetry. by apply (ids_distinct (jobs s) j k job b').
Qed.

Lemma Tracked_finished j job job' ev logs s :
  Tracked s → jobs s !! j = Some job → j_id job' = j_id job → j_status job' ≠ pending →
  Tracked (finished j job job' ev logs s).
Proof.
  intros HT Hj Hid Hst. split; cbn [jobStatus jobs finished].
  - intros id v Hv. apply lookup_delete_Some in Hv as [Hne Hv].
    destruct (tracked_pending _ HT id v Hv) as (k & b & Hk & Hkid & Hp).
    exists k, b. rewrite list_lookup_insert_ne; [done|]. intros ->. by simplify_eq.
  - rewrite (ids_insert _ _ _ _ Hj Hid). intros Hnd k b Hk Hp.
    destruct (decide (k = j)) as [->|Hne].
    { rewrite list_lookup_insert_eq in Hk by (by eapply lookup_lt_Some). by simplify_eq. }
    rewrite list_lookup_insert_ne in Hk by done.
    rewrite lookup_delete_ne; [by apply (tracked_index _ HT Hnd k b)|].
    intros E. apply Hne. symmetry. by apply (ids_distinct (jobs s) j k job b).
Qed.

Lemma Tracked_enqueued id data queueTimeout signal s :
  Tracked s → Tracked (enqueued id data queueTimeout signal s).
Proof.
  intros HT. split; cbn [jobStatus jobs enqueued].
  - intros id' v Hv. destruct (decide (id = id')) as [<-|Hne].
    + exists (length (jobs s)), (submitted_job id data queueTimeout signal).
      rewrite lookup_app_r by done. by rewrite Nat.sub_diag.
    + rewrite lookup_insert_ne in Hv by done.
      destruct (tracked_pending _ HT id' v Hv) as (k & b & Hk & Hkid & Hp).
      exists k, b. by rewrite (lookup_app_l_Some _ _ _ _ Hk).
  - rewrite fmap_app. intros (Hnd & Hfresh & _)%NoDup_app k b Hk Hp.
    apply lookup_app_Some in Hk as [Hk|[_ Hk]].
    + rewrite lookup_insert_ne; [by apply (tracked_index _ HT Hnd k b)|].
      intros ->. apply (Hfresh (j_id b)); [|by left].
      apply list_elem_of_fmap. exists b. split; [done|].
      by eapply list_elem_of_lookup_2.
    + apply list_lookup_singleton_Some in Hk as [_ <-].
      by rewrite lookup_insert_eq.
Qed.

Lemma reachable_Tracked s : reachable s → Tracked s.
Proof.
  revert s. apply reachable_updates.
  - split; cbn; [|intros _ j b Hj; by destruct j].
    intros id v Hv. by rewrite lookup_empty in Hv.
  - intros s s' IH Hupd.
    destruct (update_cases s s' Hupd)
      as [Hm|[(k & job & st & a & p & ev & logs & Hk & Hst & Hset & ->)
             |(id & data & qt & sig & _ & ->)]].
    + by eapply Tracked_minor.
    + apply Tracked_finished; [done..|]. by destruct Hset.
    + by apply Tracked_enqueued.
Qed.

(** ** No job waits while a slot is free *)

Lemma executeJob_queue j s : queue (executeJob j s) = queue s.
Proof. unfold executeJob. by destruct (jobs s !! j). Qed.

Lemma run_loop_idle q s :
  queue s = q → processingJobs (run_loop q s) < concurrency → queue (run_loop q s) = [].
Proof.
  revert s. induction q as [|j q IH]; intros s Hq; cbn [run_loop].
  - by case_decide.
  - case_decide as Hlt; [|done].
    destruct (item_aborted j (set_queue q s)); apply IH; [done|].
    by rewrite executeJob_queue.
Qed.

Lemma run_loop_full q s : ¬ processingJobs s < concurrency → run_loop q s = s.
Proof. intros Hfull. destruct q; cbn [run_loop]; by rewrite decide_False. Qed.

Lemma step_idle s a s' :
  Inv s → step s a = Some s' →
  (processingJobs s < concurrency → queue s = []) →
  processingJobs s' < concurrency → queue s' = [].
Proof.
  intros HI Hstep Hs.
  destruct a as [id data qt sig| | | | |j r|j| |];
    try (pose proof (step_state_le _ _ _ HI Hstep Logic.I) as Hle;
         rewrite (le_processingJobs _ _ Hle), (le_queue _ _ Hle); exact Hs);
    cbn [step] in Hstep.
  - case_decide; [done|]. simplify_eq. rewrite process_enqueued. by apply run_loop_idle.
  - case_decide as Hex; [|done]. simplify_eq.
    apply exec_of_Some in Hex as (b & Hj & Hex).
    destruct (settles_spec j r s b Hj Hex) as (Hle & _).
    fields. by rewrite (le_processingJobs _ _ Hle), (le_queue _ _ Hle).
  - case_decide as Hex; [|done]. simplify_eq. by apply run_loop_idle.
Qed.

Lemma reachable_idle s :
  reachable s → processingJobs s < concurrency → queue s = [].
Proof.
  induction 1 as [|s a s' Hs IH Hstep]; [done|].
  eapply step_idle; eauto using reachable_Inv.
Qed.

(** ** What process does to the job it creates *)

Lemma process_free_slot id data queueTimeout signal s :
  queue s = [] → processingJobs s < concurrency →
  process id data queueTimeout signal s =
    executeJob (length (jobs s))
      (set_processingJobs (processingJobs s + 1)
         (set_queue [] (enqueued id data queueTimeout signal s))).
Proof.
  intros Hq Hlt. rewrite process_enqueued. unfold run. cbn [queue enqueued].
  rewrite Hq. cbn [app run_loop]. rewrite decide_True by done.
  assert (item_aborted (length (jobs s))
            (set_queue [] (enqueued id data queueTimeout signal s)) = false) as ->.
  { unfold item_aborted, status_of. cbn [jobs set_queue enqueued].
    rewrite lookup_app_r by done. rewrite Nat.sub_diag. cbn.
    by rewrite bool_decide_eq_false. }
  by case_decide.
Qed.

(** ** The jobs the executor is called for *)

Lemma run_executes t j :
  Inv t → j ∈ executed (run t) → j ∉ executed t →
  ∃ b, jobs t !! j = Some b ∧ j_status b = pending ∧ j_exec b = NotStarted ∧ j ∈ queue t ∧
       jobs (run t) !! j = Some (set_exec Executing b).
Proof.
  intros HI Hin Hnot. pose proof (Inv_run t HI) as HI'.
  destruct (run_loop_executed (queue t) t j Hin) as [?|[Hq Hab]]; [done|].
  assert (is_Some (jobs t !! j)) as [b Hb].
  { apply lookup_lt_is_Some. rewrite (inv_queue _ HI) in Hq.
    apply elem_of_seq in Hq. pose proof (inv_queue_length _ HI).
    unfold popped in Hq. lia. }
  pose proof (proj2 (inv_exec _ HI j b Hb) Hnot) as Hns.
  assert (j_status b = pending) as Hst.
  { pose proof (inv_processed _ HI j b Hb) as Hproc.
    assert (j_status b ≠ aborted) as Hna.
    { intros E. assert (item_aborted j t = true) as Ht; [|by rewrite Ht in Hab].
      apply item_aborted_true. eauto. }
    destruct (j_status b); [done|by destruct Hproc|done]. }
  exists b. repeat split; try done.
  destruct (run_loop_lookup (queue t) t j b Hb) as (b' & Hb' & [-> | ->]); [|done].
  exfalso. apply (inv_exec _ HI' j b Hb'); [done|]. exact Hin.
Qed.

Lemma step_executes s a s' j :
  Inv s → step s a = Some s' → j ∈ executed s' → j ∉ executed s →
  ∃ b, jobs s' !! j = Some b ∧ j_status b = pending ∧ j_exec b = Executing ∧
       ((∃ id data queueTimeout signal,
           a = Process id data queueTimeout signal ∧ j = length (jobs s)) ∨
        j ∈ queue s).
Proof.
  intros HI Hstep Hin Hnot.
  destruct a as [id data qt sig| | | | |k r|k| |];
    try (pose proof (step_state_le _ _ _ HI Hstep Logic.I) as Hle;
         rewrite (le_executed _ _ Hle) in Hin; done);
    cbn [step] in Hstep.
  - case_decide; [done|]. simplify_eq. rewrite process_enqueued in Hin |- *.
    destruct (run_executes (enqueued id data qt sig s) j) as (b & Hb & Hst & Hns & Hq & Hb');
      [by apply Inv_enqueued|done|done|].
    exists (set_exec Executing b). split; [done|]. split; [done|]. split; [done|].
    cbn [queue enqueued] in Hq.
    apply elem_of_app in Hq as [?| ->%list_elem_of_singleton]; [by right|left].
    by eexists _, _, _, _.
  - case_decide as Hex; [|done]. simplify_eq.
    apply exec_of_Some in Hex as (b & Hj & Hex).
    destruct (settles_spec k r s b Hj Hex) as (Hle & _).
    cbn [executed update_job set_jobs] in Hin. by rewrite (le_executed _ _ Hle) in Hin.
  - case_decide as Hex; [|done]. simplify_eq.
    apply exec_of_Some in Hex as (b & Hj & Hex).
    match type of Hin with _ ∈ executed (run ?t) =>
      destruct (run_executes t j) as (b0 & Hb & Hst & Hns & Hq & Hb'); [|done|done|] end.
    { apply (Inv_exec_change s _ k b Released HI Hj); fields; try done.
      - by rewrite Hex.
      - by apply list_alter_insert.
      - rewrite Hex. cbn [holds_slot]. lia. }
    exists (set_exec Executing b0). split; [done|]. split; [done|]. split; [done|].
    by right.
Qed.

(** ** abortJob with an id that no pending job has *)

Lemma foldl_fixed {A} (f : State → A → State) (l : list A) s :
  (∀ x, x ∈ l → f s x = s) → foldl f s l = s.
Proof.
  induction l as [|x l IH]; intros Hf; cbn [foldl]; [done|].
  rewrite Hf by (by left). apply IH. intros y Hy. apply Hf. by right.
Qed.

Lemma abortJob_no_pending id s :
  Tidy s →
  (∀ j b, jobs s !! j = Some b → j_status b = pending → j_id b ≠ id) →
  abortJob id s = set_emitted (emitted s ++ [abort_job id]) s.
Proof.
  intros HT Hid. unfold abortJob. cbn zeta. apply foldl_fixed.
  intros j Hj. cbn [abortJobListeners set_emitted] in Hj.
  apply (tidy_abortJob _ HT), status_of_pending in Hj as (b & Hb & Hst).
  unfold handleAbortEvent. cbn [jobs set_emitted]. rewrite Hb.
  rewrite decide_False; [done|]. intros ->. by apply (Hid j b).
Qed.

(** ** A caller's signal that has aborted stays aborted *)

Lemma updates_keep (P : State → Prop) s s' :
  (∀ t t', P t → update t t' → P t') → rtc update s s' → P s → P s'.
Proof. intros Hupd Hrtc. induction Hrtc as [|s1 s2 s3 H12 _ IH]; eauto. Qed.

Lemma steps_updates l s s' : Inv s → steps s l = Some s' → rtc update s s'.
Proof.
  revert s. induction l as [|a l IH]; intros s HI Hl; cbn [steps] in Hl.
  - by simplify_eq.
  - destruct (step s a) as [s1|] eqn:Hstep; [|done].
    etrans; [by eapply step_updates|]. apply IH; [|done]. by eapply Inv_step.
Qed.

Lemma update_signal_aborted sg s s' :
  ac_aborted (signal_of sg s) = true → update s s' →
  ac_aborted (signal_of sg s') = true.
Proof.
  intros Hsg.
  destruct 1 as [m s|W L1 L2 s|id s|j job st a p ev logs s Hj Hst Hset
                |j job s Hj Hst|j s|c s Hc|sg' s|id data qt sig s|j q s Hq Hab
                |j q job s Hq Hj Hst Hns|j job e s Hj Hex He|n s|l s]; try done.
  - unfold signal_of in *. cbn [signals finished].
    destruct (j_signal job) as [sg'|]; [|done].
    destruct (decide (sg' = sg)) as [->|Hne].
    + rewrite lookup_alter_eq. by destruct (signals s !! sg).
    + by rewrite lookup_alter_ne.
  - unfold signal_of at 1. cbn [signals set_signals].
    destruct (decide (sg' = sg)) as [->|Hne].
    + by rewrite lookup_insert_eq.
    + by rewrite lookup_insert_ne.
  - unfold signal_of at 1. cbn [signals enqueued].
    destruct sig as [sg'|]; [|done].
    destruct (decide (sg' = sg)) as [->|Hne].
    + by rewrite lookup_insert_eq.
    + by rewrite lookup_insert_ne.
  - by rewrite (executeJob_eq j job).
Qed.

(** ** waitForJob leaves nothing behind *)

Section WaiterInvariant.

Variable P : State → Prop.
Hypothesis P_waits : ∀ s s', waits s' = waits s → P s → P s'.
Hypothesis P_listener : ∀ w id s, P s → P (waiter_listener w id s).
Hypothesis P_waitForJob : ∀ jobId timeoutMs s, P s → P (fst (waitForJob jobId timeoutMs s)).
Hypothesis P_timeout : ∀ w wt s,
  waiters s !! w = Some wt → is_Some (w_timeout wt) → P s → P (waiter_timeout w s).

Lemma waits_foldl {A} (f : State → A → State) l s :
  (∀ t x, P t → P (f t x)) → P s → P (foldl f s l).
Proof using All.
  intros Hf. revert s. induction l as [|x l IH]; intros s Hs; cbn [foldl]; auto.
Qed.

Lemma waits_copy_notify id l s X : P s → P (copy_waits (notify id l s) X).
Proof using All.
  intros Hs. apply (P_waits (notify id l s)); [done|].
  unfold notify. apply waits_foldl; [|done]. intros t x. apply P_listener.
Qed.

Lemma waits_onTimeoutOrAbort j s : P s → P (onTimeoutOrAbort j s).
Proof using All.
  intros Hs. destruct (jobs s !! j) as [b|] eqn:Hj.
  - destruct (decide (j_status b = pending)) as [Hst|Hst].
    + rewrite (onTimeoutOrAbort_pending_eq j s b Hj Hst). by apply waits_copy_notify.
    + rewrite (onTimeoutOrAbort_late j s b Hj Hst). by apply (P_waits s).
  - by rewrite (onTimeoutOrAbort_dangling j s Hj).
Qed.

Lemma waits_jobAbort_abort j s : P s → P (jobAbort_abort j s).
Proof using All.
  intros Hs. destruct (jobs s !! j) as [b|] eqn:Hj.
  - destruct (j_jobAbort b) eqn:Hab; [by rewrite (jobAbort_abort_aborted j s b Hj Hab)|].
    destruct (decide (j_status b = pending)) as [Hst|Hst].
    + rewrite (jobAbort_abort_pending_eq j s b Hj Hab Hst). by apply waits_copy_notify.
    + rewrite (jobAbort_abort_late j s b Hj Hab Hst). by apply (P_waits s).
  - by rewrite (jobAbort_abort_dangling j s Hj).
Qed.

Lemma waits_settle j r s : P s → P (settle j r s).
Proof using All.
  intros Hs. destruct (jobs s !! j) as [b|] eqn:Hj.
  - destruct (decide (j_status b = pending)) as [Hst|Hst]; destruct r as [output|err].
    + cbn [settle]. rewrite (resolve_pending_eq j output s b Hj Hst).
      by apply waits_copy_notify.
    + destruct (to_Error err) as [error|] eqn:He.
      * rewrite (settle_rejected_pending j err error s b Hj Hst He).
        by apply waits_copy_notify.
      * rewrite (settle_rejected_throws j err s b Hj Hst He). by apply (P_waits s).
    + cbn [settle]. rewrite (resolve_late j output s b Hj Hst). by apply (P_waits s).
    + rewrite (settle_rejected_late j err s b Hj Hst). by apply (P_waits s).
  - by rewrite (settle_dangling j r s Hj).
Qed.

Lemma waits_dispatch_abort listeners s : P s → P (dispatch_abort listeners s).
Proof using All.
  unfold dispatch_abort. apply waits_foldl. intros t j Ht.
  case_decide; [by apply waits_jobAbort_abort|done].
Qed.

Lemma waits_run_loop q s : P s → P (run_loop q s).
Proof using All.
  apply P_waits. unfold waits.
  by destruct (run_loop_frame q s) as (_ & _ & _ & _ & -> & -> & ->).
Qed.

Lemma waits_step s a s' : step s a = Some s' → P s → P s'.
Proof using All.
  intros Hstep Hs.
  destruct a as [id data qt sig|id| |sg|j|j r|j|jobId timeoutMs|w']; cbn [step] in Hstep.
  - case_decide; [done|]. simplify_eq. rewrite process_enqueued. apply waits_run_loop. by apply (P_waits s).
  - simplify_eq. unfold abortJob. cbn zeta. apply waits_foldl; [|by apply (P_waits s)].
    intros t j Ht. unfold handleAbortEvent. destruct (jobs t !! j); [|done].
    case_decide; [by apply waits_jobAbort_abort|done].
  - simplify_eq. unfold abort. cbn zeta.
    match goal with |- P (set_queueAbort _ ?t) => apply (P_waits t); [done|] end.
    destruct (ac_aborted _); [by apply (P_waits s)|].
    apply waits_dispatch_abort. by apply (P_waits s).
  - destruct (ac_aborted (signal_of sg s)); [done|]. simplify_eq.
    apply waits_dispatch_abort. by apply (P_waits s).
  - destruct (jobs s !! j) as [b|]; [|done]. destruct (j_timeout b); [|done].
    simplify_eq. apply waits_onTimeoutOrAbort. by apply (P_waits s).
  - case_decide; [|done]. simplify_eq.
    apply (P_waits (settle j r s)); [done|]. by apply waits_settle.
  - case_decide; [|done]. simplify_eq. apply waits_run_loop. by apply (P_waits s).
  - simplify_eq. by apply P_waitForJob.
  - destruct (waiters s !! w') as [wt'|] eqn:Hw'; [|done].
    destruct (w_timeout wt') eqn:Ht'; [|done]. simplify_eq.
    apply (P_timeout w' wt'); [done| |done]. by rewrite Ht'.
Qed.

Lemma waits_reachable s : P init → reachable s → P s.
Proof using All. intros Hinit. induction 1; [done|]. by eapply waits_step. Qed.

End WaiterInvariant.

Lemma WTidy_init : WTidy init.
Proof.
  split; cbn; try apply NoDup_nil_2.
  - intros w. split; [by intros ?%elem_of_nil|]. intros (wt & Hw & _). by destruct w.
  - intros w. split; [by intros ?%elem_of_nil|]. intros (wt & Hw & _). by destruct w.
  - intros w wt Hw. by destruct w.
Qed.

Lemma WTidy_waits s s' : waits s' = waits s → WTidy s → WTidy s'.
Proof.
  intros [= E1 E2 E3] HW. split; rewrite ?E1, ?E2, ?E3; apply HW.
Qed.

(** The end of a wait: its listeners are removed, its timer is cleared and
    its promise is settled. *)
Lemma WTidy_settled (f : Promise unit → Promise unit) w s s' :
  (∀ p, f p ≠ Unsettled) →
  jobProcessedListeners s' = remove_listener w (jobProcessedListeners s) →
  jobCancelledListeners s' = remove_listener w (jobCancelledListeners s) →
  waiters s' = alter (map_waiter_promise f) w (alter clear_waiter_timeout w (waiters s)) →
  WTidy s → WTidy s'.
Proof.
  intros Hf E1 E2 E3 HW.
  assert (∀ w', (∃ wt, waiters s' !! w' = Some wt ∧ w_promise wt = Unsettled) ↔
                w' ≠ w ∧ ∃ wt, waiters s !! w' = Some wt ∧ w_promise wt = Unsettled)
    as Hun.
  { intros w'. rewrite E3. destruct (decide (w' = w)) as [->|Hne].
    - rewrite !list_lookup_alter_eq. split; [|by intros [[] _]].
      intros (wt & Hw & Hp). destruct (waiters s !! w) as [wt0|]; [|done].
      cbn in Hw. simplify_eq. cbn in Hp. by destruct (Hf (w_promise wt0)).
    - rewrite !list_lookup_alter_ne by done. tauto. }
  split.
  - intros w'. rewrite E1, elem_of_remove_listener, Hun.
    by rewrite (wtidy_processed _ HW).
  - intros w'. rewrite E2, elem_of_remove_listener, Hun.
    by rewrite (wtidy_cancelled _ HW).
  - intros w' wt Hw Hto. rewrite E3 in Hw. destruct (decide (w' = w)) as [->|Hne].
    + rewrite !list_lookup_alter_eq in Hw. destruct (waiters s !! w) as [wt0|]; [|done].
      cbn in Hw. simplify_eq. cbn in Hto. by destruct Hto.
    + rewrite !list_lookup_alter_ne in Hw by done. by apply (wtidy_timer _ HW w' wt).
  - rewrite E1. apply NoDup_filter, HW.
  - rewrite E2. apply NoDup_filter, HW.
Qed.

Lemma WTidy_waiter_listener w id s : WTidy s → WTidy (waiter_listener w id s).
Proof.
  intros HW. unfold waiter_listener.
  destruct (waiters s !! w) as [wt|]; [|done]. case_decide; [|done].
  by apply (WTidy_settled (promise_resolve ()) w s); [apply promise_resolve_settled|..].
Qed.

Lemma WTidy_waiter_timeout w s : WTidy s → WTidy (waiter_timeout w s).
Proof.
  intros HW.
  by apply (WTidy_settled (promise_reject (new_Error "Timeout waiting for job")) w s);
    [apply promise_reject_settled|..].
Qed.

Lemma WTidy_waitForJob jobId timeoutMs s :
  WTidy s → WTidy (fst (waitForJob jobId timeoutMs s)).
Proof.
  intros HW. unfold waitForJob. cbn zeta. destruct (jobStatus_undefined jobId s); [done|].
  set (w := length (waiters s)).
  set (ms := default 3600000%Q timeoutMs).
  set (nw := {| w_jobId := jobId;
                w_timeout := if positive_number ms then Some ms else None;
                w_promise := Unsettled |}).
  assert (∀ f, alter f w (waiters s ++ [{| w_jobId := jobId; w_timeout := None;
                                           w_promise := Unsettled |}])
               = waiters s ++ [f {| w_jobId := jobId; w_timeout := None;
                                    w_promise := Unsettled |}]) as Halter.
  { intros f. unfold w. rewrite alter_app_r_alt by done. by rewrite Nat.sub_diag. }
  match goal with |- WTidy (fst (?t, _)) => set (s' := t) end. cbn [fst].
  assert (waiters s' = waiters s ++ [nw] ∧
          jobProcessedListeners s' = jobProcessedListeners s ++ [w] ∧
          jobCancelledListeners s' = jobCancelledListeners s ++ [w]) as (E1 & E2 & E3).
  { unfold s', nw. destruct (positive_number ms); fields; by rewrite ?Halter. }
  clearbody s'.
  assert (∀ w', (∃ wt, waiters s' !! w' = Some wt ∧ w_promise wt = Unsettled) ↔
                (∃ wt, waiters s !! w' = Some wt ∧ w_promise wt = Unsettled) ∨ w' = w)
    as Hun.
  { intros w'. rewrite E1. split.
    - intros (wt & [Hw|[Hge Hw]]%lookup_app_Some & Hp); [left; eauto|right].
      apply list_lookup_singleton_Some in Hw as [Hz _]. unfold w. lia.
    - intros [(wt & Hw & Hp)| ->].
      + exists wt. by rewrite (lookup_app_l_Some _ _ _ _ Hw).
      + exists nw. unfold w. rewrite lookup_app_r by done. by rewrite Nat.sub_diag. }
  assert (∀ l : list nat,
            (∀ w', w' ∈ l ↔ ∃ wt, waiters s !! w' = Some wt ∧ w_promise wt = Unsettled) →
            NoDup l → NoDup (l ++ [w])) as Hnd.
  { intros l Hl Hl'. apply NoDup_app. split; [done|]. split; [|apply NoDup_singleton].
    intros w' Hin ->%list_elem_of_singleton. apply Hl in Hin as (wt & Hw & _).
    apply lookup_lt_Some in Hw. unfold w in Hw. lia. }
  split.
  - intros w'. rewrite E2, elem_of_app, list_elem_of_singleton, Hun.
    by rewrite (wtidy_processed _ HW).
  - intros w'. rewrite E3, elem_of_app, list_elem_of_singleton, Hun.
    by rewrite (wtidy_cancelled _ HW).
  - intros w' wt Hw Hto. rewrite E1 in Hw.
    apply lookup_app_Some in Hw as [Hw|[_ Hw]]; [by apply (wtidy_timer _ HW w' wt)|].
    by apply list_lookup_singleton_Some in Hw as [_ <-].
  - rewrite E2. apply Hnd; apply HW.
  - rewrite E3. apply Hnd; apply HW.
Qed.

Lemma reachable_WTidy s : reachable s → WTidy s.
Proof.
  apply (waits_reachable WTidy).
  - apply WTidy_waits.
  - apply WTidy_waiter_listener.
  - apply WTidy_waitForJob.
  - intros w wt t _ _. apply WTidy_waiter_timeout.
  - apply WTidy_init.
Qed.

(** * The claims *)

(** C1: with a concurrency limit of at least one, whatever callbacks have
    run (submissions, cancellations, shutdowns, executor settlements),
    [processingJobs] is the number of jobs that hold a slot and lies between
    zero and the limit. *)
Theorem C1_processing_within_limit s :
  1 ≤ concurrency → reachable s →
  get_processing s = Z.of_nat (slots_held (jobs s)) ∧
  0 ≤ get_processing s ≤ concurrency.
Proof.
  intros HK Hs. unfold get_processing.
  pose proof (inv_slots _ (reachable_Inv s Hs)) as Hslots.
  pose proof (reachable_limit s ltac:(lia) Hs). lia.
Qed.

(** C2 (as the code has it): of resolution, rejection and cancellation, the
    first to find the job pending makes it [processed] or [aborted],
    releases its listeners, its timer and its index entry, settles the
    outcome and emits one event; for a rejection this is so when the value
    the executor rejected with is an [Error] or has a string conversion.
    Once the job has left [pending], each of the three only writes a log
    line, [abortJob] with its id still emits ['abort-job'] and does nothing
    else when no pending job has that id, and no callback of the queue
    changes the job's status or outcome any more.  A job is [pending]
    exactly while its outcome is unsettled. *)
Theorem C2_settlement_exactly_once s j b :
  reachable s → jobs s !! j = Some b →
  (j_status b = pending ↔ j_promise b = Unsettled) ∧
  (j_status b = pending →
     (∀ output, first_settlement j b processed (Fulfilled output)
        (job_processed (j_id b) (j_data b) (StatusOutput output) (length (queue s)))
        s (resolve j output s)) ∧
     (∀ err error, to_Error err = Some error →
        ∃ s', reject j err s = Returns s' ∧
          first_settlement j b processed (Rejected error)
            (job_processed (j_id b) (j_data b) (StatusError error) (length (queue s)))
            s s') ∧
     first_settlement j b aborted (Rejected (new_Error "timeout"))
       (job_cancelled (j_id b) (j_data b) timeout_reason (length (queue s)))
       s (onTimeoutOrAbort j s) ∧
     first_settlement j b aborted (Rejected (new_Error "abort"))
       (job_cancelled (j_id b) (j_data b) abort_reason (length (queue s)))
       s (jobAbort_abort j s)) ∧
  (j_status b ≠ pending →
     (∀ output, resolve j output s = log (LogResolvedLate (j_id b)) s) ∧
     (∀ err, reject j err s = Returns (log (LogRejectedLate (j_id b)) s)) ∧
     onTimeoutOrAbort j s = log LogAlreadyProcessed s ∧
     ((∀ k c, jobs s !! k = Some c → j_status c = pending → j_id c ≠ j_id b) →
        abortJob (j_id b) s = set_emitted (emitted s ++ [abort_job (j_id b)]) s) ∧
     (∀ a s', step s a = Some s' →
        status_of j s' = Some (j_status b) ∧ promise_of j s' = Some (j_promise b))).
Proof.
  intros Hs Hj. pose proof (reachable_Inv s Hs) as HI.
  split; [|split; intros Hst].
  - split; [intros Hst; by apply (inv_pending _ HI j b)|].
    intros Hp. destruct (decide (j_status b = pending)) as [|Hst]; [done|].
    by destruct (inv_settled _ HI j b Hj Hst).
  - split; [|split; [|split]].
    + intros output. by apply resolve_first.
    + intros err error He. by apply reject_first.
    + by apply onTimeoutOrAbort_first.
    + by apply jobAbort_abort_first.
  - split; [|split; [|split; [|split]]].
    + intros output. by apply resolve_late.
    + intros err. by apply reject_late.
    + by eapply onTimeoutOrAbort_late.
    + intros Hid. apply abortJob_no_pending; [by apply reachable_Tidy|done].
    + intros a s' Hstep.
      destruct (final_stable s a s' j b HI Hstep Hj Hst) as (b' & Hb' & E1 & E2).
      unfold status_of, promise_of. rewrite Hb'. cbn. by rewrite E1, E2.
Qed.

(** C3 (as the code has it): the slot of a running job is given back by the
    [then] callback that follows the settlement of its executor, whatever the
    executor settled with and whether or not the job was cancelled in
    between: [processingJobs] goes down by one and [run] is called.  A
    cancellation by itself leaves [processingJobs], the backlog and the
    executor calls as they were. *)
Theorem C3_slot_released_on_executor_settlement s j :
  reachable s →
  (∀ r, exec_of j s = Some Executing →
     ∃ s1 s2, step s (ExecutorSettles j r) = Some s1 ∧
       processingJobs s1 = processingJobs s ∧
       step s1 (ExecuteJobThen j) = Some s2 ∧
       s2 = run (set_processingJobs (processingJobs s - 1)
                   (update_job (set_exec Released) j s1))) ∧
  (∀ a s', cancels a → step s a = Some s' →
     processingJobs s' = processingJobs s ∧ queue s' = queue s ∧
     executed s' = executed s).
Proof.
  intros Hs. pose proof (reachable_Inv s Hs) as HI. split.
  - intros r Hex. cbn [step]. rewrite decide_True by done.
    apply exec_of_Some in Hex as (b & Hj & Hex).
    destruct (settles_spec j r s b Hj Hex) as (Hle & b1 & Hj1 & Hb1).
    eexists _, _. split; [done|]. split; [fields; apply (le_processingJobs _ _ Hle)|].
    rewrite decide_True.
    + split; [done|]. fields. by rewrite (le_processingJobs _ _ Hle).
    + unfold exec_of. fields. by rewrite list_lookup_alter_eq, Hj1.
  - intros a s' Ha Hstep.
    pose proof (step_state_le s a s' HI Hstep (cancels_settles_only a Ha)) as Hle.
    by destruct Hle.
Qed.

(** C4: job references are handed out in submission order.  If the executor
    was called for [j2], then an earlier job [j1] that was not skipped as
    cancelled had its executor called before; and dropping a cancelled entry
    from the head of the backlog leaves the rest of the backlog, in its
    order, to the loop. *)
Theorem C4_fifo_admission :
  (∀ s j1 j2, reachable s → (j1 < j2)%nat → j2 ∈ executed s → ¬ skipped j1 s →
     ∃ l1 l2 l3, executed s = l1 ++ j1 :: l2 ++ j2 :: l3) ∧
  (∀ t j q, queue t = j :: q → item_aborted j t = true →
     processingJobs t < concurrency → run t = run (set_queue q t)).
Proof.
  split.
  2:{ intros t j q Hq Hab HK. by apply (run_skip t j q). }
  intros s j1 j2 Hs Hlt H2 Hskip. pose proof (reachable_Inv s Hs) as HI.
  pose proof (inv_executed_popped _ HI j2 H2) as Hp2.
  assert (j1 ∈ executed s) as H1.
  { destruct (decide (j1 ∈ executed s)) as [|Hn]; [done|]. exfalso. apply Hskip.
    assert (is_Some (jobs s !! j1)) as [b1 Hb1].
    { apply lookup_lt_is_Some. unfold popped in Hp2. lia. }
    split; [|done]. unfold status_of. rewrite Hb1. cbn.
    f_equal. apply (inv_skipped _ HI j1 b1 Hb1); [lia|done]. }
  apply list_elem_of_split in H2 as (la & lb & Hsplit).
  pose proof (inv_executed_sorted _ HI) as Hsorted. rewrite Hsplit in Hsorted, H1.
  apply elem_of_app in H1 as [H1|H1].
  - apply list_elem_of_split in H1 as (l1 & l2 & ->).
    exists l1, l2, lb. rewrite Hsplit. by rewrite <- (assoc_L (++)).
  - exfalso. apply StronglySorted_app_1_r in Hsorted.
    apply StronglySorted_cons in Hsorted as [Hall _].
    apply elem_of_cons in H1 as [->|H1]; [lia|].
    rewrite Forall_forall in Hall. specialize (Hall j1 H1). lia.
Qed.

(** C5: a job cancelled while it is still in the backlog (by its id, by a
    shutdown, by the caller's signal or by its deadline) is rejected with
    [abort], or [timeout] for the deadline; the cancellation does not change
    [processingJobs]; and whatever callbacks follow, the executor is never
    called for it and it never holds a slot. *)
Theorem C5_cancelled_while_pending_never_runs s j b a s' :
  reachable s → jobs s !! j = Some b → j_status b = pending → j ∈ queue s →
  cancels_job a j b → step s a = Some s' →
  status_of j s' = Some aborted ∧
  promise_of j s' = Some (Rejected (new_Error (cancel_message a))) ∧
  processingJobs s' = processingJobs s ∧
  ∀ l s'', steps s' l = Some s'' →
    (j ∉ executed s'') ∧ exec_of j s'' = Some NotStarted ∧
    status_of j s'' = Some aborted ∧
    promise_of j s'' = Some (Rejected (new_Error (cancel_message a))).
Proof.
  intros Hs Hj Hst Hin Ha Hstep. pose proof (reachable_Inv s Hs) as HI.
  destruct (cancels_job_hits s a s' j b HI Hj Hst Ha Hstep) as (E1 & E2 & Hle).
  split; [done|]. split; [done|]. split; [apply (le_processingJobs _ _ Hle)|].
  intros l s'' Hl.
  unfold status_of, promise_of in E1, E2.
  destruct (jobs s' !! j) as [b'|] eqn:Hb'; [|done]. cbn in E1, E2.
  destruct (skipped_forever l s' s'' j b') as (b'' & Hb'' & F1 & F2 & F3 & F4);
    try done.
  - by eapply Inv_step.
  - congruence.
  - rewrite (le_executed _ _ Hle). by apply queue_not_executed.
  - unfold exec_of, status_of, promise_of. rewrite Hb''. cbn.
    repeat split; try done; congruence.
Qed.

(** C6: [process] arms the deadline timer exactly when [queueTimeout] is
    positive, with a delay of [queueTimeout * 1000] counted from the call of
    [process], whether [run] started the job in that call or left it in the
    backlog.  When the timer fires on a job that is still pending (waiting
    for a slot or running), the job becomes [aborted], its promise is
    rejected with [timeout] and ['job-cancelled'] is emitted with reason
    [timeout]. *)
Theorem C6_deadline_timer :
  (∀ t id data queueTimeout signal,
     let secs := default 0%Q queueTimeout in
     (j_timeout <$> jobs (process id data queueTimeout signal t) !! length (jobs t))
       = Some (if positive_number secs then Some (secs * 1000)%Q else None) ∧
     (positive_number secs = true ↔ (0 < secs)%Q)) ∧
  (∀ s j b ms,
     reachable s → jobs s !! j = Some b → j_status b = pending →
     j_timeout b = Some ms →
     ∃ s', step s (TimeoutFires j) = Some s' ∧
       first_settlement j b aborted (Rejected (new_Error "timeout"))
         (job_cancelled (j_id b) (j_data b) timeout_reason (length (queue s))) s s').
Proof.
  split.
  - intros t id data queueTimeout signal secs. split; [|apply positive_number_spec].
    destruct (process_new_job id data queueTimeout signal t) as (b' & -> & Hb').
    cbn [fmap option_fmap option_map]. f_equal.
    by destruct Hb' as [-> | ->].
  - intros s j b ms Hs Hj Hst Hms. pose proof (reachable_Inv s Hs) as HI.
    cbn [step]. rewrite Hj, Hms. eexists. split; [done|].
    by apply (timeout_fired_first j b s).
Qed.

(** C7 (as the code has it): [abort()] cancels every job that is pending
    (waiting or running): each one ends [aborted], with its promise rejected
    with [abort] and a ['job-cancelled'] event with reason [abort] emitted
    during the call; no job is left pending.  The queue then holds a fresh
    controller, so a job submitted afterwards is pending, unsettled and the
    only listener of that controller.  The shutdown frees no slot: the new
    job is handed to the executor in the call of [process] when a slot is
    free, and waits in the backlog otherwise, until the executor of a job
    that was running at the shutdown settles and its [then] callback calls
    [run], which drops the cancelled entries and starts the new job. *)
Theorem C7_shutdown_cancels_and_resets s :
  reachable s →
  (∀ j b, jobs s !! j = Some b → j_status b = pending → was_aborted b j s (abort s)) ∧
  (∀ j x, jobs (abort s) !! j = Some x → j_status x ≠ pending) ∧
  queueAbort (abort s) = new_AbortController ∧
  processingJobs (abort s) = processingJobs s ∧
  (∀ id data queueTimeout signal,
     let j := length (jobs s) in
     let s' := process id data queueTimeout signal (abort s) in
     status_of j s' = Some pending ∧
     promise_of j s' = Some Unsettled ∧
     ac_aborted (queueAbort s') = false ∧
     ac_listeners (queueAbort s') = [j] ∧
     (processingJobs s < concurrency → j ∈ executed s') ∧
     (¬ processingJobs s < concurrency →
        (j ∉ executed s') ∧ queue s' = queue s ++ [j] ∧
        processingJobs s' = processingJobs s ∧
        ∀ k r, 0 ≤ concurrency → exec_of k s = Some Executing →
          ∃ s1 s2, step s' (ExecutorSettles k r) = Some s1 ∧
                   step s1 (ExecuteJobThen k) = Some s2 ∧
                   j ∈ executed s2 ∧ status_of j s2 = Some pending)).
Proof.
  intros Hs. pose proof (reachable_Inv s Hs) as HI.
  destruct (abort_spec s HI) as (Hle & Hhit & Hnone & Hfresh).
  split; [done|]. split; [done|]. split; [done|].
  split; [apply (le_processingJobs _ _ Hle)|].
  intros id data queueTimeout signal j s'.
  pose proof (Forall2_length _ _ _ (le_jobs _ _ Hle)) as Hlen.
  pose proof (Inv_le _ _ HI Hle) as HI'.
  destruct (process_new_job id data queueTimeout signal (abort s)) as (b' & Hb' & Hs').
  rewrite <- Hlen in Hb'. fold j in Hb'. fold s' in Hb'.
  assert (queueAbort s' = addEventListener j new_AbortController) as Hqa.
  { unfold s'. rewrite process_enqueued. unfold run.
    destruct (run_loop_frame (queue (enqueued id data queueTimeout signal (abort s)))
                (enqueued id data queueTimeout signal (abort s))) as (-> & _).
    cbn [queueAbort enqueued]. by rewrite Hfresh, <- Hlen. }
  unfold status_of at 1, promise_of. rewrite Hb', Hqa.
  cbn [fmap option_fmap option_map ac_aborted ac_listeners addEventListener
       new_AbortController app].
  split; [by destruct Hs' as [-> | ->]|]. split; [by destruct Hs' as [-> | ->]|].
  split; [done|]. split; [done|].
  set (t := enqueued id data queueTimeout signal (abort s)).
  assert (jobs t !! j = Some (submitted_job id data queueTimeout signal)) as Hj.
  { unfold t, j. cbn [jobs enqueued]. rewrite Hlen, lookup_app_r by done.
    by rewrite Nat.sub_diag. }
  assert (queue t = queue s ++ [j]) as Hqt.
  { unfold t, j. cbn [queue enqueued]. by rewrite (le_queue _ _ Hle), Hlen. }
  assert (processingJobs t = processingJobs s) as Hpt.
  { unfold t. cbn [processingJobs enqueued]. apply (le_processingJobs _ _ Hle). }
  assert (∀ k, k ∈ queue s → ∃ x, jobs t !! k = Some x ∧ j_status x = aborted ∧
                                  j_exec x = NotStarted) as Hstale.
  { intros k Hk. rewrite <- (le_queue _ _ Hle) in Hk.
    assert (is_Some (jobs (abort s) !! k)) as [x Hx].
    { apply lookup_lt_is_Some. rewrite (inv_queue _ HI') in Hk.
      apply elem_of_seq in Hk. pose proof (inv_queue_length _ HI').
      unfold popped in Hk. lia. }
    exists x. split.
    - unfold t. cbn [jobs enqueued]. by apply lookup_app_l_Some.
    - pose proof (Hnone k x Hx) as Hnp.
      pose proof (queue_not_executed _ k HI' Hk) as Hnex.
      apply (inv_exec _ HI' k x Hx) in Hnex.
      pose proof (inv_processed _ HI' k x Hx) as Hproc.
      split; [|done]. destruct (j_status x); [done|by destruct Hproc|done]. }
  assert (s' = run t) as Hrun by (unfold s'; by rewrite process_enqueued).
  split.
  - intros HK. rewrite Hrun. unfold run. rewrite Hqt. apply run_loop_reaches.
    + intros k Hk. apply item_aborted_true.
      destruct (Hstale k Hk) as (x & Hx & Hst & _). eauto.
    + unfold item_aborted, status_of. rewrite Hj. cbn. by rewrite bool_decide_eq_false.
    + by rewrite Hj.
    + by rewrite Hpt.
  - intros HK.
    assert (s' = t) as Hst'.
    { rewrite Hrun. unfold run. apply run_loop_full. by rewrite Hpt. }
    assert (j ∉ executed t) as Hnex.
    { unfold t. cbn [executed enqueued]. rewrite (le_executed _ _ Hle).
      intros Hin. apply (inv_executed_popped _ HI) in Hin. unfold popped, j in Hin. lia. }
    rewrite Hst'. split; [done|]. split; [done|]. split; [done|].
    intros k r HK0 Hex. apply exec_of_Some in Hex as (bk & Hk & Hex).
    assert (k ≠ j) as Hkj.
    { apply lookup_lt_Some in Hk. unfold j. lia. }
    destruct (Forall2_lookup_l _ _ _ _ _ (le_jobs _ _ Hle) Hk) as (xk & Hxk & Hlek).
    assert (jobs t !! k = Some xk) as Hk'.
    { unfold t. cbn [jobs enqueued]. by apply lookup_app_l_Some. }
    assert (j_exec xk = Executing) as Hex' by (by rewrite (le_exec _ _ Hlek)).
    destruct (settles_spec k r t xk Hk' Hex') as (Hle1 & b1 & Hk1 & Hb1).
    destruct (settle_spec k r t) as [_ Hframe].
    { intros x ?. simplify_eq. by rewrite Hex'. }
    cbn [step]. rewrite decide_True by (apply exec_of_Some; eauto).
    eexists _, _. split; [done|].
    rewrite decide_True
      by (unfold exec_of; fields; by rewrite list_lookup_alter_eq, Hk1).
    split; [done|]. fields.
    match goal with |- _ ∈ executed (run ?v) ∧ _ => set (u := v) end.
    assert (∀ i, i ≠ k → jobs u !! i = jobs t !! i) as Hu.
    { intros i Hi. unfold u. fields. rewrite !list_lookup_alter_ne by done.
      by apply Hframe. }
    assert (queue u = queue s ++ [j]) as Hqu.
    { unfold u. fields. by rewrite (le_queue _ _ Hle1). }
    assert (processingJobs u < concurrency) as Hpu.
    { unfold u. fields. rewrite (le_processingJobs _ _ Hle1), Hpt.
      pose proof (reachable_limit s HK0 Hs). lia. }
    assert (jobs u !! j = Some (submitted_job id data queueTimeout signal)) as Hju
      by (by rewrite Hu).
    split.
    + unfold run. rewrite Hqu. apply run_loop_reaches; [| |by rewrite Hju|done].
      * intros i Hi. apply item_aborted_true.
        destruct (Hstale i Hi) as (x & Hx & Hst & Hns).
        exists x. split; [|done]. rewrite Hu; [done|]. intros ->.
        rewrite Hk' in Hx. simplify_eq. by rewrite Hex' in Hns.
      * unfold item_aborted, status_of. rewrite Hju. cbn.
        by rewrite bool_decide_eq_false.
    + unfold run. destruct (run_loop_lookup (queue u) u j _ Hju) as (x & Hx & Hxs).
      unfold status_of. rewrite Hx. cbn. by destruct Hxs as [-> | ->].
Qed.

(** C8 (as the code has it): [waitForJob] returns at once, changing
    nothing, when the id is neither in the job index nor a name of
    [Object.prototype].  For an id in the index it registers a waiter that
    listens for ['job-processed'] and ['job-cancelled'] and whose timer is
    armed exactly when [timeoutMs] (3600000 by default) is positive.  The
    first settlement or cancellation of a pending job with that id fulfils
    the waiter, and what happens to a job with another id leaves it waiting;
    the timer, when it was armed and fires first, rejects it with the
    wait-timeout error; either one removes the listeners and clears the
    timer, so the other cannot follow.  Without a timer the timeout callback
    never runs. *)
Theorem C8_waitForJob s jobId timeoutMs :
  let ms := default 3600000%Q timeoutMs in
  (jobStatus s !! jobId = None → jobId ∉ Object_prototype →
     waitForJob jobId timeoutMs s = (s, None)) ∧
  (is_Some (jobStatus s !! jobId) →
     ∃ s', waitForJob jobId timeoutMs s = (s', Some (length (waiters s))) ∧
       waiting (length (waiters s))
         {| w_jobId := jobId;
            w_timeout := if positive_number ms then Some ms else None;
            w_promise := Unsettled |} s') ∧
  (positive_number ms = true ↔ (0 < ms)%Q) ∧
  (∀ t w wt, waiting w wt t → w_jobId wt = jobId →
     (∀ j b, jobs t !! j = Some b → j_status b = pending → j_id b = jobId →
        (∀ output, wait_over w wt (Fulfilled ()) (resolve j output t)) ∧
        (∀ err error, to_Error err = Some error →
           wait_over w wt (Fulfilled ()) (settle j (ExecutorRejected err) t)) ∧
        wait_over w wt (Fulfilled ()) (onTimeoutOrAbort j t) ∧
        (j_jobAbort b = false → wait_over w wt (Fulfilled ()) (jobAbort_abort j t))) ∧
     (∀ j b, jobs t !! j = Some b → j_id b ≠ jobId →
        (∀ r, waiting w wt (settle j r t)) ∧
        waiting w wt (onTimeoutOrAbort j t) ∧
        waiting w wt (jobAbort_abort j t)) ∧
     (∀ ms', w_timeout wt = Some ms' →
        ∃ t', step t (WaitTimeoutFires w) = Some t' ∧
              wait_over w wt (Rejected (new_Error "Timeout waiting for job")) t') ∧
     (w_timeout wt = None → step t (WaitTimeoutFires w) = None)) ∧
  (∀ t w wt p, wait_over w wt p t → step t (WaitTimeoutFires w) = None).
Proof.
  intros ms. split; [|split; [|split; [|split]]].
  - intros Hno Hown. unfold waitForJob, jobStatus_undefined. cbn zeta.
    by rewrite bool_decide_eq_true_2.
  - intros [x Hx]. unfold waitForJob, jobStatus_undefined. cbn zeta.
    rewrite bool_decide_eq_false_2 by (rewrite Hx; by intros [? _]). fold ms.
    eexists. split; [done|]. unfold waiting.
    assert (∀ f, alter f (length (waiters s))
              (waiters s ++ [{| w_jobId := jobId; w_timeout := None;
                                w_promise := Unsettled |}])
            = waiters s ++ [f {| w_jobId := jobId; w_timeout := None;
                                 w_promise := Unsettled |}]) as Halter.
    { intros f. rewrite alter_app_r_alt by done. by rewrite Nat.sub_diag. }
    destruct (positive_number ms); fields; rewrite ?Halter;
      rewrite lookup_app_r by done; rewrite Nat.sub_diag;
      (split; [done|]); (split; [done|]);
      split; apply elem_of_app; right; by apply list_elem_of_singleton.
  - apply positive_number_spec.
  - intros t w wt Hwait Hid. pose proof Hwait as (Hw & Hp & H1 & H2).
    split; [|split; [|split]].
    + intros j b Hj Hst Hjid.
      assert (wait_over w wt (Fulfilled ())
                (notify (j_id b) (jobProcessedListeners t) t)) as Hproc.
      { apply notify_resolves; try done. congruence. }
      assert (wait_over w wt (Fulfilled ())
                (notify (j_id b) (jobCancelledListeners t) t)) as Hcanc.
      { apply notify_resolves; try done. congruence. }
      split; [|split; [|split]].
      * intros output. rewrite (resolve_pending_eq j output t b Hj Hst).
        by eapply wait_over_waits; [|apply Hproc].
      * intros err error He. rewrite (settle_rejected_pending j err error t b Hj Hst He).
        by eapply wait_over_waits; [|apply Hproc].
      * rewrite (onTimeoutOrAbort_pending_eq j t b Hj Hst).
        by eapply wait_over_waits; [|apply Hcanc].
      * intros Hab. rewrite (jobAbort_abort_pending_eq j t b Hj Hab Hst).
        by eapply wait_over_waits; [|apply Hcanc].
    + intros j b Hj Hjid. apply (waiting_other_job w wt j b t Hwait Hj). congruence.
    + intros ms' Hms. cbn [step]. rewrite Hw, Hms. eexists. split; [done|].
      by apply waiter_timeout_over.
    + intros Hms. cbn [step]. by rewrite Hw, Hms.
  - intros t w wt p (Hw & _). cbn [step]. by rewrite Hw.
Qed.

(** C9 (the code at a rejected executor promise): the reaction always runs
    and the promise of [executeJob] resolves, and no other job is touched.
    A job that is still pending has its own promise rejected with the
    executor's error (made an [Error] when it was not one) and
    ['job-processed'] carries that error, when the value is an [Error] or
    has a string conversion.  When it has none, [reject] throws: the job
    stays pending with its outcome unsettled, no event is emitted, and the
    promise chain of [executeJob] ends in a rejection that nothing handles.
    For a job that was cancelled before, only a log line is written: its
    outcome stays what the cancellation made it and no event is emitted. *)
Theorem C9_executor_failure s j b err :
  reachable s → jobs s !! j = Some b → j_exec b = Executing →
  ∃ s', step s (ExecutorSettles j (ExecutorRejected err)) = Some s' ∧
    exec_of j s' = Some ExecSettled ∧
    (∀ k, k ≠ j → jobs s' !! k = jobs s !! k) ∧
    (j_status b = pending → ∀ error, to_Error err = Some error →
       status_of j s' = Some processed ∧
       promise_of j s' = Some (Rejected error) ∧
       emitted s' = emitted s ++
         [job_processed (j_id b) (j_data b) (StatusError error) (length (queue s))] ∧
       unhandled s' = unhandled s) ∧
    (j_status b = pending → to_Error err = None →
       s' = update_job (set_exec ExecSettled) j (set_unhandled (unhandled s ++ [j]) s) ∧
       status_of j s' = Some pending ∧
       promise_of j s' = Some Unsettled ∧
       emitted s' = emitted s ∧
       unhandled s' = unhandled s ++ [j]) ∧
    (j_status b ≠ pending →
       s' = update_job (set_exec ExecSettled) j (log (LogRejectedLate (j_id b)) s) ∧
       promise_of j s' = Some (j_promise b) ∧ emitted s' = emitted s ∧
       unhandled s' = unhandled s) ∧
    (∀ e, to_Error (ThrownError e) = Some e) ∧
    (∀ str, to_Error (ThrownOther str) = Some (new_Error str)) ∧
    to_Error ThrownUnprintable = None.
Proof.
  intros Hs Hj Hex. pose proof (reachable_Inv s Hs) as HI.
  cbn [step]. rewrite decide_True by (apply exec_of_Some; eauto).
  eexists. split; [done|].
  destruct (settles_spec j (ExecutorRejected err) s b Hj Hex) as (Hle & b1 & Hj1 & Hb1).
  destruct (settle_spec j (ExecutorRejected err) s) as [_ Hframe].
  { intros x ?. simplify_eq. by rewrite Hex. }
  split; [|split; [|split; [|split; [|split]]]].
  - unfold exec_of. fields. by rewrite list_lookup_alter_eq, Hj1.
  - intros k Hk. fields. rewrite list_lookup_alter_ne by done. by apply Hframe.
  - intros Hst error He. destruct (inv_pending _ HI j b Hj Hst) as (_ & Hpr & _).
    assert (j < length (jobs s))%nat by (by eapply lookup_lt_Some).
    rewrite (settle_rejected_pending j err error s b Hj Hst He).
    unfold status_of, promise_of, copy_waits, with_waits, finished. fields.
    rewrite list_lookup_alter_eq, list_lookup_insert_eq by done.
    cbn [fmap option_fmap option_map]. fields. cbn [job_after j_status j_promise].
    by rewrite Hpr.
  - intros Hst He. destruct (inv_pending _ HI j b Hj Hst) as (_ & Hpr & _).
    rewrite (settle_rejected_throws j err s b Hj Hst He).
    split; [done|]. unfold status_of, promise_of. fields.
    rewrite list_lookup_alter_eq, Hj. cbn [fmap option_fmap option_map]. fields.
    by rewrite Hst, Hpr.
  - intros Hst. rewrite (settle_rejected_late j err s b Hj Hst). split; [done|].
    unfold promise_of. fields. by rewrite list_lookup_alter_eq, Hj.
  - done.
Qed.


(** * Further properties of the queue *)

(** X1: between two callbacks, a job waits in the backlog only while every
    slot is taken.  When [processing] is below the limit the backlog is
    empty, and when the backlog is not empty, [processing] equals the limit
    (taken to be at least zero). *)
Theorem X1_no_job_waits_for_a_free_slot s :
  reachable s →
  (get_processing s < concurrency → get_length s = 0%nat) ∧
  (0 ≤ concurrency → get_length s ≠ 0%nat → get_processing s = concurrency).
Proof.
  intros Hs. unfold get_processing, get_length. split.
  - intros Hlt. by rewrite (reachable_idle s Hs Hlt).
  - intros HK Hne. pose proof (reachable_limit s HK Hs) as Hle.
    destruct (decide (processingJobs s < concurrency)) as [Hlt|Hge]; [|lia].
    by rewrite (reachable_idle s Hs Hlt) in Hne.
Qed.

(** X2: [process] with a free slot calls the executor for the new job before
    it returns: the job is marked as being processed in [jobStatus], takes a
    slot and never enters the backlog the caller can see.  Without a free
    slot the job is appended to the backlog, its index entry is [false], and
    no executor is called. *)
Theorem X2_process_starts_or_queues s id data queueTimeout signal :
  reachable s →
  let j := length (jobs s) in
  let s' := process id data queueTimeout signal s in
  (get_processing s < concurrency →
     executed s' = executed s ++ [j] ∧ exec_of j s' = Some Executing ∧
     get_length s' = 0%nat ∧ get_processing s' = get_processing s + 1 ∧
     jobStatus s' !! id = Some true) ∧
  (¬ get_processing s < concurrency →
     executed s' = executed s ∧ exec_of j s' = Some NotStarted ∧
     queue s' = queue s ++ [j] ∧ get_processing s' = get_processing s ∧
     jobStatus s' !! id = Some false) ∧
  status_of j s' = Some pending.
Proof.
  intros Hs j s'. unfold get_processing, get_length.
  assert (jobs (enqueued id data queueTimeout signal s) !! j
          = Some (submitted_job id data queueTimeout signal)) as Hnew.
  { cbn [jobs enqueued]. unfold j. rewrite lookup_app_r by done.
    by rewrite Nat.sub_diag. }
  destruct (decide (processingJobs s < concurrency)) as [Hlt|Hfull].
  - assert (s' = executeJob j (set_processingJobs (processingJobs s + 1)
                    (set_queue [] (enqueued id data queueTimeout signal s)))) as Hs'.
    { apply process_free_slot; [|done]. by apply reachable_idle. }
    rewrite (executeJob_eq j (submitted_job id data queueTimeout signal)) in Hs' by done.
    assert (jobs s' !! j = Some (set_exec Executing
              (submitted_job id data queueTimeout signal))) as Hj.
    { rewrite Hs'. cbn [jobs]. apply list_lookup_insert_eq. by eapply lookup_lt_Some. }
    split; [|split; [done|]].
    + intros _. unfold exec_of. rewrite Hj. rewrite Hs'. cbn [executed queue processingJobs
        jobStatus set_processingJobs set_queue enqueued length fmap option_fmap option_map].
      repeat split; try done. apply lookup_insert_eq.
    + unfold status_of. by rewrite Hj.
  - assert (s' = enqueued id data queueTimeout signal s) as Hs'.
    { unfold s'. rewrite process_enqueued. by apply run_loop_full. }
    split; [done|]. rewrite Hs'. unfold exec_of, status_of. rewrite Hnew.
    split; [|done]. intros _. cbn [executed queue processingJobs jobStatus enqueued].
    repeat split; try done. apply lookup_insert_eq.
Qed.

(** X3: the executor is only called for a job that is pending at that
    moment: its promise is unsettled and the signal it is handed is not
    aborted.  The job is the one [process] is creating or an entry of the
    backlog. *)
Theorem X3_executor_called_for_pending_jobs_only s a s' j :
  reachable s → step s a = Some s' → j ∈ executed s' → j ∉ executed s →
  ∃ b, jobs s' !! j = Some b ∧ j_status b = pending ∧ j_exec b = Executing ∧
       j_jobAbort b = false ∧ j_promise b = Unsettled ∧
       ((∃ id data queueTimeout signal,
           a = Process id data queueTimeout signal ∧ j = length (jobs s)) ∨
        j ∈ queue s).
Proof.
  intros Hs Hstep Hin Hnot. pose proof (reachable_Inv s Hs) as HI.
  destruct (step_executes s a s' j HI Hstep Hin Hnot) as (b & Hb & Hst & Hex & Hfrom).
  destruct (inv_pending _ (Inv_step _ _ _ HI Hstep) j b Hb Hst) as (Hab & Hpr & _).
  by exists b.
Qed.


(** X5: the events account for the jobs.  The ['job-added'] events, in the
    order they were emitted, announce the jobs in the order [process]
    created them, with their id and data.  For every id, the terminal events
    (['job-processed'] and ['job-cancelled']) with that id are as many as
    the jobs with that id that have left [pending]: a job gets its terminal
    event when it leaves [pending] and never a second one. *)
Theorem X5_events_account_for_jobs s :
  reachable s →
  added_jobs (emitted s) = (λ b, (j_id b, j_data b)) <$> jobs s ∧
  ∀ id,
    sum_list_with (added_for id) (emitted s) = sum_list_with (submitted_as id) (jobs s) ∧
    sum_list_with (terminal_for id) (emitted s)
      = sum_list_with (left_pending_as id) (jobs s).
Proof.
  intros Hs. split; [by apply reachable_Ordered|]. by apply reachable_Counted.
Qed.

(** X6: [jobStatus] against the jobs.  An id is in the index only while a
    pending job has it.  When no two jobs were given the same id, the index
    holds exactly the pending jobs, [false] until the executor is called and
    [true] from then on, and [waitForJob] returns at once for a job that
    has left [pending]. *)
Theorem X6_job_index_tracks_pending_jobs s :
  reachable s →
  (∀ id, is_Some (jobStatus s !! id) →
     ∃ j b, jobs s !! j = Some b ∧ j_id b = id ∧ j_status b = pending) ∧
  (NoDup (j_id <$> jobs s) →
     ∀ j b, jobs s !! j = Some b →
       jobStatus s !! j_id b = (if decide (j_status b = pending)
                                then Some (started b) else None) ∧
       (j_status b ≠ pending →
          ∀ timeoutMs, waitForJob (j_id b) timeoutMs s = (s, None))).
Proof.
  intros Hs. pose proof (reachable_Tracked s Hs) as HT. split.
  - intros id [v Hv]. by apply (tracked_pending _ HT id v).
  - intros Hnd j b Hj.
    assert (jobStatus s !! j_id b = (if decide (j_status b = pending)
                                     then Some (started b) else None)) as Hidx.
    { case_decide as Hst; [by apply (tracked_index _ HT Hnd j b)|].
      destruct (jobStatus s !! j_id b) as [v|] eqn:Hv; [|done].
      destruct (tracked_pending _ HT _ v Hv) as (k & c & Hk & Hid & Hp).
      assert (k = j) as -> by (by apply (ids_distinct (jobs s) k j c b)).
      by simplify_eq. }
    split; [done|]. intros Hst timeoutMs. unfold waitForJob, jobStatus_undefined. cbn zeta.
    rewrite bool_decide_eq_true_2; [done|].
    split; [by rewrite Hidx, decide_False|]. by apply (reachable_ids s Hs j b).
Qed.

(** X7: the outcome of a job agrees with its status.  A cancelled job has
    its signal aborted and its promise rejected with [abort] or [timeout];
    a promise is fulfilled only for a processed job, and a job is processed
    only after the executor was called for it. *)
Theorem X7_outcome_agrees_with_status s j b :
  reachable s → jobs s !! j = Some b →
  (j_status b = aborted →
     j_jobAbort b = true ∧
     (j_promise b = Rejected (new_Error "abort") ∨
      j_promise b = Rejected (new_Error "timeout"))) ∧
  (j_status b = processed →
     j ∈ executed s ∧
     ((∃ output, j_promise b = Fulfilled output) ∨ (∃ e, j_promise b = Rejected e))) ∧
  (∀ output, j_promise b = Fulfilled output → j_status b = processed ∧ j ∈ executed s).
Proof.
  intros Hs Hj. pose proof (reachable_Inv s Hs) as HI.
  destruct (reachable_Outcome s j b Hs Hj) as [Hp Ha Hd].
  assert (j_status b = processed → j ∈ executed s) as Hexe.
  { intros Hst. pose proof (inv_processed _ HI j b Hj Hst) as Hns.
    destruct (decide (j ∈ executed s)) as [|Hn]; [done|].
    by apply (inv_exec _ HI j b Hj) in Hn. }
  split; [|split].
  - intros Hst. destruct (Ha Hst) as (Hab & r & Hr). split; [done|].
    rewrite Hr. destruct r; [by left|by right].
  - intros Hst. split; [by apply Hexe|by apply Hd].
  - intros output Hout.
    assert (j_status b = processed) as Hst.
    { destruct (j_status b) eqn:Hst; [|done|].
      - destruct (Hp eq_refl) as [E _]. congruence.
      - destruct (Ha eq_refl) as (_ & r & E). congruence. }
    split; [done|by apply Hexe].
Qed.

(** X8: [abortJob] with an id that no pending job has (an unknown id, or the
    id of a job that has settled or was cancelled) emits ['abort-job'] and
    changes nothing else: no job is touched, nothing is logged. *)
Theorem X8_abortJob_without_pending_job s id :
  reachable s →
  (∀ j b, jobs s !! j = Some b → j_status b = pending → j_id b ≠ id) →
  abortJob id s = set_emitted (emitted s ++ [abort_job id]) s.
Proof. intros Hs Hid. apply abortJob_no_pending; [by apply reachable_Tidy|done]. Qed.

(** X15: [process] does not look at [signal.aborted].  A job submitted with
    a caller's signal that has aborted already is pending like any other
    and listens on that signal, but the signal has had its one ['abort']
    event: whatever callbacks follow, it never cancels the job. *)
Theorem X15_signal_aborted_before_submission s sg id data queueTimeout :
  reachable s → ac_aborted (signal_of sg s) = true →
  let j := length (jobs s) in
  let s' := process id data queueTimeout (Some sg) s in
  status_of j s' = Some pending ∧ promise_of j s' = Some Unsettled ∧
  j ∈ ac_listeners (signal_of sg s') ∧
  ∀ l s'', steps s' l = Some s'' → step s'' (SignalAbort sg) = None.
Proof.
  intros Hs Hsg j s'. pose proof (reachable_Inv s Hs) as HI.
  assert (Inv s') as HI'.
  { unfold s'. rewrite process_enqueued. by apply Inv_run, Inv_enqueued. }
  destruct (process_new_job id data queueTimeout (Some sg) s) as (b' & Hb' & Hex).
  fold j in Hb'. fold s' in Hb'.
  assert (j_status b' = pending ∧ j_signal b' = Some sg) as [Hst Hsig]
    by (by destruct Hex as [-> | ->]).
  destruct (inv_pending _ HI' j b' Hb' Hst) as (_ & Hpr & _ & _ & Hin).
  unfold status_of, promise_of. rewrite Hb'. cbn [fmap option_fmap option_map].
  split; [by rewrite Hst|]. split; [by rewrite Hpr|]. split; [by apply Hin|].
  intros l s'' Hl.
  assert (ac_aborted (signal_of sg s') = true) as Hsg'.
  { unfold s'. rewrite process_enqueued. unfold run, signal_of.
    destruct (run_loop_frame (queue (enqueued id data queueTimeout (Some sg) s))
                (enqueued id data queueTimeout (Some sg) s)) as (_ & -> & _).
    cbn [signals enqueued]. by rewrite lookup_insert_eq. }
  assert (ac_aborted (signal_of sg s'') = true) as Hsg''.
  { apply (updates_keep (λ t, ac_aborted (signal_of sg t) = true) s' s'').
    - intros t t'. apply update_signal_aborted.
    - by eapply steps_updates.
    - done. }
  cbn [step]. by rewrite Hsg''.
Qed.

(** X16: [waitForJob] leaves nothing behind.  A wait that is not over
    listens to ['job-processed'] and to ['job-cancelled'], once each; a wait
    that is over, fulfilled or rejected, has no listener and no timer; and
    every listener belongs to a wait that is not over. *)
Theorem X16_waitForJob_leaves_nothing_behind s :
  reachable s →
  (∀ w wt, waiters s !! w = Some wt → w_promise wt = Unsettled →
     w ∈ jobProcessedListeners s ∧ w ∈ jobCancelledListeners s) ∧
  (∀ w wt, waiters s !! w = Some wt → w_promise wt ≠ Unsettled →
     (w ∉ jobProcessedListeners s) ∧ (w ∉ jobCancelledListeners s) ∧
     w_timeout wt = None) ∧
  (∀ w, w ∈ jobProcessedListeners s ∨ w ∈ jobCancelledListeners s →
     ∃ wt, waiters s !! w = Some wt ∧ w_promise wt = Unsettled) ∧
  NoDup (jobProcessedListeners s) ∧ NoDup (jobCancelledListeners s).
Proof.
  intros Hs. pose proof (reachable_WTidy s Hs) as HW.
  split; [|split; [|split; [|split]]].
  - intros w wt Hw Hp. split; [apply (wtidy_processed _ HW)|apply (wtidy_cancelled _ HW)];
      eauto.
  - intros w wt Hw Hp. split; [|split].
    + intros (wt' & Hw' & Hp')%(wtidy_processed _ HW). by simplify_eq.
    + intros (wt' & Hw' & Hp')%(wtidy_cancelled _ HW). by simplify_eq.
    + destruct (w_timeout wt) as [ms|] eqn:Hto; [|done].
      destruct Hp. apply (wtidy_timer _ HW w wt Hw). by rewrite Hto.
  - intros w [Hin|Hin]; [by apply (wtidy_processed _ HW)|by apply (wtidy_cancelled _ HW)].
  - apply (wtidy_processed_once _ HW).
  - apply (wtidy_cancelled_once _ HW).
Qed.

(** X17: after [abort()], no job that was submitted before it is ever
    started.  Whatever callbacks follow the shutdown, the executor is called
    for none of the earlier jobs it had not been called for, and none of
    them is pending again. *)
Theorem X17_nothing_starts_after_shutdown s l s'' j b :
  reachable s → steps (abort s) l = Some s'' → jobs s !! j = Some b →
  (j ∈ executed s'' → j ∈ executed s) ∧
  ∃ b'', jobs s'' !! j = Some b'' ∧ j_status b'' ≠ pending.
Proof.
  intros Hs Hl Hj. pose proof (reachable_Inv s Hs) as HI.
  destruct (abort_spec s HI) as (Hle & _ & Hnone & _).
  pose proof (Inv_le _ _ HI Hle) as HI'.
  destruct (Forall2_lookup_l _ _ _ _ _ (le_jobs _ _ Hle) Hj) as (x & Hx & _).
  pose proof (Hnone j x Hx) as Hst.
  assert (∃ b'', jobs s'' !! j = Some b'' ∧ j_status b'' ≠ pending) as Hfinal.
  { clear Hj Hle Hnone HI Hs. revert x Hx Hst Hl HI'. generalize (abort s).
    induction l as [|a l IH]; intros t x Hx Hst Hl HI'; cbn [steps] in Hl.
    - simplify_eq. eauto.
    - destruct (step t a) as [t1|] eqn:Hstep; [|done].
      destruct (final_stable t a t1 j x HI' Hstep Hx Hst) as (x1 & Hx1 & E1 & _).
      apply (IH t1 x1); [done|congruence|done|by eapply Inv_step]. }
  split; [|done]. intros Hin.
  destruct (decide (j ∈ executed s)) as [|Hnot]; [done|]. exfalso.
  rewrite <- (le_executed _ _ Hle) in Hnot.
  assert (j_status x = aborted) as Hab.
  { pose proof (inv_processed _ HI' j x Hx) as Hproc.
    pose proof (proj2 (inv_exec _ HI' j x Hx) Hnot) as Hns.
    destruct (j_status x); [done|by destruct Hproc|done]. }
  by destruct (skipped_forever l (abort s) s'' j x HI' Hl Hx Hab Hnot)
    as (_ & _ & _ & _ & _ & Hnever).
Qed.

(** X18: the constructor takes any [concurrency].  With a limit of zero or
    less the loop of [run] never takes a job: every submission stays in the
    backlog, the executor is never called, and a job can only end by being
    cancelled. *)
Theorem X18_no_slot_no_work s :
  concurrency ≤ 0 → reachable s →
  executed s = [] ∧ get_processing s = 0 ∧ get_length s = length (jobs s) ∧
  ∀ j b, jobs s !! j = Some b → j_exec b = NotStarted ∧ j_status b ≠ processed.
Proof.
  intros HK Hs. unfold get_processing, get_length.
  assert (executed s = [] ∧ processingJobs s = 0 ∧ length (queue s) = length (jobs s))
    as (Hex & Hp & Hlen).
  { induction Hs as [|s a s' Hs (Hex & Hp & Hlen) Hstep]; [done|].
    pose proof (reachable_Inv s Hs) as HI.
    assert (∀ k, exec_of k s ≠ Some Executing ∧ exec_of k s ≠ Some ExecSettled) as Hnone.
    { intros k. unfold exec_of. destruct (jobs s !! k) as [x|] eqn:Hk; [|done].
      assert (j_exec x = NotStarted) as Hns.
      - apply (inv_exec _ HI k x Hk). rewrite Hex. apply not_elem_of_nil.
      - cbn. by rewrite Hns. }
    destruct a as [id data qt sig| | | | |k r|k| |];
      try (pose proof (step_state_le _ _ _ HI Hstep Logic.I) as Hle;
           rewrite (le_executed _ _ Hle), (le_processingJobs _ _ Hle), (le_queue _ _ Hle),
             <- (Forall2_length _ _ _ (le_jobs _ _ Hle)); done);
      cbn [step] in Hstep.
    - case_decide; [done|]. simplify_eq. rewrite process_enqueued. unfold run.
      rewrite run_loop_full by (cbn [processingJobs enqueued]; lia).
      cbn [executed processingJobs queue jobs enqueued]. rewrite !length_app, Hlen.
      done.
    - case_decide as E; [|done]. by destruct (Hnone k).
    - case_decide as E; [|done]. by destruct (Hnone k). }
  split; [done|]. split; [done|]. split; [done|].
  intros j b Hj. pose proof (reachable_Inv s Hs) as HI.
  assert (j_exec b = NotStarted) as Hns.
  { apply (inv_exec _ HI j b Hj). rewrite Hex. apply not_elem_of_nil. }
  split; [done|]. intros Hst. by apply (inv_processed _ HI j b Hj Hst).
Qed.

(** X19: the observers hear of a job before they hear of its end.  At
    every point of the event trace, the terminal events of an id are at most
    as many as the ['job-added'] events of that id before them. *)
Theorem X19_job_added_comes_first s e id :
  reachable s → e `prefix_of` emitted s →
  (sum_list_with (terminal_for id) e ≤ sum_list_with (added_for id) e)%nat.
Proof. intros Hs He. by apply (reachable_Ordered s Hs). Qed.

End Queue.

(** * The claims on concrete runs

    A queue of naturals with concurrency 1 (concurrency 2 for the shutdown):
    job "a" is running and job "b" waits in the backlog. *)

Lemma C1_witness :
  let s := after (I:=nat) (O:=nat) 1
             [Process "a" 0%nat None None; Process "b" 1%nat None None] in
  1 ≤ 1 ∧ reachable 1 s ∧
  get_processing s = Z.of_nat (slots_held (jobs s)) ∧ 0 ≤ get_processing s ≤ 1.
Proof.
  cbv zeta. split; [lia|]. split; [apply reachable_after|].
  apply C1_processing_within_limit; [lia|apply reachable_after].
Defined.

Lemma C2_witness :
  let s := after (I:=nat) (O:=nat) 1 [Process "a" 0%nat None None] in
  let b := {| j_id := "a"; j_data := 0%nat; j_signal := None; j_status := pending;
              j_timeout := None; j_jobAbort := false; j_promise := Unsettled;
              j_exec := Executing |} in
  reachable 1 s ∧ jobs s !! 0%nat = Some b ∧ j_status b = pending ∧
  to_Error (ThrownOther "boom") = Some (new_Error "boom") ∧
  status_of 0 (resolve 0 7%nat s) = Some processed ∧
  promise_of 0 (resolve 0 7%nat s) = Some (Fulfilled 7%nat) ∧
  (∃ s', reject 0 (ThrownOther "boom") s = Returns s' ∧
     status_of 0 s' = Some processed ∧
     promise_of 0 s' = Some (Rejected (new_Error "boom"))) ∧
  resolve 0 8%nat (resolve 0 7%nat s) = log (LogResolvedLate "a") (resolve 0 7%nat s).
Proof.
  cbv zeta. match goal with |- reachable _ ?s ∧ _ => set (s0 := s) end.
  split; [apply reachable_after|]. split; [vm_compute; reflexivity|].
  split; [reflexivity|]. split; [reflexivity|].
  destruct (C2_settlement_exactly_once 1 s0 0%nat
    {| j_id := "a"; j_data := 0%nat; j_signal := None; j_status := pending;
       j_timeout := None; j_jobAbort := false; j_promise := Unsettled;
       j_exec := Executing |}) as (_ & Hfirst & _);
    [apply reachable_after|vm_compute; reflexivity|].
  destruct (Hfirst eq_refl) as (Hres & Hrej & _). destruct (Hres 7%nat) as (E1 & E2 & _).
  split; [exact E1|]. split; [exact E2|]. split.
  - destruct (Hrej (ThrownOther "boom") (new_Error "boom") eq_refl)
      as (s' & Hs' & F1 & F2 & _).
    exists s'. split; [exact Hs'|]. split; [exact F1|exact F2].
  - vm_compute. reflexivity.
Defined.

(** A later cancellation attempt is not silent: once job "a" has been
    processed, [abortJob] with its id still emits ['abort-job']. *)
Lemma C2_counterexample :
  let s := after (I:=nat) (O:=nat) 1
             [Process "a" 0%nat None None;
              ExecutorSettles 0%nat (ExecutorFulfilled 7%nat)] in
  status_of 0 s = Some processed ∧
  promise_of 0 s = Some (Fulfilled 7%nat) ∧
  step 1 s (AbortJob "a") = Some (abortJob "a" s) ∧
  emitted s = [job_added "a" 0%nat 1; job_processed "a" 0%nat (StatusOutput 7%nat) 0] ∧
  emitted (abortJob "a" s)
    = [job_added "a" 0%nat 1; job_processed "a" 0%nat (StatusOutput 7%nat) 0;
       abort_job "a"] ∧
  emitted (abortJob "a" s) ≠ emitted s.
Proof. vm_compute. repeat split; discriminate. Defined.

Lemma C3_witness :
  let s := after (I:=nat) (O:=nat) 1 [Process "a" 0%nat None None] in
  reachable 1 s ∧
  (∀ a s', cancels a → step 1 s a = Some s' →
     processingJobs s' = processingJobs s ∧ queue s' = queue s ∧
     executed s' = executed s).
Proof.
  cbv zeta. split; [apply reachable_after|].
  apply (C3_slot_released_on_executor_settlement 1 _ 0%nat). apply reachable_after.
Defined.

(** After a running job was cancelled, [processingJobs] is what it was, and
    a job submitted next stays in the backlog although the only job that
    held the slot is cancelled. *)
Lemma C3_counterexample :
  let s := after (I:=nat) (O:=nat) 1 [Process "a" 0%nat None None] in
  let s' := after (I:=nat) (O:=nat) 1 [Process "a" 0%nat None None; AbortJob "a"] in
  exec_of 0 s = Some Executing ∧ status_of 0 s = Some pending ∧
  processingJobs s = 1 ∧
  step 1 s (AbortJob "a") = Some s' ∧ status_of 0 s' = Some aborted ∧
  processingJobs s' = 1 ∧ processingJobs s' ≠ processingJobs s - 1 ∧
  queue (process 1 "b" 1%nat None None s') = [1%nat] ∧
  executed (process 1 "b" 1%nat None None s') = [0%nat].
Proof. vm_compute. repeat split; discriminate. Defined.

Lemma C4_witness :
  let s := after (I:=nat) (O:=nat) 1
             [Process "a" 0%nat None None; Process "b" 1%nat None None;
              Process "c" 2%nat None None; AbortJob "b";
              ExecutorSettles 0%nat (ExecutorFulfilled 5%nat); ExecuteJobThen 0%nat] in
  reachable 1 s ∧ (0 < 2)%nat ∧ 2%nat ∈ executed s ∧ ¬ skipped 0 s ∧
  skipped 1 s ∧
  ∃ l1 l2 l3, executed s = l1 ++ 0%nat :: l2 ++ 2%nat :: l3.
Proof.
  cbv zeta.
  assert (∀ s : State (I:=nat) (O:=nat), status_of 0 s = Some processed → ¬ skipped 0 s)
    as Hns by (intros s E [E' _]; congruence).
  split; [apply reachable_after|]. split; [lia|].
  split; [vm_compute; repeat constructor|].
  split; [apply Hns; vm_compute; reflexivity|].
  split.
  { split; [vm_compute; reflexivity|]. vm_compute. intros H.
    repeat (apply elem_of_cons in H as [H|H]; [discriminate|]).
    by apply elem_of_nil in H. }
  destruct (C4_fifo_admission (I:=nat) (O:=nat) 1) as [Hfifo _].
  apply (Hfifo _ 0%nat 2%nat).
  - apply reachable_after.
  - lia.
  - vm_compute; repeat constructor.
  - apply Hns; vm_compute; reflexivity.
Defined.

Lemma C5_witness :
  let s := after (I:=nat) (O:=nat) 1
             [Process "a" 0%nat None None; Process "b" 1%nat None None] in
  let b := {| j_id := "b"; j_data := 1%nat; j_signal := None; j_status := pending;
              j_timeout := None; j_jobAbort := false; j_promise := Unsettled;
              j_exec := NotStarted |} in
  reachable 1 s ∧ jobs s !! 1%nat = Some b ∧ j_status b = pending ∧
  1%nat ∈ queue s ∧ cancels_job (AbortJob "b") 1 b ∧
  step 1 s (AbortJob "b") = Some (abortJob "b" s) ∧
  status_of 1 (abortJob "b" s) = Some aborted ∧
  promise_of 1 (abortJob "b" s) = Some (Rejected (new_Error "abort")) ∧
  ∀ l s'', steps 1 (abortJob "b" s) l = Some s'' → 1%nat ∉ executed s''.
Proof.
  cbv zeta. match goal with |- reachable _ ?s ∧ _ => set (s0 := s) end.
  split; [apply reachable_after|]. split; [vm_compute; reflexivity|].
  split; [reflexivity|]. split; [vm_compute; repeat constructor|].
  split; [reflexivity|]. split; [reflexivity|].
  destruct (C5_cancelled_while_pending_never_runs 1 s0 1%nat
    {| j_id := "b"; j_data := 1%nat; j_signal := None; j_status := pending;
       j_timeout := None; j_jobAbort := false; j_promise := Unsettled;
       j_exec := NotStarted |} (AbortJob "b") (abortJob "b" s0))
    as (E1 & E2 & _ & Hnever);
    [apply reachable_after|vm_compute; reflexivity|reflexivity
    |vm_compute; repeat constructor|reflexivity|reflexivity|].
  split; [exact E1|]. split; [exact E2|].
  intros l s'' Hl. by destruct (Hnever l s'' Hl).
Defined.

Lemma C6_witness :
  let s := after (I:=nat) (O:=nat) 1
             [Process "a" 0%nat None None; Process "b" 1%nat (Some (1#100)%Q) None] in
  let b := {| j_id := "b"; j_data := 1%nat; j_signal := None; j_status := pending;
              j_timeout := Some (1000#100)%Q; j_jobAbort := false;
              j_promise := Unsettled; j_exec := NotStarted |} in
  reachable 1 s ∧ jobs s !! 1%nat = Some b ∧ j_status b = pending ∧
  j_timeout b = Some (1000#100)%Q ∧ 1%nat ∈ queue s ∧
  ∃ s', step 1 s (TimeoutFires 1) = Some s' ∧
    status_of 1 s' = Some aborted ∧
    promise_of 1 s' = Some (Rejected (new_Error "timeout")).
Proof.
  cbv zeta. match goal with |- reachable _ ?s ∧ _ => set (s0 := s) end.
  split; [apply reachable_after|]. split; [vm_compute; reflexivity|].
  split; [reflexivity|]. split; [reflexivity|].
  split; [vm_compute; repeat constructor|].
  destruct (C6_deadline_timer (I:=nat) (O:=nat) 1) as [_ Hfires].
  destruct (Hfires s0 1%nat
    {| j_id := "b"; j_data := 1%nat; j_signal := None; j_status := pending;
       j_timeout := Some (1000#100)%Q; j_jobAbort := false;
       j_promise := Unsettled; j_exec := NotStarted |} (1000#100)%Q)
    as (s' & Hstep & E1 & E2 & _);
    [apply reachable_after|vm_compute; reflexivity|reflexivity|reflexivity|].
  exists s'. by repeat split.
Defined.

Lemma C7_witness :
  let s := after (I:=nat) (O:=nat) 2
             [Process "a" 0%nat None None; Process "b" 1%nat None None;
              Process "c" 2%nat None None] in
  let s' := process 2 "d" 3%nat None None (abort s) in
  reachable 2 s ∧ ¬ processingJobs s < 2 ∧ 0 ≤ 2 ∧ exec_of 0 s = Some Executing ∧
  (∀ j x, jobs (abort s) !! j = Some x → j_status x ≠ pending) ∧
  queueAbort (abort s) = new_AbortController ∧
  status_of 3 s' = Some pending ∧
  (3%nat ∉ executed s') ∧
  queue s' = queue s ++ [3%nat] ∧
  ∃ s1 s2, step 2 s' (ExecutorSettles 0%nat (ExecutorFulfilled 5%nat)) = Some s1 ∧
           step 2 s1 (ExecuteJobThen 0%nat) = Some s2 ∧
           3%nat ∈ executed s2 ∧ status_of 3 s2 = Some pending.
Proof.
  cbv zeta. match goal with |- reachable _ ?s ∧ _ => set (s0 := s) end.
  assert (¬ processingJobs s0 < 2) as Hfull by (vm_compute; discriminate).
  assert (exec_of 0 s0 = Some Executing) as Hex by (vm_compute; reflexivity).
  split; [apply reachable_after|]. split; [exact Hfull|]. split; [lia|].
  split; [exact Hex|].
  destruct (C7_shutdown_cancels_and_resets 2 s0) as (_ & Hnone & Hfresh & _ & Hnew);
    [apply reachable_after|].
  split; [exact Hnone|]. split; [exact Hfresh|].
  destruct (Hnew "d" 3%nat None None) as (E & _ & _ & _ & _ & Hwaits).
  split; [exact E|].
  destruct (Hwaits Hfull) as (Hnex & Hq & _ & Hlater).
  split; [exact Hnex|]. split; [exact Hq|].
  apply (Hlater 0%nat (ExecutorFulfilled 5%nat)); [lia|exact Hex].
Defined.

(** Two slots, "a" and "b" running and "c" waiting: after the shutdown all
    three are cancelled and both slots are still held, so job "d", submitted
    next, is accepted but not run: it waits behind the cancelled "c". *)
Lemma C7_counterexample :
  let s := after (I:=nat) (O:=nat) 2
             [Process "a" 0%nat None None; Process "b" 1%nat None None;
              Process "c" 2%nat None None] in
  let s' := process 2 "d" 3%nat None None (abort s) in
  status_of 0 (abort s) = Some aborted ∧ status_of 1 (abort s) = Some aborted ∧
  status_of 2 (abort s) = Some aborted ∧
  processingJobs (abort s) = 2 ∧
  status_of 3 s' = Some pending ∧ exec_of 3 s' = Some NotStarted ∧
  executed s' = [0%nat; 1%nat] ∧ queue s' = [2%nat; 3%nat] ∧
  processingJobs s' = 2.
Proof. vm_compute. repeat split. Defined.

Lemma C8_witness :
  let s := after (I:=nat) (O:=nat) 1
             [Process "a" 0%nat None None; Process "b" 1%nat None None] in
  let wt := {| w_jobId := "a"; w_timeout := Some 3600000%Q; w_promise := Unsettled |} in
  let a := {| j_id := "a"; j_data := 0%nat; j_signal := None; j_status := pending;
              j_timeout := None; j_jobAbort := false; j_promise := Unsettled;
              j_exec := Executing |} in
  let b := {| j_id := "b"; j_data := 1%nat; j_signal := None; j_status := pending;
              j_timeout := None; j_jobAbort := false; j_promise := Unsettled;
              j_exec := NotStarted |} in
  jobStatus s !! "zzz" = None ∧ ("zzz" ∉ Object_prototype) ∧
  waitForJob "zzz" None s = (s, None) ∧
  is_Some (jobStatus s !! "a") ∧
  ∃ s', waitForJob "a" None s = (s', Some 0%nat) ∧
    waiting 0 wt s' ∧ w_jobId wt = "a" ∧
    jobs s' !! 0%nat = Some a ∧ j_status a = pending ∧ j_id a = "a" ∧
    jobs s' !! 1%nat = Some b ∧ j_id b ≠ "a" ∧
    waiting 0 wt (jobAbort_abort 1 s') ∧
    wait_over 0 wt (Fulfilled ()) (resolve 0 7%nat s').
Proof.
  cbv zeta.
  match goal with |- context [waitForJob _ _ ?s] => set (s0 := s) end.
  assert (is_Some (jobStatus s0 !! "a")) as Hin by (vm_compute; by eexists).
  assert (jobStatus s0 !! "zzz" = None) as Hno by (vm_compute; reflexivity).
  assert ("zzz" ∉ Object_prototype) as Hown.
  { intros H. repeat (apply elem_of_cons in H as [H|H]; [discriminate|]).
    by apply elem_of_nil in H. }
  split; [exact Hno|]. split; [exact Hown|].
  split; [by apply (C8_waitForJob 1 s0 "zzz" None)|].
  split; [exact Hin|].
  destruct (C8_waitForJob 1 s0 "a" None) as (_ & Htracked & _ & Hwait & _).
  destruct (Htracked Hin) as (s' & Heq & Hw). exists s'. split; [exact Heq|].
  split; [exact Hw|]. split; [reflexivity|].
  assert (s' = fst (waitForJob "a" None s0)) as Hs' by (by rewrite Heq).
  assert (jobs s' !! 0%nat = Some
            {| j_id := "a"; j_data := 0%nat; j_signal := None; j_status := pending;
               j_timeout := None; j_jobAbort := false; j_promise := Unsettled;
               j_exec := Executing |}) as Ha
    by (rewrite Hs'; vm_compute; reflexivity).
  assert (jobs s' !! 1%nat = Some
            {| j_id := "b"; j_data := 1%nat; j_signal := None; j_status := pending;
               j_timeout := None; j_jobAbort := false; j_promise := Unsettled;
               j_exec := NotStarted |}) as Hb
    by (rewrite Hs'; vm_compute; reflexivity).
  split; [exact Ha|]. split; [reflexivity|]. split; [reflexivity|].
  split; [exact Hb|]. split; [discriminate|].
  destruct (Hwait s' 0%nat _ Hw eq_refl) as (Hsame & Hother & _).
  split.
  - destruct (Hother 1%nat _ Hb) as (_ & _ & E); [discriminate|exact E].
  - destruct (Hsame 0%nat _ Ha eq_refl eq_refl) as (E & _). apply E.
Defined.

(** With [timeoutMs = 0] on a tracked job the waiter has no timer: the
    timeout callback that would reject the wait cannot run, and whatever
    callbacks follow, the wait is never rejected. *)
Lemma C8_counterexample :
  let s := after (I:=nat) (O:=nat) 1 [Process "a" 0%nat None None] in
  is_Some (jobStatus s !! "a") ∧
  ∃ s', waitForJob "a" (Some 0%Q) s = (s', Some 0%nat) ∧
    waiters s' !! 0%nat = Some {| w_jobId := "a"; w_timeout := None;
                                  w_promise := Unsettled |} ∧
    step 1 s' (WaitTimeoutFires 0) = None ∧
    ∀ l s'', steps 1 s' l = Some s'' →
      ∃ wt, waiters s'' !! 0%nat = Some wt ∧ ∀ e, w_promise wt ≠ Rejected e.
Proof.
  cbv zeta. split; [vm_compute; by eexists|].
  eexists. split; [vm_compute; reflexivity|]. split; [vm_compute; reflexivity|].
  split; [vm_compute; reflexivity|].
  intros l s'' Hl. destruct (quiet_steps 1 0%nat l _ s'' Hl) as (wt & Hw & _ & Hp).
  - eexists. split; [vm_compute; reflexivity|]. split; [reflexivity|]. intros e; discriminate.
  - by exists wt.
Defined.

(** The executor of job "a" rejects with a value that has no string
    conversion: the job stays pending and unsettled, nothing is emitted, and
    the rejection is left unhandled. *)
Lemma C9_witness :
  let s := after (I:=nat) (O:=nat) 1 [Process "a" 0%nat None None] in
  let b := {| j_id := "a"; j_data := 0%nat; j_signal := None; j_status := pending;
              j_timeout := None; j_jobAbort := false; j_promise := Unsettled;
              j_exec := Executing |} in
  reachable 1 s ∧ jobs s !! 0%nat = Some b ∧ j_exec b = Executing ∧
  j_status b = pending ∧ to_Error ThrownUnprintable = None ∧
  ∃ s', step 1 s (ExecutorSettles 0 (ExecutorRejected ThrownUnprintable)) = Some s' ∧
    exec_of 0 s' = Some ExecSettled ∧
    status_of 0 s' = Some pending ∧
    promise_of 0 s' = Some Unsettled ∧
    emitted s' = emitted s ∧
    unhandled s' = unhandled s ++ [0%nat].
Proof.
  cbv zeta. match goal with |- reachable _ ?s ∧ _ => set (s0 := s) end.
  split; [apply reachable_after|]. split; [vm_compute; reflexivity|].
  split; [reflexivity|]. split; [reflexivity|]. split; [reflexivity|].
  destruct (C9_executor_failure 1 s0 0%nat
    {| j_id := "a"; j_data := 0%nat; j_signal := None; j_status := pending;
       j_timeout := None; j_jobAbort := false; j_promise := Unsettled;
       j_exec := Executing |} ThrownUnprintable)
    as (s' & Hstep & E1 & _ & _ & Hthrows & _);
    [apply reachable_after|vm_compute; reflexivity|reflexivity|].
  destruct (Hthrows eq_refl eq_refl) as (_ & E2 & E3 & E4 & E5).
  exists s'. split; [exact Hstep|]. split; [exact E1|]. split; [exact E2|].
  split; [exact E3|]. split; [exact E4|exact E5].
Defined.


(** * The further properties on concrete runs *)

Lemma X1_witness :
  let s := after (I:=nat) (O:=nat) 1
             [Process "a" 0%nat None None; Process "b" 1%nat None None] in
  reachable 1 s ∧ 0 ≤ 1 ∧ get_length s ≠ 0%nat ∧ get_processing s = 1.
Proof.
  cbv zeta. split; [apply reachable_after|]. split; [lia|].
  split; [vm_compute; discriminate|].
  apply X1_no_job_waits_for_a_free_slot;
    [apply reachable_after|lia|vm_compute; discriminate].
Defined.

Lemma X2_witness :
  let s := after (I:=nat) (O:=nat) 1 [Process "a" 0%nat None None] in
  reachable 1 s ∧ ¬ get_processing s < 1 ∧
  queue (process 1 "b" 1%nat None None s) = queue s ++ [1%nat] ∧
  jobStatus (process 1 "b" 1%nat None None s) !! "b" = Some false.
Proof.
  cbv zeta. split; [apply reachable_after|].
  assert (¬ get_processing (after (I:=nat) (O:=nat) 1 [Process "a" 0%nat None None]) < 1)
    as Hfull by (vm_compute; discriminate).
  split; [exact Hfull|].
  destruct (X2_process_starts_or_queues 1
              (after (I:=nat) (O:=nat) 1 [Process "a" 0%nat None None])
              "b" 1%nat None None (reachable_after 1 _)) as (_ & Hq & _).
  destruct (Hq Hfull) as (_ & _ & E1 & _ & E2). split; [exact E1|exact E2].
Defined.

Lemma X3_witness :
  let s := after (I:=nat) (O:=nat) 1
             [Process "a" 0%nat None None; Process "b" 1%nat None None;
              ExecutorSettles 0 (ExecutorFulfilled 5%nat)] in
  let s' := after (I:=nat) (O:=nat) 1
             [Process "a" 0%nat None None; Process "b" 1%nat None None;
              ExecutorSettles 0 (ExecutorFulfilled 5%nat); ExecuteJobThen 0] in
  reachable 1 s ∧ step 1 s (ExecuteJobThen 0) = Some s' ∧
  1%nat ∈ executed s' ∧ (1%nat ∉ executed s) ∧
  ∃ b, jobs s' !! 1%nat = Some b ∧ j_status b = pending ∧ j_jobAbort b = false.
Proof.
  cbv zeta.
  match goal with |- reachable _ ?s ∧ _ = Some ?s' ∧ _ => set (s0 := s); set (s1 := s') end.
  assert (step 1 s0 (ExecuteJobThen 0) = Some s1) as Hstep by (vm_compute; reflexivity).
  assert (1%nat ∈ executed s1) as Hin by (vm_compute; repeat constructor).
  assert (1%nat ∉ executed s0) as Hnot.
  { assert (executed s0 = [0%nat]) as -> by (vm_compute; reflexivity).
    by intros ?%list_elem_of_singleton. }
  split; [apply reachable_after|]. split; [exact Hstep|].
  split; [exact Hin|]. split; [exact Hnot|].
  destruct (X3_executor_called_for_pending_jobs_only 1 s0 (ExecuteJobThen 0) s1 1%nat
              (reachable_after 1 _) Hstep Hin Hnot) as (b & Hb & Hst & _ & Hab & _).
  by exists b.
Defined.


Lemma X5_witness :
  let s := after (I:=nat) (O:=nat) 1
             [Process "a" 0%nat None None; Process "b" 1%nat None None;
              AbortJob "b"; AbortJob "b"] in
  reachable 1 s ∧
  added_jobs (emitted s) = [("a", 0%nat); ("b", 1%nat)] ∧
  sum_list_with (terminal_for "b") (emitted s) = 1%nat.
Proof.
  cbv zeta. match goal with |- reachable _ ?s ∧ _ => set (s0 := s) end.
  split; [apply reachable_after|].
  destruct (X5_events_account_for_jobs 1 s0 (reachable_after 1 _)) as [E1 E2].
  split; [rewrite E1; vm_compute; reflexivity|].
  destruct (E2 "b") as [_ ->]. vm_compute. reflexivity.
Defined.

Lemma X6_witness :
  let s := after (I:=nat) (O:=nat) 1
             [Process "a" 0%nat None None; Process "b" 1%nat None None;
              AbortJob "b"] in
  reachable 1 s ∧ NoDup (j_id <$> jobs s) ∧
  jobStatus s !! "a" = Some true ∧ jobStatus s !! "b" = None ∧
  waitForJob "b" None s = (s, None).
Proof.
  cbv zeta. match goal with |- reachable _ ?s ∧ _ => set (s0 := s) end.
  assert (NoDup (j_id <$> jobs s0)) as Hnd.
  { assert (j_id <$> jobs s0 = ["a"; "b"]) as -> by (vm_compute; reflexivity).
    apply NoDup_cons. split; [by intros ?%list_elem_of_singleton|].
    apply NoDup_singleton. }
  split; [apply reachable_after|]. split; [exact Hnd|].
  destruct (X6_job_index_tracks_pending_jobs 1 s0 (reachable_after 1 _)) as (_ & Hidx).
  destruct (Hidx Hnd 0%nat
    {| j_id := "a"; j_data := 0%nat; j_signal := None; j_status := pending;
       j_timeout := None; j_jobAbort := false; j_promise := Unsettled;
       j_exec := Executing |}) as (Ea & _); [vm_compute; reflexivity|].
  destruct (Hidx Hnd 1%nat
    {| j_id := "b"; j_data := 1%nat; j_signal := None; j_status := aborted;
       j_timeout := None; j_jobAbort := true;
       j_promise := Rejected (new_Error "abort"); j_exec := NotStarted |})
    as (Eb & Hwait); [vm_compute; reflexivity|].
  split; [exact Ea|]. split; [exact Eb|]. by apply Hwait.
Defined.

Lemma X7_witness :
  let s := after (I:=nat) (O:=nat) 1
             [Process "a" 0%nat (Some 5%Q) None; TimeoutFires 0] in
  let b := {| j_id := "a"; j_data := 0%nat; j_signal := None; j_status := aborted;
              j_timeout := None; j_jobAbort := true;
              j_promise := Rejected (new_Error "timeout"); j_exec := Executing |} in
  reachable 1 s ∧ jobs s !! 0%nat = Some b ∧ j_status b = aborted ∧
  j_jobAbort b = true ∧
  (j_promise b = Rejected (new_Error "abort") ∨
   j_promise b = Rejected (new_Error "timeout")).
Proof.
  cbv zeta. match goal with |- reachable _ ?s ∧ _ => set (s0 := s) end.
  split; [apply reachable_after|]. split; [vm_compute; reflexivity|].
  split; [reflexivity|].
  destruct (X7_outcome_agrees_with_status 1 s0 0%nat
    {| j_id := "a"; j_data := 0%nat; j_signal := None; j_status := aborted;
       j_timeout := None; j_jobAbort := true;
       j_promise := Rejected (new_Error "timeout"); j_exec := Executing |}
    (reachable_after 1 _)) as (Hab & _); [vm_compute; reflexivity|].
  by apply Hab.
Defined.

Lemma X8_witness :
  let s := after (I:=nat) (O:=nat) 1
             [Process "a" 0%nat None None; ExecutorSettles 0 (ExecutorFulfilled 5%nat)] in
  reachable 1 s ∧
  (∀ j b, jobs s !! j = Some b → j_status b = pending → j_id b ≠ "a") ∧
  abortJob "a" s = set_emitted (emitted s ++ [abort_job "a"]) s.
Proof.
  cbv zeta. match goal with |- reachable _ ?s ∧ _ => set (s0 := s) end.
  assert (∀ j b, jobs s0 !! j = Some b → j_status b = pending → j_id b ≠ "a") as Hid.
  { intros j b Hj Hst. destruct j as [|j].
    - vm_compute in Hj. injection Hj as <-. discriminate Hst.
    - vm_compute in Hj. destruct j; discriminate Hj. }
  split; [apply reachable_after|]. split; [exact Hid|].
  apply (X8_abortJob_without_pending_job 1); [apply reachable_after|exact Hid].
Defined.

Lemma X15_witness :
  let s := after (I:=nat) (O:=nat) 1 [SignalAbort 0] in
  let s' := process 1 "a" 0%nat None (Some 0%nat) s in
  reachable 1 s ∧ ac_aborted (signal_of 0 s) = true ∧
  status_of 0 s' = Some pending ∧ 0%nat ∈ ac_listeners (signal_of 0 s') ∧
  step 1 s' (SignalAbort 0) = None.
Proof.
  cbv zeta. match goal with |- reachable _ ?s ∧ _ => set (s0 := s) end.
  assert (ac_aborted (signal_of 0 s0) = true) as Hsg by (vm_compute; reflexivity).
  split; [apply reachable_after|]. split; [exact Hsg|].
  destruct (X15_signal_aborted_before_submission 1 s0 0%nat "a" 0%nat None
              (reachable_after 1 _) Hsg) as (E1 & _ & E3 & Hnever).
  split; [exact E1|]. split; [exact E3|]. by apply (Hnever []).
Defined.

Lemma X16_witness :
  let s := after (I:=nat) (O:=nat) 1
             [Process "a" 0%nat None None; WaitForJob "a" (Some 5%Q);
              WaitForJob "a" None; WaitTimeoutFires 0] in
  let wt := {| w_jobId := "a"; w_timeout := None;
               w_promise := Rejected (new_Error "Timeout waiting for job") |} in
  reachable 1 s ∧ waiters s !! 0%nat = Some wt ∧ w_promise wt ≠ Unsettled ∧
  (0%nat ∉ jobProcessedListeners s) ∧ (0%nat ∉ jobCancelledListeners s) ∧
  1%nat ∈ jobProcessedListeners s.
Proof.
  cbv zeta. match goal with |- reachable _ ?s ∧ _ => set (s0 := s) end.
  assert (waiters s0 !! 0%nat = Some
            {| w_jobId := "a"; w_timeout := None;
               w_promise := Rejected (new_Error "Timeout waiting for job") |}) as Hw
    by (vm_compute; reflexivity).
  split; [apply reachable_after|]. split; [exact Hw|]. split; [done|].
  destruct (X16_waitForJob_leaves_nothing_behind 1 s0 (reachable_after 1 _))
    as (Hon & Hoff & _).
  destruct (Hoff _ _ Hw) as (E1 & E2 & _); [done|].
  split; [exact E1|]. split; [exact E2|].
  assert (waiters s0 !! 1%nat = Some
            {| w_jobId := "a"; w_timeout := Some 3600000%Q; w_promise := Unsettled |})
    as Hw1 by (vm_compute; reflexivity).
  by destruct (Hon _ _ Hw1).
Defined.

Lemma X17_witness :
  let s := after (I:=nat) (O:=nat) 1
             [Process "a" 0%nat None None; Process "b" 1%nat None None] in
  let l := [ExecutorSettles 0 (ExecutorFulfilled 5%nat); ExecuteJobThen 0;
            Process "c" 2%nat None None] in
  let s'' := after (I:=nat) (O:=nat) 1
             ([Process "a" 0%nat None None; Process "b" 1%nat None None; Abort] ++ l) in
  let b := {| j_id := "b"; j_data := 1%nat; j_signal := None; j_status := pending;
              j_timeout := None; j_jobAbort := false; j_promise := Unsettled;
              j_exec := NotStarted |} in
  reachable 1 s ∧ steps 1 (abort s) l = Some s'' ∧ jobs s !! 1%nat = Some b ∧
  (1%nat ∈ executed s'' → 1%nat ∈ executed s) ∧ executed s'' = [0%nat; 2%nat].
Proof.
  cbv zeta. match goal with |- reachable _ ?s ∧ _ => set (s0 := s) end.
  match goal with |- _ ∧ steps _ _ ?l = Some ?s ∧ _ => set (l0 := l); set (s2 := s) end.
  assert (steps 1 (abort s0) l0 = Some s2) as Hl by (vm_compute; reflexivity).
  split; [apply reachable_after|]. split; [exact Hl|].
  split; [vm_compute; reflexivity|].
  split; [|vm_compute; reflexivity].
  destruct (X17_nothing_starts_after_shutdown 1 s0 l0 s2 1%nat
    {| j_id := "b"; j_data := 1%nat; j_signal := None; j_status := pending;
       j_timeout := None; j_jobAbort := false; j_promise := Unsettled;
       j_exec := NotStarted |} (reachable_after 1 _) Hl) as [Hnever _];
    [vm_compute; reflexivity|exact Hnever].
Defined.

Lemma X18_witness :
  let s := after (I:=nat) (O:=nat) 0
             [Process "a" 0%nat None None; Process "b" 1%nat None None] in
  0 ≤ 0 ∧ reachable 0 s ∧ executed s = [] ∧ get_length s = 2%nat.
Proof.
  cbv zeta. split; [lia|]. split; [apply reachable_after|].
  destruct (X18_no_slot_no_work 0 _ (Z.le_refl 0)
              (reachable_after (I:=nat) (O:=nat) 0
                 [Process "a" 0%nat None None; Process "b" 1%nat None None]))
    as (E1 & _ & E2 & _).
  split; [exact E1|]. rewrite E2. vm_compute. reflexivity.
Defined.

Lemma X19_witness :
  let s := after (I:=nat) (O:=nat) 1
             [Process "a" 0%nat None None; ExecutorSettles 0 (ExecutorFulfilled 5%nat)] in
  let e := [job_added (O:=nat) "a" 0%nat 1] in
  reachable 1 s ∧ e `prefix_of` emitted s ∧
  (sum_list_with (terminal_for "a") e ≤ sum_list_with (added_for "a") e)%nat.
Proof.
  cbv zeta.
  assert ([job_added (O:=nat) "a" 0%nat 1] `prefix_of`
          emitted (after (I:=nat) (O:=nat) 1
                     [Process "a" 0%nat None None;
                      ExecutorSettles 0 (ExecutorFulfilled 5%nat)])) as Hpre.
  { exists [job_processed "a" 0%nat (StatusOutput 5%nat) 0]. vm_compute. reflexivity. }
  split; [apply reachable_after|]. split; [exact Hpre|].
  apply (X19_job_added_comes_first 1
           (after (I:=nat) (O:=nat) 1
              [Process "a" 0%nat None None;
               ExecutorSettles 0 (ExecutorFulfilled 5%nat)]));
    [apply reachable_after|exact Hpre].
Defined.

(** * The id of a job carries its submission time *)

Lemma split_head_digits d rest :
  split_head "-"%char (NilEmpty.string_of_uint d +:+ String "-"%char rest)
  = NilEmpty.string_of_uint d.
Proof.
  induction d as [|d IH|d IH|d IH|d IH|d IH|d IH|d IH|d IH|d IH|d IH]; simpl;
    [done|by rewrite IH..].
Qed.

Lemma to_uint_nonnil n : N.to_uint n ≠ Decimal.Nil.
Proof. destruct n as [|p]; [done|]. apply Unsigned.to_uint_nonnil. Qed.

Lemma split_head_nextId now random36 :
  split_head "-"%char (nextId now random36) = String_of_number now.
Proof.
  unfold nextId, String_of_number. pose proof (to_uint_nonnil now) as Hn.
  destruct (N.to_uint now) eqn:E; [done|..]; apply (split_head_digits _ _).
Qed.

Lemma Number_of_String n : Number_of_digits (String_of_number n) = Some n.
Proof.
  unfold Number_of_digits, String_of_number.
  rewrite NilZero.usu by apply to_uint_nonnil. cbn. by rewrite DecimalN.Unsigned.of_to.
Qed.

(** No id made by [nextId] is a property name of [Object.prototype]. *)
Lemma nextId_not_inherited now random36 : nextId now random36 ∉ Object_prototype.
Proof.
  assert (Forall (λ k, Number_of_digits (split_head "-"%char k) = None) Object_prototype)
    as Hkeys by (repeat constructor).
  intros Hin. rewrite Forall_forall in Hkeys. specialize (Hkeys _ Hin).
  by rewrite split_head_nextId, Number_of_String in Hkeys.
Qed.

(** X20: an id made by [nextId] starts with the time it was made at, and
    [resolve] reads that time back: [Number(id.split('-')[0])] is the value
    [Date.now()] had in [nextId], whatever the random part is, so that the
    duration [resolve] logs is the time since the job was submitted. *)
Theorem X20_id_carries_submission_time (now later : N) (random36 : string) :
  Number_of_digits (split_head "-"%char (nextId now random36)) = Some now ∧
  elapsed later (nextId now random36) = Some (Z.of_N later - Z.of_N now).
Proof.
  unfold elapsed. rewrite split_head_nextId, Number_of_String. done.
Qed.

(** * Properties of lazyloadObject *)

Section LazyProperties.

Context {T Key Val World Err : Type}.
Variable init : World → (Err + T) * World.
Variable read : T → Key → World → (Err + Val) * World.

(** Once the proxy holds its object, a read through it is a read of the
    object, and [init] is not called. *)
Lemma lazy_gets_initialised o props w :
  lazy_gets init read props (Some o) w =
    let '(rs, w) := reads read o props w in (rs, Some o, w).
Proof.
  revert w. induction props as [|prop props IH]; intros w; cbn; [done|].
  destruct (read o prop w) as [r w1]. rewrite IH. by destruct (reads read o props w1).
Qed.

Lemma init_runs_S n w : init_runs init (S n) w = init_runs init n (snd (init w)).
Proof. unfold init_runs. by rewrite Nat.iter_succ_r. Qed.

(** X9: the proxy calls [init] at the first property read and never
    again.  Making the proxy calls nothing; a run of one or more reads is
    one call of [init] followed by the same reads on the object it
    returned, which the proxy keeps. *)
Theorem X9_lazyloadObject_runs_init_once o w0 w1 prop props :
  init w0 = (inr o, w1) →
  lazy_gets init read [] lazyloadObject w0 = ([], None, w0) ∧
  lazy_gets init read (prop :: props) lazyloadObject w0 =
    let '(rs, w) := reads read o (prop :: props) w1 in (rs, Some o, w).
Proof.
  intros Hinit. split; [done|]. cbn. rewrite Hinit.
  destruct (read o prop w1) as [r w2]. rewrite lazy_gets_initialised.
  by destruct (reads read o props w2).
Qed.

(** X10: a failure of [init] is not remembered.  While [init] throws, each
    read runs it again and throws, and the proxy stays without an object, so
    that the first read after [init] has succeeded initialises it. *)
Theorem X10_lazyloadObject_retries_failing_init props w0 :
  (∀ i, (i < length props)%nat → ∃ e, fst (init (init_runs init i w0)) = inl e) →
  ∃ rs, lazy_gets init read props lazyloadObject w0
          = (rs, None, init_runs init (length props) w0) ∧
        length rs = length props ∧ Forall (λ r, ∃ e, r = inl e) rs.
Proof.
  unfold lazyloadObject. revert w0.
  induction props as [|prop props IH]; intros w0 Hfail.
  - exists []. by repeat split.
  - destruct (Hfail 0%nat) as [e He]; [cbn; lia|]. cbn in He.
    destruct (IH (snd (init w0))) as (rs & Hrs & Hlen & Hall).
    { intros i Hi. rewrite <- init_runs_S. apply Hfail. cbn. lia. }
    exists (inl e :: rs). cbn [lazy_gets lazy_get length]. rewrite init_runs_S.
    destruct (init w0) as [[e'|o] w1]; cbn in He; [|done]. simplify_eq.
    cbn [snd] in Hrs |- *. rewrite Hrs.
    split; [done|]. split; [by rewrite Hlen|]. constructor; [by exists e|done].
Qed.

End LazyProperties.

(** The test of the repository: [lazyloadObject(() => { hasInitialized =
    true; return { x: 2 } })], with [hasInitialized] as the world. *)
Lemma X9_witness :
  let init := λ _ : bool, (inr (B:=gmap string nat) (A:=string) {["x" := 2%nat]}, true) in
  let read := λ (o : gmap string nat) (prop : string) (w : bool),
                (inr (A:=string) (o !! prop), w) in
  init false = (inr {["x" := 2%nat]}, true) ∧
  lazy_gets init read [] lazyloadObject false = ([], None, false) ∧
  lazy_gets init read ["x"] lazyloadObject false
    = ([inr (Some 2%nat)], Some {["x" := 2%nat]}, true).
Proof.
  cbv zeta. split; [reflexivity|].
  destruct (X9_lazyloadObject_runs_init_once
              (λ _ : bool, (inr (B:=gmap string nat) (A:=string) {["x" := 2%nat]}, true))
              (λ (o : gmap string nat) (prop : string) (w : bool),
                 (inr (A:=string) (o !! prop), w))
              {["x" := 2%nat]} false true "x" [] eq_refl) as [E1 E2].
  split; [exact E1|]. etrans; [exact E2|]. vm_compute. reflexivity.
Defined.

Lemma X10_witness :
  let init := λ n : nat, (inl (B:=unit) "boom", S n) in
  let read := λ (o : unit) (prop : string) (w : nat), (inr (A:=string) 0%nat, w) in
  (∀ i, (i < 2)%nat → ∃ e, fst (init (init_runs init i 0%nat)) = inl e) ∧
  ∃ rs, lazy_gets init read ["x"; "y"] lazyloadObject 0%nat = (rs, None, 2%nat).
Proof.
  cbv zeta.
  assert (∀ i, (i < 2)%nat →
            ∃ e, fst ((λ n : nat, (inl (B:=unit) "boom", S n))
                        (init_runs (λ n : nat, (inl (B:=unit) "boom", S n)) i 0%nat))
                 = inl e) as Hfail by (intros i _; by exists "boom").
  split; [exact Hfail|].
  destruct (X10_lazyloadObject_retries_failing_init
              (λ n : nat, (inl (B:=unit) "boom", S n))
              (λ (o : unit) (prop : string) (w : nat), (inr (A:=string) 0%nat, w))
              ["x"; "y"] 0%nat Hfail) as (rs & Hrs & _).
  exists rs. exact Hrs.
Defined.

(** * Properties of the singletons *)

Section SingletonProperties.

Context {U World Err : Type}.
Implicit Types (g : @Globals U World) (name : string).

Lemma Map_has_true name g v :
  singletonInstances g !! name = Some v → Map_has name g = true.
Proof. intros Hv. unfold Map_has. rewrite Hv. by apply bool_decide_eq_true_2. Qed.

Lemma Map_has_false name g :
  singletonInstances g !! name = None → Map_has name g = false.
Proof.
  intros Hv. unfold Map_has. rewrite Hv. apply bool_decide_eq_false_2. by intros [? ?].
Qed.


Lemma singletonAsync_registered name g v (f : Globals → option Err * Globals) :
  singletonInstances g !! name = Some v →
  singletonAsync name f g = (Returned (inr (Some v)), g).
Proof.
  intros Hv. unfold singletonAsync. rewrite (Map_has_true _ _ _ Hv). cbn.
  unfold Map_get. by rewrite Hv.
Qed.



(** X12: with a service that leaves the registry alone, a call of
    [singletonSync] changes at most the entry of its own name: an instance
    that is registered is neither replaced nor dropped, the other names keep
    what they had, and a service that throws registers nothing. *)
Theorem X12_singletonSync_touches_its_own_name_only name g g' r
    (getService : Globals → (Err + U) * Globals) :
  keeps_instances getService →
  singletonSync name getService g = (r, g') →
  (∀ key v, singletonInstances g !! key = Some v → singletonInstances g' !! key = Some v) ∧
  (∀ key, key ≠ name → singletonInstances g' !! key = singletonInstances g !! key) ∧
  (∀ e, r = inl e → singletonInstances g' = singletonInstances g).
Proof.
  intros Hkeep. unfold singletonSync, Map_has. specialize (Hkeep g).
  case_bool_decide as Hhas; cbn.
  - intros [= <- <-]. by repeat split.
  - destruct (getService g) as [[e|v] g1]; cbn in Hkeep; intros [= <- <-].
    + rewrite Hkeep. by repeat split.
    + cbn. rewrite Hkeep. split; [|split; [|done]].
      * intros key w Hw. rewrite lookup_insert_ne; [done|].
        intros <-. apply Hhas. by exists w.
      * intros key Hne. by rewrite lookup_insert_ne.
Qed.

(** X13: [singletonAsync] looks the name up before it awaits its service
    and registers after.  Two calls for a missing name that overlap both
    call their service and suspend; each returns the value of its own
    service, and the one that resumes last stays registered for the calls
    to come. *)
Theorem X13_singletonAsync_overlapping_calls name g0 g1 g2 v1 v2
    (getService1 getService2 : Globals → option Err * Globals) :
  singletonInstances g0 !! name = None →
  getService1 g0 = (None, g1) → singletonInstances g1 = singletonInstances g0 →
  getService2 g1 = (None, g2) → singletonInstances g2 = singletonInstances g1 →
  singletonAsync name getService1 g0 = (Awaiting, g1) ∧
  singletonAsync name getService2 g1 = (Awaiting, g2) ∧
  let '(r1, g3) := singletonAsync_resume (Err:=Err) name (inr v1) g2 in
  let '(r2, g4) := singletonAsync_resume (Err:=Err) name (inr v2) g3 in
  r1 = inr (Some v1) ∧ r2 = inr (Some v2) ∧ Map_get name g4 = Some v2 ∧
  (∀ getService3 : Globals → option Err * Globals,
     singletonAsync name getService3 g4 = (Returned (inr (Some v2)), g4)).
Proof.
  intros H0 Hs1 E1 Hs2 E2.
  assert (singletonInstances g1 !! name = None) as H1 by (by rewrite E1).
  split; [|split].
  - unfold singletonAsync. rewrite (Map_has_false _ _ H0). cbn. by rewrite Hs1.
  - unfold singletonAsync. rewrite (Map_has_false _ _ H1). cbn. by rewrite Hs2.
  - cbn. unfold Map_get. cbn. rewrite !lookup_insert_eq. repeat split.
    intros f3. apply singletonAsync_registered. cbn. by rewrite lookup_insert_eq.
Qed.


End SingletonProperties.


Lemma X12_witness :
  let g := {| singletonInstances := ({["db" := 7%nat]} : gmap string nat);
              world := 0%nat |} in
  let getService := λ g : Globals (U:=nat) (World:=nat),
        (inr (A:=string) (world g),
         {| singletonInstances := singletonInstances g; world := S (world g) |}) in
  keeps_instances getService ∧
  singletonInstances (snd (singletonSync "cache" getService g)) !! "db" = Some 7%nat.
Proof.
  cbv zeta.
  assert (keeps_instances
            (λ g : Globals (U:=nat) (World:=nat),
               (inr (A:=string) (world g),
                {| singletonInstances := singletonInstances g; world := S (world g) |})))
    as Hkeep by (intros g; reflexivity).
  split; [exact Hkeep|].
  destruct (X12_singletonSync_touches_its_own_name_only "cache"
              {| singletonInstances := ({["db" := 7%nat]} : gmap string nat);
                 world := 0%nat |} _ _ _ Hkeep
              (surjective_pairing _)) as (Hold & _).
  apply Hold. vm_compute. reflexivity.
Defined.

Lemma X13_witness :
  let g0 := {| singletonInstances := (∅ : gmap string nat); world := 0%nat |} in
  let g1 := {| singletonInstances := (∅ : gmap string nat); world := 1%nat |} in
  let g2 := {| singletonInstances := (∅ : gmap string nat); world := 2%nat |} in
  let getService := λ g : Globals (U:=nat) (World:=nat),
        (None (A:=string),
         {| singletonInstances := singletonInstances g; world := S (world g) |}) in
  singletonInstances g0 !! "db" = None ∧
  getService g0 = (None, g1) ∧ singletonInstances g1 = singletonInstances g0 ∧
  getService g1 = (None, g2) ∧ singletonInstances g2 = singletonInstances g1 ∧
  singletonAsync "db" getService g0 = (Awaiting, g1) ∧
  singletonAsync "db" getService g1 = (Awaiting, g2).
Proof.
  cbv zeta. split; [reflexivity|]. split; [reflexivity|]. split; [reflexivity|].
  split; [reflexivity|]. split; [reflexivity|].
  assert (singletonInstances
            {| singletonInstances := (∅ : gmap string nat); world := 0%nat |} !! "db"
          = None) as Hmissing by reflexivity.
  destruct (X13_singletonAsync_overlapping_calls "db"
              {| singletonInstances := (∅ : gmap string nat); world := 0%nat |}
              {| singletonInstances := (∅ : gmap string nat); world := 1%nat |}
              {| singletonInstances := (∅ : gmap string nat); world := 2%nat |}
              10%nat 20%nat
              (λ g : Globals (U:=nat) (World:=nat),
                 (None (A:=string),
                  {| singletonInstances := singletonInstances g; world := S (world g) |}))
              (λ g : Globals (U:=nat) (World:=nat),
                 (None (A:=string),
                  {| singletonInstances := singletonInstances g; world := S (world g) |}))
              Hmissing eq_refl eq_refl eq_refl eq_refl) as (E1 & E2 & _).
  split; [exact E1|exact E2].
Defined.
